(** * jpy_utils.color_utils: a shallow embedding and its verified properties

    The development follows [src/jpy_utils/color_utils.py].  Python values are
    modelled as the code has them:

    - [int] is [Z];
    - [float] is the primitive IEEE-754 binary64 type [float] of the kernel
      (CPython floats are C doubles), with Python's own partiality written
      out: [x / y] and [x % y] raise [ZeroDivisionError] on a zero divisor,
      [int(x)] raises on NaN and on the infinities;
    - [str] is [string]; a character is a code point below 256;
    - exceptions are the [Raise] branch of the [result] type;
    - [Union[str, Tuple[int, int, int]]] is the tagged union [color].

    The functions of the standard module [colorsys] that the file calls are
    transcribed in [Module colorsys]. *)

From Stdlib Require Import ZArith List String Ascii Bool Lia Floats Uint63 DecimalString.
From Stdlib Require Import Reals Lra Zpower.
Import ListNotations.

Local Open Scope string_scope.
Local Open Scope Z_scope.
#[local] Set Warnings "-inexact-float".

(** ** Exceptions and the error monad *)

Inductive exn : Type :=
| ValueError (msg : string)
| ZeroDivisionError
| OverflowError
| IndexError
| OutOfFuel.

Inductive result (A : Type) : Type :=
| Ok (a : A)
| Raise (e : exn).
Arguments Ok {A} a.
Arguments Raise {A} e.

Definition bind {A B : Type} (m : result A) (k : A -> result B) : result B :=
  match m with
  | Ok a => k a
  | Raise e => Raise e
  end.

Notation "x <- m ;; k" := (bind m (fun x => k))
  (at level 61, m at next level, right associativity).
Notation "' p <- m ;; k" := (bind m (fun x => let p := x in k))
  (at level 61, p pattern, m at next level, right associativity).

Definition is_ok {A : Type} (m : result A) : bool :=
  match m with Ok _ => true | Raise _ => false end.

Definition raises_ValueError {A : Type} (m : result A) : Prop :=
  exists msg, m = Raise (ValueError msg).

(** ** Strings *)

Module PyStr.

(** [c in chars] for a one-character [c]. *)
Fixpoint mem_char (c : ascii) (chars : string) : bool :=
  match chars with
  | EmptyString => false
  | String d chars' => Ascii.eqb c d || mem_char c chars'
  end.

(** [s.lstrip(chars)]: drops the longest prefix made of characters of
    [chars]. *)
Fixpoint lstrip (chars s : string) : string :=
  match s with
  | EmptyString => EmptyString
  | String c s' => if mem_char c chars then lstrip chars s' else s
  end.

(** [c * n] for a one-character string. *)
Fixpoint replicate (n : nat) (c : ascii) : string :=
  match n with
  | O => EmptyString
  | S n' => String c (replicate n' c)
  end.

Definition in_range (lo hi : nat) (c : ascii) : bool :=
  let n := nat_of_ascii c in (lo <=? n)%nat && (n <=? hi)%nat.

(** ASCII part of [str.upper]. *)
Definition upper_char (c : ascii) : ascii :=
  if in_range 97 122 c then ascii_of_nat (nat_of_ascii c - 32) else c.

Fixpoint upper (s : string) : string :=
  match s with
  | EmptyString => EmptyString
  | String c s' => String (upper_char c) (upper s')
  end.

(** The value of a digit in base 16 ([_PyLong_DigitValue] below 16). *)
Definition digit16 (c : ascii) : option Z :=
  let n := Z.of_nat (nat_of_ascii c) in
  if in_range 48 57 c then Some (n - 48)
  else if in_range 97 102 c then Some (n - 87)
  else if in_range 65 70 c then Some (n - 55)
  else None.

Definition is_hex_digit (c : ascii) : bool :=
  match digit16 c with Some _ => true | None => false end.

Fixpoint all_hex (s : string) : bool :=
  match s with
  | EmptyString => true
  | String c s' => is_hex_digit c && all_hex s'
  end.

(** White space as [int()] sees it in a [str] of code points below 256:
    tab to carriage return, space, and the two non-ASCII spaces NEL and
    NBSP. *)
Definition is_space (c : ascii) : bool :=
  in_range 9 13 c || in_range 32 32 c || in_range 133 133 c || in_range 160 160 c.

Fixpoint skip_spaces (s : string) : string :=
  match s with
  | String c s' => if is_space c then skip_spaces s' else s
  | EmptyString => EmptyString
  end.

Fixpoint all_spaces (s : string) : bool :=
  match s with
  | EmptyString => true
  | String c s' => is_space c && all_spaces s'
  end.

(** The digit loop of [PyLong_FromString]: digits with single underscores
    between them; [prev_us] records that the previous character was an
    underscore.  Returns the value read and the rest of the text. *)
Fixpoint scan_digits (s : string) (acc : Z) (prev_us : bool) : option (Z * string) :=
  match s with
  | EmptyString => if prev_us then None else Some (acc, s)
  | String c s' =>
      match digit16 c with
      | Some d => scan_digits s' (16 * acc + d) false
      | None =>
          if Ascii.eqb c "_" then (if prev_us then None else scan_digits s' acc true)
          else if prev_us then None else Some (acc, s)
      end
  end.

(** [int(s, 16)]; [None] stands for the [ValueError] it raises. *)
Definition int_base16 (s : string) : option Z :=
  let s := skip_spaces s in
  let '(neg, s) :=
    match s with
    | String "+" r => (false, r)
    | String "-" r => (true, r)
    | _ => (false, s)
    end in
  let s :=
    match s with
    | String "0" (String x r) =>
        if Ascii.eqb x "x" || Ascii.eqb x "X"
        then match r with String "_" r' => r' | _ => r end
        else s
    | _ => s
    end in
  match s with
  | EmptyString => None
  | String c _ =>
      if is_hex_digit c then
        match scan_digits s 0 false with
        | Some (v, rest) => if all_spaces rest then Some (if neg then - v else v) else None
        | None => None
        end
      else None
  end.

(** Upper-case hexadecimal digits of a natural number. *)
Fixpoint hex_upper (d : Hexadecimal.uint) : string :=
  match d with
  | Hexadecimal.Nil => ""
  | Hexadecimal.D0 d => String "0" (hex_upper d)
  | Hexadecimal.D1 d => String "1" (hex_upper d)
  | Hexadecimal.D2 d => String "2" (hex_upper d)
  | Hexadecimal.D3 d => String "3" (hex_upper d)
  | Hexadecimal.D4 d => String "4" (hex_upper d)
  | Hexadecimal.D5 d => String "5" (hex_upper d)
  | Hexadecimal.D6 d => String "6" (hex_upper d)
  | Hexadecimal.D7 d => String "7" (hex_upper d)
  | Hexadecimal.D8 d => String "8" (hex_upper d)
  | Hexadecimal.D9 d => String "9" (hex_upper d)
  | Hexadecimal.Da d => String "A" (hex_upper d)
  | Hexadecimal.Db d => String "B" (hex_upper d)
  | Hexadecimal.Dc d => String "C" (hex_upper d)
  | Hexadecimal.Dd d => String "D" (hex_upper d)
  | Hexadecimal.De d => String "E" (hex_upper d)
  | Hexadecimal.Df d => String "F" (hex_upper d)
  end.

(** [format(v, "02X")]: upper-case hexadecimal, zero-padded to width 2, the
    sign counting in the width. *)
Definition format_02X (v : Z) : string :=
  let digits := hex_upper (N.to_hex_uint (Z.to_N (Z.abs v))) in
  if v <? 0 then "-" ++ digits
  else if (String.length digits <? 2)%nat then "0" ++ digits
  else digits.

(** [str(v)] for an [int], as an f-string field formats it.  CPython
    (3.11, and the earlier releases with the same safeguard) refuses to
    convert an integer of more than 4300 decimal digits, the default of
    [sys.int_max_str_digits], the sign not counted. *)
Definition max_str_digits : Z := 4300.

Definition str_of_int (v : Z) : result string :=
  if Z.abs v <? 10 ^ max_str_digits then Ok (NilZero.string_of_int (Z.to_int v))
  else Raise (ValueError ("Exceeds the limit (4300 digits) for integer string conversion; "
                          ++ "use sys.set_int_max_str_digits() to increase the limit")).

End PyStr.
Import PyStr.

(** ** Hexadecimal colours *)

Definition hex_to_rgb (hex_color : string) : result (Z * Z * Z) :=
  let hex_color := lstrip "#" hex_color in
  if negb (String.length hex_color =? 6)%nat then
    Raise (ValueError ("Invalid hex color format: " ++ hex_color))
  else
    match int_base16 (substring 0 2 hex_color),
          int_base16 (substring 2 2 hex_color),
          int_base16 (substring 4 2 hex_color) with
    | Some r, Some g, Some b => Ok (r, g, b)
    | _, _, _ => Raise (ValueError ("Invalid hex color format: " ++ hex_color))
    end.

Definition check_channel (value : Z) (name : string) : result unit :=
  if (0 <=? value) && (value <=? 255) then Ok tt
  else
    text <- str_of_int value ;;
    Raise (ValueError ("Invalid " ++ name ++ " value: " ++ text ++ ". Must be 0-255.")).

Definition rgb_to_hex (r g b : Z) : result string :=
  _ <- check_channel r "red" ;;
  _ <- check_channel g "green" ;;
  _ <- check_channel b "blue" ;;
  Ok ("#" ++ format_02X r ++ format_02X g ++ format_02X b).

(** ** Numbers *)

Module PyNum.

(** [float(z)] for an [int]: the nearest double, ties to even; Python raises
    [OverflowError] when the integer is too large for a double. *)
Definition float_of_int (z : Z) : result float :=
  let f := SF2Prim (binary_normalize prec emax z 0 false) in
  if is_infinity f then Raise OverflowError else Ok f.

(** Truncation toward zero of a floating-point value. *)
Definition SFtrunc (x : spec_float) : result Z :=
  match x with
  | S754_nan => Raise (ValueError "cannot convert float NaN to integer")
  | S754_infinity _ => Raise OverflowError
  | S754_zero _ => Ok 0
  | S754_finite s m e =>
      Ok (cond_Zopp s (if 0 <=? e then Zpos m * 2 ^ e else Zpos m / 2 ^ (- e)))
  end.

(** [int(f)] for a [float]. *)
Definition py_int (f : float) : result Z := SFtrunc (Prim2SF f).

(** [x / y] on floats. *)
Definition fdiv (x y : float) : result float :=
  if (y =? 0)%float then Raise ZeroDivisionError else Ok (x / y)%float.

(** The C function [fmod]: the exact remainder of [x] by [y], with the sign
    of [x].  Both operands are integer multiples of two to the smaller
    exponent, and so is the remainder. *)
Definition SFfmod (x y : spec_float) : spec_float :=
  match x, y with
  | S754_nan, _ | _, S754_nan => S754_nan
  | S754_infinity _, _ => S754_nan
  | _, S754_zero _ => S754_nan
  | S754_zero _, _ => x
  | S754_finite _ _ _, S754_infinity _ => x
  | S754_finite sx mx ex, S754_finite sy my ey =>
      let e := Z.min ex ey in
      let X := Zpos mx * 2 ^ (ex - e) in
      let Y := Zpos my * 2 ^ (ey - e) in
      match X mod Y with
      | Zpos r => binary_normalize prec emax (cond_Zopp sx (Zpos r)) e false
      | _ => S754_zero sx
      end
  end.

Definition c_fmod (x y : float) : float :=
  SF2Prim (SFfmod (Prim2SF x) (Prim2SF y)).

(** [x % y] on floats ([float_rem] of CPython): the C remainder, moved to
    the sign of the divisor. *)
Definition fmod_py (x y : float) : result float :=
  if (y =? 0)%float then Raise ZeroDivisionError
  else
    let m := c_fmod x y in
    if negb (m =? 0)%float then
      if negb (Bool.eqb (y <? 0)%float (m <? 0)%float) then Ok (m + y)%float
      else Ok m
    else Ok (if get_sign y then neg_zero else zero).

Definition Z2SF (z : Z) : spec_float :=
  match z with
  | Z0 => S754_zero false
  | Zpos p => S754_finite false p 0
  | Zneg p => S754_finite true p 0
  end.

(** [a / b] on two [int]s ([long_true_divide] of CPython): when both are
    below [2^53] in absolute value the quotient of the two doubles;
    otherwise the correctly rounded quotient of the integers. *)
Definition int_truediv (a b : Z) : result float :=
  if b =? 0 then Raise ZeroDivisionError
  else if (Z.abs a <? 2 ^ 53) && (Z.abs b <? 2 ^ 53) then
    da <- float_of_int a ;;
    db <- float_of_int b ;;
    Ok (da / db)%float
  else
    let q := SF2Prim (SFdiv prec emax (Z2SF a) (Z2SF b)) in
    if is_infinity q then Raise OverflowError else Ok q.

(** Exact comparison of a float with an integer, as Python compares them. *)
Definition float_lt_int (f : float) (z : Z) : bool :=
  match Prim2SF f with
  | S754_nan => false
  | S754_infinity s => s
  | S754_zero _ => 0 <? z
  | S754_finite s m e =>
      let v := cond_Zopp s (Zpos m) in
      if 0 <=? e then v * 2 ^ e <? z else v <? z * 2 ^ (- e)
  end.

Definition int_lt_float (z : Z) (f : float) : bool :=
  match Prim2SF f with
  | S754_nan => false
  | S754_infinity s => negb s
  | S754_zero _ => z <? 0
  | S754_finite s m e =>
      let v := cond_Zopp s (Zpos m) in
      if 0 <=? e then z <? v * 2 ^ e else z * 2 ^ (- e) <? v
  end.

(** A Python number: an [int] or a [float]. *)
Inductive num : Type :=
| PInt (z : Z)
| PFloat (f : float).

Definition to_float (x : num) : result float :=
  match x with
  | PInt z => float_of_int z
  | PFloat f => Ok f
  end.

Definition num_add (x y : num) : result num :=
  match x, y with
  | PInt a, PInt b => Ok (PInt (a + b))
  | _, _ => a <- to_float x ;; b <- to_float y ;; Ok (PFloat (a + b)%float)
  end.

Definition num_sub (x y : num) : result num :=
  match x, y with
  | PInt a, PInt b => Ok (PInt (a - b))
  | _, _ => a <- to_float x ;; b <- to_float y ;; Ok (PFloat (a - b)%float)
  end.

Definition num_mul (x y : num) : result num :=
  match x, y with
  | PInt a, PInt b => Ok (PInt (a * b))
  | _, _ => a <- to_float x ;; b <- to_float y ;; Ok (PFloat (a * b)%float)
  end.

Definition num_truediv (x y : num) : result float :=
  match x, y with
  | PInt a, PInt b => int_truediv a b
  | _, _ => a <- to_float x ;; b <- to_float y ;; fdiv a b
  end.

Definition num_mod (x y : num) : result num :=
  match x, y with
  | PInt a, PInt b => if b =? 0 then Raise ZeroDivisionError else Ok (PInt (a mod b))
  | _, _ => a <- to_float x ;; b <- to_float y ;; r <- fmod_py a b ;; Ok (PFloat r)
  end.

Definition num_lt (x y : num) : bool :=
  match x, y with
  | PInt a, PInt b => a <? b
  | PInt a, PFloat g => int_lt_float a g
  | PFloat f, PInt b => float_lt_int f b
  | PFloat f, PFloat g => (f <? g)%float
  end.

(** [min(a, b)] and [max(a, b)]: the first argument unless the second is
    strictly smaller (larger). *)
Definition num_min (a b : num) : num := if num_lt b a then b else a.
Definition num_max (a b : num) : num := if num_lt a b then b else a.

(** [int(x)]. *)
Definition num_int (x : num) : result Z :=
  match x with
  | PInt z => Ok z
  | PFloat f => py_int f
  end.

(** [range(n)]. *)
Fixpoint range_from (start : Z) (n : nat) : list Z :=
  match n with
  | O => []
  | S n' => start :: range_from (start + 1) n'
  end.

Definition range (n : Z) : list Z := range_from 0 (Z.to_nat n).

(** A [for] loop over a list, threading the loop's state. *)
Fixpoint for_each {A S : Type} (l : list A) (body : A -> S -> result S) (s : S) : result S :=
  match l with
  | [] => Ok s
  | x :: l' => s' <- body x s ;; for_each l' body s'
  end.

End PyNum.
Import PyNum.

(** ** The module [colorsys] *)

Module colorsys.

Definition ONE_THIRD : float := (1 / 3)%float.
Definition ONE_SIXTH : float := (1 / 6)%float.
Definition TWO_THIRD : float := (2 / 3)%float.

(** [max(a, b, c)] and [min(a, b, c)] on floats. *)
Definition max3 (a b c : float) : float :=
  let m := if (a <? b)%float then b else a in
  if (m <? c)%float then c else m.

Definition min3 (a b c : float) : float :=
  let m := if (b <? a)%float then b else a in
  if (c <? m)%float then c else m.

Definition rgb_to_hls (r g b : float) : result (float * float * float) :=
  let maxc := max3 r g b in
  let minc := min3 r g b in
  let sumc := (maxc + minc)%float in
  let rangec := (maxc - minc)%float in
  l <- fdiv sumc 2 ;;
  if (minc =? maxc)%float then Ok (0%float, l, 0%float)
  else
    s <- (if (l <=? 0.5)%float then fdiv rangec sumc
          else fdiv rangec (2 - sumc)%float) ;;
    rc <- fdiv (maxc - r)%float rangec ;;
    gc <- fdiv (maxc - g)%float rangec ;;
    bc <- fdiv (maxc - b)%float rangec ;;
    let h := if (r =? maxc)%float then (bc - gc)%float
             else if (g =? maxc)%float then (2 + rc - bc)%float
             else (4 + gc - rc)%float in
    h <- (h6 <- fdiv h 6 ;; fmod_py h6 1) ;;
    Ok (h, l, s).

Definition _v (m1 m2 hue : float) : result float :=
  hue <- fmod_py hue 1 ;;
  if (hue <? ONE_SIXTH)%float then Ok (m1 + (m2 - m1) * hue * 6)%float
  else if (hue <? 0.5)%float then Ok m2
  else if (hue <? TWO_THIRD)%float then Ok (m1 + (m2 - m1) * (TWO_THIRD - hue) * 6)%float
  else Ok m1.

Definition hls_to_rgb (h l s : float) : result (float * float * float) :=
  if (s =? 0)%float then Ok (l, l, l)
  else
    let m2 := if (l <=? 0.5)%float then (l * (1 + s))%float
              else (l + s - l * s)%float in
    let m1 := (2 * l - m2)%float in
    r <- _v m1 m2 (h + ONE_THIRD)%float ;;
    g <- _v m1 m2 h ;;
    b <- _v m1 m2 (h - ONE_THIRD)%float ;;
    Ok (r, g, b).

End colorsys.

(** ** Colour conversions of [color_utils] *)

Definition rgb_to_hsl (r g b : Z) : result (Z * Z * Z) :=
  r <- num_truediv (PInt r) (PFloat 255) ;;
  g <- num_truediv (PInt g) (PFloat 255) ;;
  b <- num_truediv (PInt b) (PFloat 255) ;;
  '(h, l, s) <- colorsys.rgb_to_hls r g b ;;
  h <- py_int (h * 360)%float ;;
  s <- py_int (s * 100)%float ;;
  l <- py_int (l * 100)%float ;;
  Ok (h, s, l).

(** The hue is a [num]: the analogous palette passes a [float]. *)
Definition hsl_to_rgb (h : num) (s l : Z) : result (Z * Z * Z) :=
  h <- num_truediv h (PFloat 360) ;;
  s <- num_truediv (PInt s) (PFloat 100) ;;
  l <- num_truediv (PInt l) (PFloat 100) ;;
  '(r, g, b) <- colorsys.hls_to_rgb h l s ;;
  r <- py_int (r * 255)%float ;;
  g <- py_int (g * 255)%float ;;
  b <- py_int (b * 255)%float ;;
  Ok (r, g, b).

(** ** Colours in either representation *)

Inductive color : Type :=
| Hex (s : string)
| Rgb (r g b : Z).

(** [isinstance(color, str)]. *)
Definition is_str (c : color) : bool :=
  match c with Hex _ => true | Rgb _ _ _ => false end.

(** The [if is_hex: r, g, b = hex_to_rgb(color) else: r, g, b = color]
    prologue shared by the operations. *)
Definition unpack (c : color) : result (Z * Z * Z) :=
  match c with
  | Hex s => hex_to_rgb s
  | Rgb r g b => Ok (r, g, b)
  end.

(** The [if is_hex: rgb_to_hex(...) else: (...)] epilogue. *)
Definition emit (is_hex : bool) (r g b : Z) : result color :=
  if is_hex then (s <- rgb_to_hex r g b ;; Ok (Hex s)) else Ok (Rgb r g b).

Definition lighten_color (c : color) (amount : float) : result color :=
  let is_hex := is_str c in
  '(r, g, b) <- unpack c ;;
  '(h, s, l) <- rgb_to_hsl r g b ;;
  k <- py_int (amount * 100)%float ;;
  let l := Z.min 100 (l + k) in
  '(new_r, new_g, new_b) <- hsl_to_rgb (PInt h) s l ;;
  emit is_hex new_r new_g new_b.

Definition darken_color (c : color) (amount : float) : result color :=
  let is_hex := is_str c in
  '(r, g, b) <- unpack c ;;
  '(h, s, l) <- rgb_to_hsl r g b ;;
  k <- py_int (amount * 100)%float ;;
  let l := Z.max 0 (l - k) in
  '(new_r, new_g, new_b) <- hsl_to_rgb (PInt h) s l ;;
  emit is_hex new_r new_g new_b.

Definition get_complementary_color (c : color) : result color :=
  let is_hex := is_str c in
  '(r, g, b) <- unpack c ;;
  '(h, s, l) <- rgb_to_hsl r g b ;;
  let h := (h + 180) mod 360 in
  '(new_r, new_g, new_b) <- hsl_to_rgb (PInt h) s l ;;
  emit is_hex new_r new_g new_b.

(** ** Palettes *)

Section Palette.

Variables (is_hex : bool) (h s l : Z) (count : Z).

(** One pass of the body of each loop: the colour computed and appended. *)
Definition append_color (new_h : num) (new_s new_l : Z) (palette : list color)
  : result (list color) :=
  '(new_r, new_g, new_b) <- hsl_to_rgb new_h new_s new_l ;;
  c <- emit is_hex new_r new_g new_b ;;
  Ok (palette ++ [c])%list.

Definition analogous_hue (step : num) (i : Z) : result num :=
  x <- num_mul (PInt i) step ;;
  y <- num_add (PInt (h - 30)) x ;;
  num_mod y (PInt 360).

Definition analogous_step : result num :=
  if count >? 1 then (q <- int_truediv 60 (count - 1) ;; Ok (PFloat q))
  else Ok (PInt 0).

Definition analogous_body (step : num) (i : Z) (palette : list color) :=
  new_h <- analogous_hue step i ;;
  append_color new_h s l palette.

(** [max(lo, min(hi, base + delta))] followed by [int(...)]. *)
Definition clamp_int (lo hi : Z) (base : Z) (delta : float) : result Z :=
  x <- num_add (PInt base) (PFloat delta) ;;
  num_int (num_max (PInt lo) (num_min (PInt hi) x)).

Definition monochromatic_body (i : Z) (palette : list color) :=
  factor <- (if count >? 1 then (q <- int_truediv i (count - 1) ;; Ok (PFloat q))
             else Ok (PInt 0)) ;;
  f <- to_float factor ;;
  let delta := ((f - 0.5) * 40)%float in
  new_s <- clamp_int 10 100 s delta ;;
  new_l <- clamp_int 10 90 l delta ;;
  append_color (PInt h) new_s new_l palette.

Definition angles : list Z := [0; 120; 240].

(** [angles[i]] for a non-negative index. *)
Definition angle_at (i : Z) : result Z :=
  match nth_error angles (Z.to_nat i) with
  | Some a => Ok a
  | None => Raise IndexError
  end.

Definition triadic_body (i : Z) (palette : list color) :=
  a <- angle_at i ;;
  append_color (PInt ((h + a) mod 360)) s l palette.

(** The [while len(palette) < count] loop: each pass appends one colour, so
    [count] passes at most are needed; [fuel] bounds the passes. *)
Fixpoint triadic_fill (fuel : nat) (palette : list color) : result (list color) :=
  let n := Z.of_nat (List.length palette) in
  if n <? count then
    match fuel with
    | O => Raise OutOfFuel
    | S fuel' =>
        a <- angle_at (n mod 3) ;;
        k <- float_of_int (n / 3 + 1) ;;
        let factor := (k * 0.2)%float in
        let base_h := (h + a) mod 360 in
        new_l <- clamp_int 10 90 l (factor * 40)%float ;;
        palette' <- append_color (PInt base_h) s new_l palette ;;
        triadic_fill fuel' palette'
    end
  else Ok palette.

Definition palette_of (variation : string) : result (list color) :=
  if String.eqb variation "analogous" then
    step <- analogous_step ;;
    for_each (range count) (analogous_body step) []
  else if String.eqb variation "monochromatic" then
    for_each (range count) monochromatic_body []
  else if String.eqb variation "triadic" then
    palette <- for_each (range (Z.min count 3)) triadic_body [] ;;
    triadic_fill (Z.to_nat count) palette
  else Ok [].

End Palette.

Definition generate_color_palette (base_color : color) (count : Z) (variation : string)
  : result (list color) :=
  let is_hex := is_str base_color in
  '(r, g, b) <- unpack base_color ;;
  '(h, s, l) <- rgb_to_hsl r g b ;;
  palette_of is_hex h s l count variation.

(** ** Darkness *)

Definition luminance (r g b : Z) : result float :=
  fr <- float_of_int r ;;
  fg <- float_of_int g ;;
  fb <- float_of_int b ;;
  Ok (0.299 * fr + 0.587 * fg + 0.114 * fb)%float.

Definition is_dark_color (c : color) (threshold : Z) : result bool :=
  '(r, g, b) <- unpack c ;;
  lum <- luminance r g b ;;
  Ok (float_lt_int lum threshold).

(** The default arguments of the signatures. *)
Definition default_threshold : Z := 128.
Definition default_amount : float := 0.1%float.

(** ** Random colours *)

(** [str.lower] on code points below 256: the letters A to Z, and the
    capital letters of Latin-1, U+00C0 to U+00DE without the multiplication
    sign U+00D7, move up by 32. *)
Definition lower_char (c : ascii) : ascii :=
  if in_range 65 90 c || in_range 192 214 c || in_range 216 222 c
  then ascii_of_nat (nat_of_ascii c + 32) else c.

Fixpoint lower (s : string) : string :=
  match s with
  | EmptyString => EmptyString
  | String c s' => String (lower_char c) (lower s')
  end.

Section Random.

(** The state of the generator of the module [random], and
    [random.randint(a, b)] on it: the number drawn and the next state. *)
Variable rng : Type.
Variable randint : Z -> Z -> rng -> Z * rng.

(** The result is the value returned or the exception raised, with the
    state of the generator after the call. *)
Definition random_color (format_type : string) (gen : rng) : result color * rng :=
  let '(r, gen) := randint 0 255 gen in
  let '(g, gen) := randint 0 255 gen in
  let '(b, gen) := randint 0 255 gen in
  (if String.eqb (lower format_type) "hex" then
     s <- rgb_to_hex r g b ;; Ok (Hex s)
   else if String.eqb (lower format_type) "rgb" then
     Ok (Rgb r g b)
   else if String.eqb (lower format_type) "hsl" then
     '(h, s, l) <- rgb_to_hsl r g b ;; Ok (Rgb h s l)
   else Raise (ValueError ("Unsupported format: " ++ format_type)),
   gen).

End Random.

(** ** Distance *)

Section Distance.

(** [pow] of the C library. *)
Variable c_pow : float -> float -> float.

(** [n ** 0.5] for an [int] that is not negative, as [float_pow] of CPython
    computes it: the integer is converted to a double; 0.0 and 1.0 are
    returned as they are; otherwise [pow] is called, and an infinite result
    raises [OverflowError].  A sum of squares is never negative, so the
    branch of [float_pow] for a negative base is not reached. *)
Definition pow_half (n : Z) : result float :=
  iv <- float_of_int n ;;
  if (iv =? 0)%float then Ok 0%float
  else if (iv =? 1)%float then Ok 1%float
  else
    let ix := c_pow iv 0.5%float in
    if is_infinity ix then Raise OverflowError else Ok ix.

Definition color_distance (color1 color2 : color) : result float :=
  '(r1, g1, b1) <- unpack color1 ;;
  '(r2, g2, b2) <- unpack color2 ;;
  pow_half ((r2 - r1) ^ 2 + (g2 - g1) ^ 2 + (b2 - b1) ^ 2).

End Distance.

(** ** Validity of inputs, and the words of the specification *)

(** "After stripping an optional leading [#]". *)
Definition strip_one_hash (s : string) : string :=
  match s with
  | String "#" r => r
  | _ => s
  end.

(** A hex colour: six hexadecimal digits after an optional [#]. *)
Definition valid_hex (s : string) : Prop :=
  String.length (strip_one_hash s) = 6%nat /\ all_hex (strip_one_hash s) = true.

Definition in_byte (v : Z) : Prop := 0 <= v <= 255.

Definition valid_color (c : color) : Prop :=
  match c with
  | Hex s => valid_hex s
  | Rgb r g b => in_byte r /\ in_byte g /\ in_byte b
  end.

(** The value of the two-digit hexadecimal group at offset [i]. *)
Definition digit_value (c : option ascii) : Z :=
  match c with
  | Some c => match digit16 c with Some d => d | None => 0 end
  | None => 0
  end.

Definition group_value (t : string) (i : nat) : Z :=
  16 * digit_value (String.get i t) + digit_value (String.get (S i) t).

(** The upper-cased, [#]-prefixed form of a hex colour. *)
Definition canonical_hex (s : string) : string :=
  "#" ++ upper (strip_one_hash s).









(** [amount] is a float in [0, 1]. *)
Definition valid_amount (amount : float) : Prop :=
  (0 <=? amount)%float = true /\ (amount <=? 1)%float = true.

(** The number of colours the specification promises. *)
Definition promised_length (variation : string) (count : Z) : Z :=
  if String.eqb variation "triadic" && (count <=? 3) then 3 else count.

(** The [i]-th analogous colour in the words of the specification: the
    conversion back to the representation of the base colour of [hsl_to_rgb]
    at hue [(h - 30 + i * step) mod 360], with [s] and [l] of the base. *)
Definition analogous_colour (base : color) (count i : Z) : result color :=
  '(r, g, b) <- unpack base ;;
  '(h, s, l) <- rgb_to_hsl r g b ;;
  step <- (if count >? 1 then (q <- num_truediv (PInt 60) (PInt (count - 1)) ;; Ok (PFloat q))
           else Ok (PInt 0)) ;;
  x <- num_mul (PInt i) step ;;
  y <- num_add (PInt (h - 30)) x ;;
  hue <- num_mod y (PInt 360) ;;
  '(new_r, new_g, new_b) <- hsl_to_rgb hue s l ;;
  emit (is_str base) new_r new_g new_b.

Definition round_trip (r g b : Z) : result (Z * Z * Z) :=
  '(h, s, l) <- rgb_to_hsl r g b ;;
  hsl_to_rgb (PInt h) s l.

(** Every channel of [y] within [k] of the channel of [x]. *)
Definition within (k : Z) (x y : Z * Z * Z) : Prop :=
  let '(r, g, b) := x in
  let '(r', g', b') := y in
  Z.abs (r' - r) <= k /\ Z.abs (g' - g) <= k /\ Z.abs (b' - b) <= k.

(** * Definitions of the proofs *)

(** ** Tables of the hexadecimal digits *)

Definition hex_chars : list ascii :=
  list_ascii_of_string "0123456789abcdefABCDEF".

Definition pair_ok (a b : ascii) : bool :=
  match int_base16 (String a (String b "")) with
  | Some v =>
      (v =? 16 * digit_value (Some a) + digit_value (Some b))
      && (0 <=? v) && (v <=? 255)
      && String.eqb (format_02X v) (String (upper_char a) (String (upper_char b) ""))
  | None => false
  end.



(** ** Binary64 values as real numbers *)

Abbreviation fexp64 := (SpecFloat.fexp prec emax).
Abbreviation round64 := (binary_round_aux prec emax).

Local Open Scope R_scope.

Definition bpow (e : Z) : R := powerRZ 2 e.

Definition SFmag (x : spec_float) : R :=
  match x with
  | S754_finite _ m e => IZR (Zpos m) * bpow e
  | _ => 0
  end.

(** The real number a finite float stands for; 0 for the others. *)
Definition SF2R (x : spec_float) : R :=
  match x with
  | S754_finite s m e => IZR (cond_Zopp s (Zpos m)) * bpow e
  | _ => 0
  end.

Definition SFfin (x : spec_float) : bool :=
  match x with
  | S754_zero _ | S754_finite _ _ _ => true
  | _ => false
  end.

Definition u64 : R := bpow (-51).
Definition eta64 : R := bpow (-1073).

(** [approx E r]: the float [r] is finite, its magnitude is within the
    rounding error of the exact result [E], and its sign is that of [E]. *)
Definition approx (E : R) (r : spec_float) : Prop :=
  SFfin r = true
  /\ Rabs (SF2R r) <= Rabs E * (1 + u64) + eta64
  /\ (0 <= E -> 0 <= SF2R r)
  /\ (E <= 0 -> SF2R r <= 0).

Definition in_reach (E : R) : Prop := Rabs E * (1 + u64) + eta64 < bpow 972.

Definition cmp_rel (c : option comparison) (a b : R) : Prop :=
  match c with
  | Some Lt => a < b
  | Some Eq => a = b
  | Some Gt => b < a
  | None => False
  end.

Definition one64 : spec_float := S754_finite false 4503599627370496 (-52).

Definition F2R (f : float) : R := SF2R (Prim2SF f).
Definition Ffin (f : float) : Prop := SFfin (Prim2SF f) = true.
Definition Fnan (f : float) : Prop := Prim2SF f = S754_nan.

Definition eps : R := / 1000000000000000.

(** A float in [0, 1], up to the rounding of a few operations. *)
Definition unit_float (c : float) : Prop :=
  Ffin c /\ 0 <= F2R c <= 1 + / 100000.

(** The facts about [l] and [s] that [hls_to_rgb] rests on, as a test on
    floats. *)
Definition sl_ok (fl fs : float) : bool :=
  if (fs =? 0)%float then (0 <=? fl)%float && (fl <=? 1)%float
  else
    let m2 := if (fl <=? 0.5)%float then (fl * (1 + fs))%float
              else (fl + fs - fl * fs)%float in
    let m1 := (2 * fl - m2)%float in
    (0 <=? m1)%float && (m1 <=? 1.0000001)%float
    && (0 <=? m2)%float && (m2 <=? 1.0000001)%float
    && ((m1 <=? m2)%float
        || ((0.5 <=? m1)%float && (m1 <=? m2 + 0.000000001)%float)).

Definition percent (k : Z) : float :=
  match num_truediv (PInt k) (PFloat 100) with
  | Ok c => c
  | Raise _ => nan
  end.

Definition percent_ok (k : Z) : bool :=
  is_ok (num_truediv (PInt k) (PFloat 100)).

Definition percents : list Z := range 101.

Definition chan (k : Z) : float :=
  match num_truediv (PInt k) (PFloat 255) with
  | Ok c => c
  | Raise _ => nan
  end.

Definition chan_ok (k : Z) : bool :=
  is_ok (num_truediv (PInt k) (PFloat 255))
  && (0 <=? chan k)%float && (chan k <=? 1)%float.

Definition byte_values : list Z := range 256.
Definition chans : list float := map chan byte_values.

(** What [rgb_to_hls] needs of the largest and the smallest channel. *)
Definition extremes_ok (maxc minc : float) : bool :=
  if (minc <=? maxc)%float then
    let sumc := (maxc + minc)%float in
    let rangec := (maxc - minc)%float in
    let l := (sumc / 2)%float in
    (0 <=? l)%float && (l <=? 1)%float
    && (if (minc =? maxc)%float then true
        else
          (0.003 <=? rangec)%float && (rangec <=? 1)%float
          && (if (l <=? 0.5)%float
              then negb (sumc =? 0)%float
                   && (0 <=? rangec / sumc)%float
                   && (rangec / sumc <=? 1.0000001)%float
              else negb (2 - sumc =? 0)%float
                   && (0 <=? rangec / (2 - sumc))%float
                   && (rangec / (2 - sumc) <=? 1.0000001)%float))
  else true.

Definition channel (c : float) : Prop :=
  In c chans /\ Ffin c /\ 0 <= F2R c <= 1.

(** A hue as [rgb_to_hls] returns it. *)
Definition hue_float (h : float) : Prop :=
  Ffin h /\ 0 <= F2R h <= 1 + 3 * eps.

(** ** Two-sided error bounds and the weights of the hue *)

(** [tight E r]: the magnitude of [r] is not below that of [E] by more than
    the rounding error. *)
Definition tight (E : R) (r : spec_float) : Prop :=
  Rabs E * (1 - 2 * u64) - 2 * eta64 <= Rabs (SF2R r).

(** The error of one operation on values up to 1000. *)
Definition err : R := / 100000000000.

(** The weight [w] of [m2] in the value [_v] returns at the hue [u] of one
    period: [_v m1 m2 u = (1 - w) * m1 + w * m2]. *)
Definition trap (u w : R) : Prop :=
  (0 <= u <= / 6 /\ w = 6 * u)
  \/ (/ 6 <= u <= / 2 /\ w = 1)
  \/ (/ 2 <= u <= 2 / 3 /\ w = 4 - 6 * u)
  \/ (2 / 3 <= u <= 1 /\ w = 0).

(** The hue of an RGB triple as [rgb_to_hls] computes it, before it is
    reduced to one period, in real numbers. *)
Definition hue_sixth (r g b : Z) : R :=
  let M := Z.max r (Z.max g b) in
  let m := Z.min r (Z.min g b) in
  let d := IZR (M - m) in
  if (r =? M)%Z then IZR (g - b) / d / 6
  else if (g =? M)%Z then (2 + IZR (b - r) / d) / 6
  else (4 + IZR (r - g) / d) / 6.

(** The channel [c] lies between [m] and [M] at the weight of the hue
    [t + off]. *)
Definition weight_of (t off : R) (c m M : Z) : Prop :=
  exists (k : Z) (u w : R),
    trap u w /\ u = t + off - IZR k /\ IZR c = (1 - w) * IZR m + w * IZR M.

(** [l] and [s] as [rgb_to_hls] computes them from the largest and the
    smallest channel, when these differ. *)
Definition lightness (maxc minc : float) : float := ((maxc + minc) / 2)%float.

Definition saturation (maxc minc : float) : float :=
  if (lightness maxc minc <=? 0.5)%float
  then ((maxc - minc) / (maxc + minc))%float
  else ((maxc - minc) / (2 - (maxc + minc)))%float.

(** The error allowed on a hue. *)
Definition tau : R := / 10000000.

(** [V] is the value of [_v] at the hue [x], between [mu1] and [mu2], up
    to the rounding errors: [e] on the hue, [100 * err] on the value. *)
Definition v_near (e mu1 mu2 : R) (V : float) (x : R) : Prop :=
  exists (U w : R) (k : Z),
    trap U w
    /\ Rabs (U - (x - IZR k)) <= e
    /\ Rabs (F2R V - ((1 - w) * mu1 + w * mu2)) <= 100 * err.

(** [m1] and [m2] as [hls_to_rgb] computes them; both are [l] when the
    saturation is zero. *)
Definition bounds_of (l s : float) : float * float :=
  if (s =? 0)%float then (l, l)
  else
    let m2 := if (l <=? 0.5)%float then (l * (1 + s))%float
              else (l + s - l * s)%float in
    ((2 * l - m2)%float, m2).

(** The channel [c] that [hsl_to_rgb] returns at the hue [x]. *)
Definition chan_near (mu1 mu2 : R) (c : Z) (x : R) : Prop :=
  exists (U w : R) (k : Z),
    trap U w
    /\ Rabs (U - (x - IZR k)) <= 10 * err
    /\ - 1 - 30000 * err <= IZR c - 255 * ((1 - w) * mu1 + w * mu2) <= 30000 * err.

(** The float of a small integer. *)
Definition fint (k : Z) : float :=
  match float_of_int k with
  | Ok f => f
  | Raise _ => nan
  end.

(** The first [k] whose successor is above [x], along the floats of the
    integers from [k]. *)
Fixpoint floor_in (x : float) (fs : list float) (k : Z) : Z :=
  match fs with
  | _ :: ((f1 :: _) as tl) => if (x <? f1)%float then k else floor_in x tl (k + 1)
  | _ => k
  end.

Definition at_index (fs : list float) (k : Z) : float := nth (Z.to_nat k) fs nan.

(** What the round trip needs of the largest channel [M] and the smallest
    channel [m]: with the saturation and the lightness as [rgb_to_hsl]
    truncates them, [m1] and [m2] of [hls_to_rgb] are close enough to
    [m / 255] and [M / 255].  [fs] holds the floats of the integers and [ps]
    the floats of the percentages. *)
Definition close_ok (fs ps : list float) (P p : Z * float * float) : bool :=
  let '(M, cM, fM) := P in
  let '(m, cm, fm) := p in
  if (m <? M)%Z then
    let xs := (saturation cM cm * 100)%float in
    let xl := (lightness cM cm * 100)%float in
    let ks := floor_in xs fs 0 in
    let kl := floor_in xl fs 0 in
    let m1 := fst (bounds_of (at_index ps kl) (at_index ps ks)) in
    let m2 := snd (bounds_of (at_index ps kl) (at_index ps ks)) in
    let ht := ((fM - fm) / 60)%float in
    let b1 := (m1 * 255 - fm)%float in
    let b2 := (m2 * 255 - fM)%float in
    (ks <=? 100)%Z && (kl <=? 100)%Z
    && (at_index fs ks <=? xs)%float && (xs <? at_index fs (ks + 1))%float
    && (at_index fs kl <=? xl)%float && (xl <? at_index fs (kl + 1))%float
    && (ht <=? b1 + 9.9)%float && (ht <=? b2 + 9.9)%float
    && (b1 + ht <=? 10.9)%float && (b2 + ht <=? 10.9)%float
  else true.

Definition pairs_ok (fs ps : list float) (pts : list (Z * float * float)) : bool :=
  forallb (fun P => forallb (close_ok fs ps P) pts) pts.

Definition fints : list float := map fint byte_values.
Definition percent_floats : list float := map percent percents.
Definition points : list (Z * float * float) :=
  map (fun k => (k, chan k, fint k)) byte_values.

Local Close Scope R_scope.

(** ** Loops that append one colour per pass *)

(** A pass that appends a colour depending on the index alone. *)
Definition appends {A : Type} (body : A -> list color -> result (list color))
  (x : A) (c : color) : Prop :=
  forall palette, body x palette = Ok (palette ++ [c])%list.

(** The tail of each pass: the colour of [(new_h, new_s, new_l)] in the
    representation of the base colour. *)
Definition colour_of (is_hex : bool) (new_h : num) (new_s new_l : Z) : result color :=
  '(new_r, new_g, new_b) <- hsl_to_rgb new_h new_s new_l ;;
  emit is_hex new_r new_g new_b.

(** A hue the loops can produce: an [int] of moderate size, or any [float]. *)
Definition hue_ok (new_h : num) : Prop :=
  match new_h with
  | PInt z => Z.abs z < 2 ^ 53
  | PFloat _ => True
  end.

(** The round trip of a grey stays grey, at most 3 below. *)
Definition grey_close (v : Z) : bool :=
  match round_trip v v v with
  | Ok (r', g', b') => (r' =? g') && (g' =? b') && (v - 3 <=? r') && (r' <=? v)
  | Raise _ => false
  end.

(** ** Further tables, and the colours of a triadic palette *)

(** What [format(k, "02X")] is for a byte: two upper-case hexadecimal
    digits that [int(., 16)] reads back as [k]. *)
Definition byte_hex_ok (k : Z) : bool :=
  match format_02X k with
  | String a (String b "") =>
      is_hex_digit a && is_hex_digit b
      && Ascii.eqb (upper_char a) a && Ascii.eqb (upper_char b) b
      && match int_base16 (String a (String b "")) with
         | Some v => v =? k
         | None => false
         end
  | _ => false
  end.

(** The first channel out of [0, 255], in the order red, green, blue, with
    its name. *)
Definition first_bad (r g b : Z) : option (Z * string) :=
  if negb ((0 <=? r) && (r <=? 255)) then Some (r, "red")
  else if negb ((0 <=? g) && (g <=? 255)) then Some (g, "green")
  else if negb ((0 <=? b) && (b <=? 255)) then Some (b, "blue")
  else None.

(** The decimal text of an integer. *)
Definition decimal (v : Z) : string := NilZero.string_of_int (Z.to_int v).

(** [rgb_to_hsl] on a grey: hue and saturation are zero. *)
Definition grey_hsl_ok (v : Z) : bool :=
  match rgb_to_hsl v v v with
  | Ok (h, s, l) => (h =? 0) && (s =? 0) && (0 <=? l) && (l <=? 100)
  | Raise _ => false
  end.

(** At lightness zero [m1] and [m2] of [hls_to_rgb] are zero, for every
    saturation. *)
Definition black_bounds (s : Z) : bool :=
  let '(m1, m2) := bounds_of (percent 0) (percent s) in
  match Prim2SF m1, Prim2SF m2 with
  | S754_zero _, S754_zero _ => true
  | _, _ => false
  end.

(** The colour at index [i] of a triadic palette, as the two loops compute
    it: the [for] loop below index 3, the [while] loop from index 3 on. *)
Definition triadic_colour (is_hex : bool) (h s l i : Z) : result color :=
  a <- angle_at (i mod 3) ;;
  new_l <- (if i <? 3 then Ok l
            else k <- float_of_int (i / 3 + 1) ;;
                 clamp_int 10 90 l (k * 0.2 * 40)%float) ;;
  colour_of is_hex (PInt ((h + a) mod 360)) s new_l.

Definition triadic_colour_of (base : color) (i : Z) : result color :=
  '(r, g, b) <- unpack base ;;
  '(h, s, l) <- rgb_to_hsl r g b ;;
  triadic_colour (is_str base) h s l i.

(** A valid colour in the representation of the base colour. *)
Definition good (is_hex : bool) (c : color) : Prop :=
  valid_color c /\ is_str c = is_hex.

(** What the loops keep true of the palette: the colour at every index [j]
    is [triadic_colour] at [j]. *)
Definition triadic_inv (is_hex : bool) (h s l : Z) (palette : list color) : Prop :=
  forall j c, nth_error palette j = Some c ->
    triadic_colour is_hex h s l (Z.of_nat j) = Ok c /\ good is_hex c.

(** A generator for the example: a counter, the draw being the counter
    reduced to the interval. *)
Definition counter_randint (a b : Z) (g : Z) : Z * Z :=
  (a + (37 * g) mod (b - a + 1), g + 1).

(** Changing the case of a hexadecimal digit gives a hexadecimal digit of
    the same value. *)
Definition case_ok (a : ascii) : bool :=
  match digit16 a, digit16 (upper_char a), digit16 (lower_char a) with
  | Some d, Some u, Some l => (u =? d) && (l =? d)
  | _, _, _ => false
  end.

(** * Properties of the hexadecimal conversions *)

Section HexFacts.

Lemma is_hex_digit_In (c : ascii) : is_hex_digit c = true -> In c hex_chars.
Proof.
  destruct c as [[] [] [] [] [] [] [] []]; intro H;
    try discriminate H; vm_compute; tauto.
Qed.

Lemma pair_ok_all :
  forallb (fun a => forallb (pair_ok a) hex_chars) hex_chars = true.
Proof. vm_compute. reflexivity. Qed.

Lemma pair_ok_hex (a b : ascii) :
  is_hex_digit a = true -> is_hex_digit b = true -> pair_ok a b = true.
Proof.
  intros Ha Hb.
  pose proof pair_ok_all as H.
  rewrite forallb_forall in H.
  specialize (H a (is_hex_digit_In a Ha)).
  rewrite forallb_forall in H.
  exact (H b (is_hex_digit_In b Hb)).
Qed.

Lemma pair_parse (a b : ascii) :
  is_hex_digit a = true -> is_hex_digit b = true ->
  int_base16 (String a (String b "")) =
    Some (16 * digit_value (Some a) + digit_value (Some b)).
Proof.
  intros Ha Hb. pose proof (pair_ok_hex a b Ha Hb) as H.
  unfold pair_ok in H.
  destruct (int_base16 (String a (String b ""))) as [v|]; [|discriminate].
  rewrite !andb_true_iff in H. destruct H as [[[H _] _] _].
  apply Z.eqb_eq in H. now subst.
Qed.

Lemma pair_format (a b : ascii) :
  is_hex_digit a = true -> is_hex_digit b = true ->
  let v := 16 * digit_value (Some a) + digit_value (Some b) in
  0 <= v <= 255 /\
  format_02X v = String (upper_char a) (String (upper_char b) "").
Proof.
  intros Ha Hb v. pose proof (pair_ok_hex a b Ha Hb) as H.
  unfold pair_ok in H. rewrite (pair_parse a b Ha Hb) in H. fold v in H.
  rewrite !andb_true_iff in H. destruct H as [[[_ H0] H1] H2].
  apply Z.leb_le in H0, H1. apply String.eqb_eq in H2. auto.
Qed.

Lemma lstrip_hash_hex (c : ascii) (s : string) :
  is_hex_digit c = true -> lstrip "#" (String c s) = String c s.
Proof.
  intro H. apply is_hex_digit_In in H. simpl.
  repeat (destruct H as [ <- | H ]; [reflexivity|]). destruct H.
Qed.

Lemma lstrip_replicate (n : nat) (s : string) :
  lstrip "#" (replicate n "#" ++ s) = lstrip "#" s.
Proof. induction n as [|n IH]; simpl; auto. Qed.

(** A string of six hexadecimal digits, taken apart. *)
Lemma six_hex_inv (t : string) :
  String.length t = 6%nat -> all_hex t = true ->
  exists a b c d e f,
    t = String a (String b (String c (String d (String e (String f "")))))
    /\ is_hex_digit a = true /\ is_hex_digit b = true /\ is_hex_digit c = true
    /\ is_hex_digit d = true /\ is_hex_digit e = true /\ is_hex_digit f = true.
Proof.
  intros Hlen Hall.
  destruct t as [|a [|b [|c [|d [|e [|f [|g t]]]]]]]; try discriminate Hlen.
  simpl in Hall. rewrite !andb_true_iff in Hall.
  destruct Hall as (Ha & Hb & Hc & Hd & He & Hf & _).
  exists a, b, c, d, e, f. repeat split; assumption.
Qed.

Lemma lstrip_valid (s : string) :
  valid_hex s -> lstrip "#" s = strip_one_hash s.
Proof.
  intros [Hlen Hall].
  destruct (six_hex_inv _ Hlen Hall) as (a & b & c & d & e & f & Ht & Ha & _).
  destruct s as [|x s']; [discriminate Hlen|].
  assert (Hx : strip_one_hash (String x s') = String x s' \/
               (x = "#"%char /\ strip_one_hash (String x s') = s')).
  { unfold strip_one_hash.
    destruct x as [[] [] [] [] [] [] [] []]; auto. }
  destruct Hx as [ Hx | [ -> Hx ] ]; rewrite Hx in Ht.
  - rewrite Hx, Ht. now apply lstrip_hash_hex.
  - rewrite Hx. simpl. rewrite Ht. now apply lstrip_hash_hex.
Qed.

(** [hex_to_rgb] on six hexadecimal digits behind any number of [#]. *)
Lemma hex_to_rgb_six (s t : string) :
  lstrip "#" s = t -> String.length t = 6%nat -> all_hex t = true ->
  hex_to_rgb s = Ok (group_value t 0, group_value t 2, group_value t 4).
Proof.
  intros Hs Hlen Hall.
  destruct (six_hex_inv _ Hlen Hall)
    as (a & b & c & d & e & f & Ht & Ha & Hb & Hc & Hd & He & Hf).
  unfold hex_to_rgb. rewrite Hs, Ht. cbn [String.length Nat.eqb negb substring].
  rewrite (pair_parse a b Ha Hb), (pair_parse c d Hc Hd), (pair_parse e f He Hf).
  reflexivity.
Qed.

Lemma group_value_byte (t : string) (i : nat) :
  String.length t = 6%nat -> all_hex t = true -> (i = 0 \/ i = 2 \/ i = 4)%nat ->
  in_byte (group_value t i).
Proof.
  intros Hlen Hall Hi.
  destruct (six_hex_inv _ Hlen Hall)
    as (a & b & c & d & e & f & Ht & Ha & Hb & Hc & Hd & He & Hf).
  subst t. unfold in_byte, group_value.
  destruct Hi as [ -> | [ -> | -> ] ]; cbn [String.get].
  - apply (pair_format a b Ha Hb).
  - apply (pair_format c d Hc Hd).
  - apply (pair_format e f He Hf).
Qed.

Lemma valid_hex_unpack (s : string) :
  valid_hex s ->
  exists r g b, hex_to_rgb s = Ok (r, g, b) /\ in_byte r /\ in_byte g /\ in_byte b.
Proof.
  intros Hv. pose proof (lstrip_valid s Hv) as Hl. destruct Hv as [Hlen Hall].
  eexists _, _, _. split; [exact (hex_to_rgb_six s _ Hl Hlen Hall)|].
  repeat split; apply group_value_byte; auto.
Qed.








End HexFacts.

(** C9. [hex_to_rgb] strips every leading [#]: with any positive number of
    them in front of [s] the result, value or error, is that of [s]; in
    particular ["##FF0000"] is accepted and parses to (255, 0, 0). *)
Theorem hex_to_rgb_strips_every_hash :
  (forall (n : nat) (s : string),
      hex_to_rgb (replicate (S n) "#" ++ s) = hex_to_rgb s)
  /\ hex_to_rgb "##FF0000" = Ok (255, 0, 0).
Proof.
  split; [|reflexivity].
  intros n s. unfold hex_to_rgb.
  now rewrite (lstrip_replicate (S n) s).
Qed.



(** C5. For a string that is six hexadecimal digits after an optional
    leading [#], [rgb_to_hex] of the triple returned by [hex_to_rgb] is the
    string upper-cased and prefixed with [#]. *)
Theorem hex_round_trip (s : string) :
  valid_hex s ->
  ('(r, g, b) <- hex_to_rgb s ;; rgb_to_hex r g b) = Ok (canonical_hex s).
Proof.
  intros Hv. pose proof (lstrip_valid s Hv) as Hl. destruct Hv as [Hlen Hall].
  rewrite (hex_to_rgb_six s _ Hl Hlen Hall). cbn [bind].
  unfold canonical_hex.
  destruct (six_hex_inv _ Hlen Hall)
    as (a & b & c & d & e & f & Ht & Ha & Hb & Hc & Hd & He & Hf).
  rewrite Ht. unfold group_value. cbn [String.get].
  destruct (pair_format a b Ha Hb) as [[A1 A2] A3].
  destruct (pair_format c d Hc Hd) as [[B1 B2] B3].
  destruct (pair_format e f He Hf) as [[C1 C2] C3].
  unfold rgb_to_hex, check_channel.
  repeat match goal with
         | H : 0 <= ?v |- _ => apply Z.leb_le in H; rewrite H; clear H
         | H : ?v <= 255 |- _ => apply Z.leb_le in H; rewrite H; clear H
         end.
  cbn [andb bind]. rewrite A3, B3, C3. reflexivity.
Qed.

Lemma hex_round_trip_witness :
  valid_hex "#ff00aa" /\
  ('(r, g, b) <- hex_to_rgb "#ff00aa" ;; rgb_to_hex r g b) = Ok "#FF00AA".
Proof.
  split; [split; reflexivity|].
  apply (hex_round_trip "#ff00aa"). split; reflexivity.
Defined.

(** * Rounding to binary64: the integer side *)

Lemma fexp64_eq (x : Z) : fexp64 x = Z.max (x - 53) (-1074).
Proof. reflexivity. Qed.

Lemma digits2_pos_bounds (p : positive) :
  2 ^ (Zpos (digits2_pos p) - 1) <= Zpos p < 2 ^ Zpos (digits2_pos p).
Proof.
  induction p as [p IH|p IH|]; cbn [digits2_pos].
  - rewrite Pos2Z.inj_succ, (Pos2Z.inj_xI p).
    replace (Z.succ (Zpos (digits2_pos p)) - 1) with (Z.succ (Zpos (digits2_pos p) - 1)) by lia.
    rewrite !Z.pow_succ_r by lia.
    set (a := 2 ^ (Zpos (digits2_pos p) - 1)) in *.
    set (b := 2 ^ Zpos (digits2_pos p)) in *. clearbody a b. lia.
  - rewrite Pos2Z.inj_succ, (Pos2Z.inj_xO p).
    replace (Z.succ (Zpos (digits2_pos p)) - 1) with (Z.succ (Zpos (digits2_pos p) - 1)) by lia.
    rewrite !Z.pow_succ_r by lia.
    set (a := 2 ^ (Zpos (digits2_pos p) - 1)) in *.
    set (b := 2 ^ Zpos (digits2_pos p)) in *. clearbody a b. lia.
  - cbn. lia.
Qed.

Lemma Zdigits2_bounds (m : Z) :
  0 < m -> 2 ^ (Zdigits2 m - 1) <= m < 2 ^ Zdigits2 m.
Proof. destruct m as [|p|p]; try lia. intros _. apply digits2_pos_bounds. Qed.

Lemma Zdigits2_nonneg (m : Z) : 0 <= Zdigits2 m.
Proof. destruct m; cbn; lia. Qed.

Lemma Zdigits2_unique (m d : Z) :
  0 < m -> 2 ^ (d - 1) <= m < 2 ^ d -> Zdigits2 m = d.
Proof.
  intros Hm [Hlo Hhi]. destruct (Zdigits2_bounds m Hm) as [Glo Ghi].
  pose proof (Zdigits2_nonneg m) as Hn.
  assert (Hd : 0 <= d).
  { destruct (Z_lt_le_dec d 0) as [Hneg|]; [|assumption].
    rewrite (Z.pow_neg_r 2 d Hneg) in Hhi. lia. }
  destruct (Z_lt_le_dec (Zdigits2 m) d) as [H1|H1].
  - assert (2 ^ Zdigits2 m <= 2 ^ (d - 1)) by (apply Z.pow_le_mono_r; lia). lia.
  - destruct (Z_lt_le_dec d (Zdigits2 m)) as [H2|H2]; [|lia].
    assert (2 ^ d <= 2 ^ (Zdigits2 m - 1)) by (apply Z.pow_le_mono_r; lia). lia.
Qed.

Lemma Zdigits2_shift (m k : Z) :
  0 < m -> 0 <= k -> Zdigits2 (m * 2 ^ k) = Zdigits2 m + k.
Proof.
  intros Hm Hk. destruct (Zdigits2_bounds m Hm) as [Glo Ghi].
  pose proof (Zdigits2_nonneg m) as Hn.
  assert (Hd : 1 <= Zdigits2 m) by (destruct m; cbn in *; lia).
  assert (Hp : 0 < 2 ^ k) by (apply Z.pow_pos_nonneg; lia).
  apply Zdigits2_unique; [nia|].
  replace (Zdigits2 m + k - 1) with ((Zdigits2 m - 1) + k) by lia.
  rewrite !Z.pow_add_r by lia. nia.
Qed.

Lemma shr_1_m (mrs : shr_record) :
  0 <= shr_m mrs -> shr_m (shr_1 mrs) = shr_m mrs / 2.
Proof.
  destruct mrs as [m r s]. cbn [shr_m]. intro Hm.
  rewrite <- Z.div2_div.
  destruct m as [|[p|p|]|p]; try reflexivity; lia.
Qed.

Lemma iter_pos_shr_m (p : positive) (mrs : shr_record) :
  0 <= shr_m mrs ->
  shr_m (SpecFloat.iter_pos shr_1 p mrs) = shr_m mrs / 2 ^ Zpos p.
Proof.
  revert mrs. induction p as [p IH|p IH|]; intros mrs Hm; cbn [SpecFloat.iter_pos].
  - assert (H1 : 0 <= shr_m (shr_1 mrs)).
    { rewrite shr_1_m by assumption. apply Z.div_pos; lia. }
    assert (H2 : 0 <= shr_m (SpecFloat.iter_pos shr_1 p (shr_1 mrs))).
    { rewrite IH by assumption. apply Z.div_pos; [assumption|]. apply Z.pow_pos_nonneg; lia. }
    rewrite IH, IH, shr_1_m by assumption.
    assert (Hp : 0 < 2 ^ Zpos p) by (apply Z.pow_pos_nonneg; lia).
    rewrite !Z.div_div by lia.
    f_equal. rewrite (Pos2Z.inj_xI p).
    replace (2 * Zpos p + 1) with (1 + Zpos p + Zpos p) by lia.
    rewrite !Z.pow_add_r by lia. lia.
  - assert (H2 : 0 <= shr_m (SpecFloat.iter_pos shr_1 p mrs)).
    { rewrite IH by assumption. apply Z.div_pos; [assumption|]. apply Z.pow_pos_nonneg; lia. }
    rewrite IH, IH by assumption.
    assert (Hp : 0 < 2 ^ Zpos p) by (apply Z.pow_pos_nonneg; lia).
    rewrite !Z.div_div by lia.
    f_equal. rewrite (Pos2Z.inj_xO p).
    replace (2 * Zpos p) with (Zpos p + Zpos p) by lia.
    rewrite !Z.pow_add_r by lia. lia.
  - rewrite shr_1_m by assumption. reflexivity.
Qed.

Lemma shr_record_of_loc_m (m : Z) (l : location) :
  shr_m (shr_record_of_loc m l) = m.
Proof. destruct l as [|[]]; reflexivity. Qed.

Lemma shr_fexp_spec (m e : Z) (l : location) :
  0 <= m ->
  let '(mrs, e') := shr_fexp prec emax m e l in
  e' = Z.max e (fexp64 (Zdigits2 m + e))
  /\ shr_m mrs = m / 2 ^ (e' - e)
  /\ (e' = e -> mrs = shr_record_of_loc m l).
Proof.
  intro Hm. unfold shr_fexp, shr.
  destruct (fexp64 (Zdigits2 m + e) - e) as [|p|p] eqn:E.
  - split; [lia|]. split; [|reflexivity].
    rewrite Z.sub_diag, Z.pow_0_r, Z.div_1_r. apply shr_record_of_loc_m.
  - split; [lia|]. split; [|lia].
    rewrite iter_pos_shr_m by (rewrite shr_record_of_loc_m; assumption).
    rewrite shr_record_of_loc_m. f_equal. f_equal. lia.
  - split; [lia|]. split; [|reflexivity].
    rewrite Z.sub_diag, Z.pow_0_r, Z.div_1_r. apply shr_record_of_loc_m.
Qed.

Lemma round_nearest_even_bounds (m : Z) (l : location) :
  m <= round_nearest_even m l <= m + 1.
Proof. destruct l as [|[]]; cbn; try destruct (Z.even m); lia. Qed.

(** The shape of a rounded result: two right shifts around the choice of
    the neighbour. *)
Lemma round64_spec (s : bool) (m e : Z) (l : location) :
  0 <= m ->
  exists m1 m2 m3 e1 e2,
    e1 = Z.max e (fexp64 (Zdigits2 m + e))
    /\ m1 = m / 2 ^ (e1 - e)
    /\ m1 <= m2 <= m1 + 1
    /\ (l = loc_Exact -> e1 = e -> m2 = m)
    /\ e2 = Z.max e1 (fexp64 (Zdigits2 m2 + e1))
    /\ m3 = m2 / 2 ^ (e2 - e1)
    /\ round64 s m e l =
         match m3 with
         | Z0 => S754_zero s
         | Zpos p => if e2 <=? emax - prec then S754_finite s p e2 else S754_infinity s
         | Zneg _ => S754_nan
         end.
Proof.
  intro Hm. unfold binary_round_aux.
  pose proof (shr_fexp_spec m e l Hm) as H1.
  destruct (shr_fexp prec emax m e l) as [mrs1 e1].
  destruct H1 as (He1 & Hm1 & Hex1).
  set (m2 := round_nearest_even (shr_m mrs1) (loc_of_shr_record mrs1)).
  assert (Hm1pos : 0 <= shr_m mrs1).
  { rewrite Hm1. apply Z.div_pos; [assumption|]. apply Z.pow_pos_nonneg; lia. }
  assert (Hm2 : shr_m mrs1 <= m2 <= shr_m mrs1 + 1) by apply round_nearest_even_bounds.
  pose proof (shr_fexp_spec m2 e1 loc_Exact ltac:(lia)) as H2.
  destruct (shr_fexp prec emax m2 e1 loc_Exact) as [mrs2 e2].
  destruct H2 as (He2 & Hm3 & _).
  exists (shr_m mrs1), m2, (shr_m mrs2), e1, e2.
  repeat split; try assumption; try lia.
  intros -> Hee. subst m2. rewrite (Hex1 Hee). reflexivity.
Qed.

Local Open Scope R_scope.

(** * Rounding to binary64: the real side *)

Lemma bpow_gt_0 (e : Z) : 0 < bpow e.
Proof. apply powerRZ_lt. lra. Qed.

Lemma bpow_add (a b : Z) : bpow (a + b) = bpow a * bpow b.
Proof. apply powerRZ_add. lra. Qed.

Lemma bpow_IZR (n : Z) : (0 <= n)%Z -> bpow n = IZR (2 ^ n).
Proof.
  intro Hn. unfold bpow.
  rewrite <- (Z2Nat.id n Hn) at 1.
  rewrite <- pow_powerRZ, pow_IZR, Z2Nat.id by assumption. reflexivity.
Qed.

Lemma bpow_ge_1 (n : Z) : (0 <= n)%Z -> 1 <= bpow n.
Proof.
  intro Hn. rewrite bpow_IZR by assumption. apply IZR_le.
  pose proof (Z.pow_pos_nonneg 2 n ltac:(lia) Hn). lia.
Qed.

Lemma bpow_le (a b : Z) : (a <= b)%Z -> bpow a <= bpow b.
Proof.
  intro H. replace b with (a + (b - a))%Z by lia. rewrite bpow_add.
  pose proof (bpow_gt_0 a). pose proof (bpow_ge_1 (b - a) ltac:(lia)). nra.
Qed.

Lemma bpow_1 : bpow 1 = 2.
Proof. unfold bpow. simpl. lra. Qed.

Lemma bpow_lt (a b : Z) : (a < b)%Z -> bpow a < bpow b.
Proof.
  intro H. replace b with (a + 1 + (b - a - 1))%Z by lia. rewrite !bpow_add.
  pose proof (bpow_gt_0 a). pose proof (bpow_ge_1 (b - a - 1) ltac:(lia)).
  rewrite bpow_1. nra.
Qed.

Lemma bpow_0 : bpow 0 = 1.
Proof. reflexivity. Qed.

Lemma bpow_fexp64 (x : Z) : bpow (fexp64 x) <= bpow (x - 53) + bpow (-1074).
Proof.
  rewrite fexp64_eq.
  pose proof (bpow_gt_0 (x - 53)). pose proof (bpow_gt_0 (-1074)).
  destruct (Z.max_spec (x - 53) (-1074)) as [[_ ->]|[_ ->]]; lra.
Qed.

(** A floor by a power of two never exceeds the number it came from. *)
Lemma floor_scale (a e e' : Z) :
  (0 <= a)%Z -> (e <= e')%Z -> IZR (a / 2 ^ (e' - e)) * bpow e' <= IZR a * bpow e.
Proof.
  intros Ha He. replace e' with (e + (e' - e))%Z at 2 by lia.
  rewrite bpow_add, (bpow_IZR (e' - e)) by lia.
  assert (Hp : (0 < 2 ^ (e' - e))%Z) by (apply Z.pow_pos_nonneg; lia).
  pose proof (Z.mul_div_le a _ Hp) as H.
  apply IZR_le in H. rewrite mult_IZR in H.
  pose proof (bpow_gt_0 e). nra.
Qed.

Lemma u64_pos : 0 < u64. Proof. apply bpow_gt_0. Qed.
Lemma eta64_pos : 0 < eta64. Proof. apply bpow_gt_0. Qed.

Lemma SFmag_nonneg (x : spec_float) : 0 <= SFmag x.
Proof.
  destruct x as [| | |s m e]; cbn; try lra.
  pose proof (bpow_gt_0 e). assert (0 < IZR (Zpos m)) by (apply IZR_lt; lia). nra.
Qed.

Lemma SF2R_abs (x : spec_float) : Rabs (SF2R x) = SFmag x.
Proof.
  destruct x as [| | |s m e]; cbn [SF2R SFmag]; try apply Rabs_R0.
  pose proof (bpow_gt_0 e). assert (0 < IZR (Zpos m)) by (apply IZR_lt; lia).
  destruct s; cbn [cond_Zopp].
  - rewrite opp_IZR. rewrite Rabs_left; nra.
  - rewrite Rabs_right; nra.
Qed.

(** The bound on the magnitude of a rounded result. *)
Lemma round64_upper (s : bool) (m e : Z) (l : location) :
  (0 <= m)%Z ->
  exists m3 e2,
    (0 <= m3)%Z
    /\ IZR m3 * bpow e2 <=
         IZR m * bpow e * (1 + bpow (-52)) + bpow (-1074)
         + match l with loc_Exact => 0 | _ => bpow e end
    /\ round64 s m e l =
         match m3 with
         | Z0 => S754_zero s
         | Zpos p => if (e2 <=? emax - prec)%Z then S754_finite s p e2 else S754_infinity s
         | Zneg _ => S754_nan
         end.
Proof.
  intro Hm.
  destruct (round64_spec s m e l Hm) as (m1 & m2 & m3 & e1 & e2 & He1 & Hm1 & Hm2 & Hex & He2 & Hm3 & Hr).
  assert (Hm1pos : (0 <= m1)%Z).
  { subst m1. apply Z.div_pos; [assumption|]. apply Z.pow_pos_nonneg; lia. }
  assert (Hm3pos : (0 <= m3)%Z).
  { subst m3. apply Z.div_pos; [lia|]. apply Z.pow_pos_nonneg; lia. }
  exists m3, e2. split; [assumption|]. split; [|assumption].
  assert (HA : IZR m3 * bpow e2 <= IZR m2 * bpow e1).
  { subst m3. apply floor_scale; lia. }
  assert (HB : IZR m2 <= IZR m1 + 1).
  { rewrite <- plus_IZR. apply IZR_le. lia. }
  assert (HM : 0 <= IZR m) by (apply IZR_le; assumption).
  pose proof (bpow_gt_0 e) as Pe. pose proof (bpow_gt_0 e1) as Pe1.
  pose proof (bpow_gt_0 (-52)) as P52. pose proof (bpow_gt_0 (-1074)) as P1074.
  assert (HL : 0 <= match l with loc_Exact => 0 | _ => bpow e end).
  { destruct l; lra. }
  assert (HX : 0 <= IZR m * bpow e) by nra.
  set (X := IZR m * bpow e) in *.
  assert (HX52 : 0 <= X * bpow (-52)) by nra.
  destruct (Z.eq_dec e1 e) as [Ee|Ne].
  - (* no first shift *)
    assert (Em1 : m1 = m).
    { subst m1. rewrite Ee, Z.sub_diag, Z.pow_0_r, Z.div_1_r. reflexivity. }
    rewrite Ee in HA. rewrite Em1 in HB.
    destruct l as [|c].
    + rewrite (Hex eq_refl Ee) in HA. fold X in HA. lra.
    + assert (IZR m2 * bpow e <= X + bpow e) by (unfold X; nra). lra.
  - (* a first shift to the exponent of the format *)
    assert (Ef : e1 = fexp64 (Zdigits2 m + e)) by lia.
    assert (HC : IZR m1 * bpow e1 <= X).
    { subst m1. apply floor_scale; lia. }
    assert (HD : bpow e1 <= X * bpow (-52) + bpow (-1074)).
    { destruct (Z.eq_dec m 0) as [Em|Nm].
      - assert (E1 : e1 = (-1074)%Z).
        { rewrite Em in Ef. cbn [Zdigits2] in Ef. rewrite fexp64_eq in Ef, He1. lia. }
        rewrite E1. lra.
      - rewrite Ef. eapply Rle_trans; [apply bpow_fexp64|].
        destruct (Zdigits2_bounds m ltac:(lia)) as [Hlo _].
        assert (Hd : (1 <= Zdigits2 m)%Z).
        { destruct m; cbn in *; lia. }
        replace (Zdigits2 m + e - 53)%Z with ((Zdigits2 m - 1) + e + (-52))%Z by lia.
        rewrite !bpow_add. rewrite (bpow_IZR (Zdigits2 m - 1)) by lia.
        apply IZR_le in Hlo. unfold X.
        apply Rplus_le_compat_r. rewrite !Rmult_assoc.
        apply Rmult_le_compat_r; [nra|exact Hlo]. }
    assert (IZR m2 * bpow e1 <= X + bpow e1) by nra.
    lra.
Qed.

(** * The four operations, within a relative error *)

Lemma u64_eq : u64 = 2 * bpow (-52).
Proof.
  unfold u64. replace (-51)%Z with (1 + -52)%Z by lia. now rewrite bpow_add, bpow_1.
Qed.

Lemma eta64_eq : eta64 = 2 * bpow (-1074).
Proof.
  unfold eta64. replace (-1073)%Z with (1 + -1074)%Z by lia. now rewrite bpow_add, bpow_1.
Qed.

Lemma approx_self (x : spec_float) : SFfin x = true -> approx (SF2R x) x.
Proof.
  intro Hx. split; [assumption|]. split; [|tauto].
  pose proof (Rabs_pos (SF2R x)). pose proof u64_pos. pose proof eta64_pos. nra.
Qed.

Lemma approx_zero (s : bool) (E : R) : E = 0 -> approx E (S754_zero s).
Proof.
  intros ->. split; [reflexivity|]. cbn [SF2R]. rewrite Rabs_R0.
  pose proof u64_pos. pose proof eta64_pos. repeat split; lra.
Qed.

Lemma cond_Zopp_IZR (s : bool) (m : Z) :
  IZR (cond_Zopp s m) = (if s then - IZR m else IZR m).
Proof. destruct s; cbn [cond_Zopp]; [apply opp_IZR|reflexivity]. Qed.

(** The finite results of rounding, from the bound on their magnitude. *)
Lemma round64_fin (s : bool) (m e : Z) (l : location) (U : R) :
  (0 <= m)%Z ->
  IZR m * bpow e * (1 + bpow (-52)) + bpow (-1074)
    + match l with loc_Exact => 0 | _ => bpow e end <= U ->
  U < bpow 972 ->
  let r := round64 s m e l in
  SFfin r = true /\ SFmag r <= U
  /\ SF2R r = (if s then - SFmag r else SFmag r).
Proof.
  intros Hm HU Hreach r.
  destruct (round64_upper s m e l Hm) as (m3 & e2 & Hm3 & Hb & Hr).
  fold r in Hr. rewrite Hr. clear Hr r.
  assert (HU0 : 0 <= U).
  { pose proof (bpow_gt_0 e2). assert (0 <= IZR m3) by (apply IZR_le; assumption). nra. }
  destruct m3 as [|p|p]; [| |lia].
  - cbn. repeat split; try lra. destruct s; lra.
  - destruct (Z.leb_spec e2 (emax - prec)) as [Hle|Hgt].
    + cbn [SFfin SFmag SF2R]. split; [reflexivity|]. split; [lra|].
      rewrite cond_Zopp_IZR. destruct s; ring.
    + exfalso.
      assert (bpow 972 <= bpow e2) by (apply bpow_le; cbn in Hgt; lia).
      assert (1 <= IZR (Zpos p)) by (apply IZR_le; lia).
      pose proof (bpow_gt_0 e2). nra.
Qed.

Lemma round64_exact_approx (s : bool) (p : positive) (e : Z) :
  let E := IZR (cond_Zopp s (Zpos p)) * bpow e in
  in_reach E -> approx E (round64 s (Zpos p) e loc_Exact).
Proof.
  intros E Hreach. unfold in_reach in Hreach.
  assert (Hp : 0 < IZR (Zpos p)) by (apply IZR_lt; lia).
  pose proof (bpow_gt_0 e) as Pe.
  assert (HE : Rabs E = IZR (Zpos p) * bpow e).
  { unfold E. rewrite cond_Zopp_IZR. destruct s.
    - rewrite Rabs_left; nra.
    - rewrite Rabs_right; nra. }
  rewrite HE in Hreach.
  pose proof (bpow_gt_0 (-52)). pose proof (bpow_gt_0 (-1074)).
  assert (HX : 0 < IZR (Zpos p) * bpow e) by nra.
  destruct (round64_fin s (Zpos p) e loc_Exact
              (IZR (Zpos p) * bpow e * (1 + u64) + eta64)) as (Hf & Hmag & Hs);
    [lia| rewrite u64_eq, eta64_eq; set (X := IZR (Zpos p) * bpow e) in *; nra
     | assumption |].
  pose proof (SFmag_nonneg (round64 s (Zpos p) e loc_Exact)) as Hn.
  split; [assumption|]. rewrite SF2R_abs, HE. split; [assumption|].
  rewrite Hs. unfold E. rewrite cond_Zopp_IZR.
  destruct s; split; intro; nra.
Qed.

Lemma shl_align_value (m : positive) (e e' : Z) :
  let '(mz, ez) := shl_align m e e' in
  IZR (Zpos mz) * bpow ez = IZR (Zpos m) * bpow e /\ ez = Z.min e e'.
Proof.
  unfold shl_align. destruct (e' - e)%Z as [|d|d] eqn:E.
  - split; [reflexivity|lia].
  - split; [reflexivity|lia].
  - split; [|lia].
    change (Pos.iter xO m d) with (shift_pos d m).
    rewrite shift_pos_correct, mult_IZR, Zpower_pos_powerRZ.
    replace e with (Zpos d + e')%Z by lia. rewrite bpow_add. unfold bpow. ring.
Qed.

Lemma shl_align_fst (m : positive) (e ez : Z) :
  (ez <= e)%Z ->
  IZR (Zpos (fst (shl_align m e ez))) * bpow ez = IZR (Zpos m) * bpow e.
Proof.
  intro H. pose proof (shl_align_value m e ez) as G.
  destruct (shl_align m e ez) as [mz ez']. cbn [fst].
  destruct G as [G1 G2]. rewrite <- G1. f_equal. f_equal. lia.
Qed.

Lemma normalize_approx (M e : Z) :
  in_reach (IZR M * bpow e) ->
  approx (IZR M * bpow e) (binary_normalize prec emax M e false).
Proof.
  intro Hreach. destruct M as [|p|p]; cbn [binary_normalize].
  - apply approx_zero. ring.
  - unfold binary_round.
    pose proof (shl_align_value p e (fexp64 (Zpos (digits2_pos p) + e))) as G.
    destruct (shl_align p e (fexp64 (Zpos (digits2_pos p) + e))) as [mz ez].
    destruct G as [G _].
    pose proof (round64_exact_approx false mz ez) as A. cbn [cond_Zopp] in A.
    rewrite G in A. apply A. exact Hreach.
  - unfold binary_round.
    pose proof (shl_align_value p e (fexp64 (Zpos (digits2_pos p) + e))) as G.
    destruct (shl_align p e (fexp64 (Zpos (digits2_pos p) + e))) as [mz ez].
    destruct G as [G _].
    pose proof (round64_exact_approx true mz ez) as A. cbn [cond_Zopp] in A.
    assert (E : IZR (Zneg p) * bpow e = - IZR (Zpos mz) * bpow ez).
    { change (Zneg p) with (- Zpos p)%Z. rewrite opp_IZR. nra. }
    rewrite E in *. apply A. exact Hreach.
Qed.

Lemma SF2R_finite (s : bool) (m : positive) (e : Z) :
  SF2R (S754_finite s m e) = (if s then - (IZR (Zpos m) * bpow e) else IZR (Zpos m) * bpow e).
Proof. cbn [SF2R]. rewrite cond_Zopp_IZR. destruct s; ring. Qed.

Lemma SFmul_approx (x y : spec_float) :
  SFfin x = true -> SFfin y = true ->
  in_reach (SF2R x * SF2R y) ->
  approx (SF2R x * SF2R y) (SFmul prec emax x y).
Proof.
  intros Hx Hy Hreach.
  destruct x as [sx| | |sx mx ex]; try discriminate Hx;
    destruct y as [sy| | |sy my ey]; try discriminate Hy; cbn [SFmul].
  - apply approx_zero. cbn. ring.
  - apply approx_zero. cbn. ring.
  - apply approx_zero. cbn. ring.
  - pose proof (round64_exact_approx (xorb sx sy) (mx * my) (ex + ey)) as A.
    cbv zeta in A.
    assert (E : IZR (cond_Zopp (xorb sx sy) (Zpos (mx * my))) * bpow (ex + ey)
                = SF2R (S754_finite sx mx ex) * SF2R (S754_finite sy my ey)).
    { rewrite !SF2R_finite, cond_Zopp_IZR, Pos2Z.inj_mul, mult_IZR, bpow_add.
      destruct sx, sy; cbn [xorb]; ring. }
    rewrite E in A. apply A. exact Hreach.
Qed.

Lemma SFadd_approx (x y : spec_float) :
  SFfin x = true -> SFfin y = true ->
  in_reach (SF2R x + SF2R y) ->
  approx (SF2R x + SF2R y) (SFadd prec emax x y).
Proof.
  intros Hx Hy Hreach.
  destruct x as [sx| | |sx mx ex]; try discriminate Hx;
    destruct y as [sy| | |sy my ey]; try discriminate Hy; cbn [SFadd].
  - destruct sx, sy; apply approx_zero; cbn; ring.
  - replace (SF2R (S754_zero sx) + SF2R (S754_finite sy my ey))
      with (SF2R (S754_finite sy my ey)) by (cbn; ring).
    now apply approx_self.
  - replace (SF2R (S754_finite sx mx ex) + SF2R (S754_zero sy))
      with (SF2R (S754_finite sx mx ex)) by (cbn; ring).
    now apply approx_self.
  - set (ez := Z.min ex ey).
    set (M := (cond_Zopp sx (Zpos (fst (shl_align mx ex ez)))
               + cond_Zopp sy (Zpos (fst (shl_align my ey ez))))%Z).
    assert (E : IZR M * bpow ez
                = SF2R (S754_finite sx mx ex) + SF2R (S754_finite sy my ey)).
    { unfold M. rewrite plus_IZR, !cond_Zopp_IZR, !SF2R_finite.
      rewrite <- (shl_align_fst mx ex ez), <- (shl_align_fst my ey ez) by (unfold ez; lia).
      destruct sx, sy; ring. }
    rewrite <- E in *. now apply normalize_approx.
Qed.

Lemma SFsub_approx (x y : spec_float) :
  SFfin x = true -> SFfin y = true ->
  in_reach (SF2R x - SF2R y) ->
  approx (SF2R x - SF2R y) (SFsub prec emax x y).
Proof.
  intros Hx Hy Hreach.
  destruct x as [sx| | |sx mx ex]; try discriminate Hx;
    destruct y as [sy| | |sy my ey]; try discriminate Hy; cbn [SFsub].
  - destruct sx, sy; apply approx_zero; cbn; ring.
  - replace (SF2R (S754_zero sx) - SF2R (S754_finite sy my ey))
      with (SF2R (S754_finite (negb sy) my ey))
      by (rewrite !SF2R_finite; cbn [SF2R]; destruct sy; cbn [negb]; ring).
    now apply approx_self.
  - replace (SF2R (S754_finite sx mx ex) - SF2R (S754_zero sy))
      with (SF2R (S754_finite sx mx ex)) by (cbn; ring).
    now apply approx_self.
  - set (ez := Z.min ex ey).
    set (M := (cond_Zopp sx (Zpos (fst (shl_align mx ex ez)))
               - cond_Zopp sy (Zpos (fst (shl_align my ey ez))))%Z).
    assert (E : IZR M * bpow ez
                = SF2R (S754_finite sx mx ex) - SF2R (S754_finite sy my ey)).
    { unfold M. rewrite minus_IZR, !cond_Zopp_IZR, !SF2R_finite.
      rewrite <- (shl_align_fst mx ex ez), <- (shl_align_fst my ey ez) by (unfold ez; lia).
      destruct sx, sy; ring. }
    rewrite <- E in *. now apply normalize_approx.
Qed.

(** ** Division *)

Lemma div_core_spec (mx : positive) (ex : Z) (my : positive) (ey : Z) :
  let '(q, e', l) := SFdiv_core_binary prec emax (Zpos mx) ex (Zpos my) ey in
  (0 <= q)%Z
  /\ IZR q * bpow e' * (IZR (Zpos my) * bpow ey) <= IZR (Zpos mx) * bpow ex
  /\ bpow e' * (IZR (Zpos my) * bpow ey)
     <= IZR (Zpos mx) * bpow ex * bpow (-52) + bpow (-1074) * (IZR (Zpos my) * bpow ey).
Proof.
  unfold SFdiv_core_binary.
  set (d1 := Zdigits2 (Zpos mx)). set (d2 := Zdigits2 (Zpos my)).
  set (e' := Z.min (fexp64 (d1 + ex - (d2 + ey))) (ex - ey)).
  set (s := (ex - ey - e')%Z).
  assert (Hs : (0 <= s)%Z) by (unfold s, e'; lia).
  set (m' := match s with
             | Zpos _ => Z.shiftl (Zpos mx) s
             | Z0 => Zpos mx
             | Zneg _ => 0%Z
             end).
  assert (Hm' : m' = (Zpos mx * 2 ^ s)%Z).
  { unfold m'. destruct s as [|p|p]; [rewrite Z.pow_0_r; lia| |lia].
    apply Z.shiftl_mul_pow2. lia. }
  pose proof (Z_div_mod m' (Zpos my) ltac:(lia)) as Hdm.
  destruct (Z.div_eucl m' (Zpos my)) as [q r]. destruct Hdm as [Hq Hr].
  assert (Hpow : (0 < 2 ^ s)%Z) by (apply Z.pow_pos_nonneg; lia).
  assert (Hq0 : (0 <= q)%Z) by nia.
  assert (HmxR : 0 < IZR (Zpos mx)) by (apply IZR_lt; lia).
  assert (HmyR : 0 < IZR (Zpos my)) by (apply IZR_lt; lia).
  pose proof (bpow_gt_0 ex) as Pex. pose proof (bpow_gt_0 ey) as Pey.
  pose proof (bpow_gt_0 e') as Pe'.
  split; [assumption|]. split.
  - assert (H1 : (q * Zpos my <= Zpos mx * 2 ^ s)%Z) by nia.
    apply IZR_le in H1. rewrite !mult_IZR, <- bpow_IZR in H1 by assumption.
    assert (Eex : bpow ex = bpow s * bpow e' * bpow ey).
    { rewrite <- !bpow_add. f_equal. unfold s. lia. }
    rewrite Eex.
    assert (0 < bpow e' * bpow ey) by nra.
    replace (IZR q * bpow e' * (IZR (Zpos my) * bpow ey))
      with (IZR q * IZR (Zpos my) * (bpow e' * bpow ey)) by ring.
    replace (IZR (Zpos mx) * (bpow s * bpow e' * bpow ey))
      with (IZR (Zpos mx) * bpow s * (bpow e' * bpow ey)) by ring.
    apply Rmult_le_compat_r; lra.
  - assert (H1 : bpow e' <= bpow (d1 + ex - (d2 + ey) - 53) + bpow (-1074)).
    { eapply Rle_trans; [|apply bpow_fexp64]. apply bpow_le. unfold e'. lia. }
    destruct (Zdigits2_bounds (Zpos mx) ltac:(lia)) as [Hlo1 _].
    destruct (Zdigits2_bounds (Zpos my) ltac:(lia)) as [_ Hhi2].
    fold d1 in Hlo1. fold d2 in Hhi2.
    assert (Hd1 : (1 <= d1)%Z) by (unfold d1; cbn; lia).
    assert (Hd2 : (1 <= d2)%Z) by (unfold d2; cbn; lia).
    apply IZR_le in Hlo1. apply IZR_lt in Hhi2.
    rewrite <- bpow_IZR in Hlo1, Hhi2 by lia.
    set (B := IZR (Zpos my) * bpow ey) in *.
    assert (HB : 0 < B) by (unfold B; nra).
    assert (H2 : bpow (d1 + ex - (d2 + ey) - 53) * B
                 <= IZR (Zpos mx) * bpow ex * bpow (-52)).
    { replace (d1 + ex - (d2 + ey) - 53)%Z with ((d1 - 1) + ex + (-52) + (- d2) + (- ey))%Z by lia.
      rewrite !bpow_add. unfold B.
      pose proof (bpow_gt_0 (d1 - 1)). pose proof (bpow_gt_0 (-52)).
      pose proof (bpow_gt_0 (- d2)) as Pd2. pose proof (bpow_gt_0 (- ey)) as Pney.
      pose proof (bpow_gt_0 d2) as Pdd2.
      assert (I1 : bpow (- ey) * bpow ey = 1).
      { rewrite <- bpow_add. replace (- ey + ey)%Z with 0%Z by lia. apply bpow_0. }
      assert (I2 : bpow (- d2) * bpow d2 = 1).
      { rewrite <- bpow_add. replace (- d2 + d2)%Z with 0%Z by lia. apply bpow_0. }
      assert (I3 : bpow (- d2) * IZR (Zpos my) <= 1) by nra.
      replace (bpow (d1 - 1) * bpow ex * bpow (-52) * bpow (- d2) * bpow (- ey)
               * (IZR (Zpos my) * bpow ey))
        with (bpow (d1 - 1) * (bpow ex * bpow (-52)) * (bpow (- d2) * IZR (Zpos my))
              * (bpow (- ey) * bpow ey)) by ring.
      rewrite I1, Rmult_1_r.
      assert (0 < bpow ex * bpow (-52)) by nra.
      assert (0 < bpow (d1 - 1) * (bpow ex * bpow (-52))) by nra.
      assert (bpow (d1 - 1) * (bpow ex * bpow (-52)) <= IZR (Zpos mx) * (bpow ex * bpow (-52)))
        by (apply Rmult_le_compat_r; lra).
      nra. }
    nra.
Qed.

Lemma SFdiv_approx (x : spec_float) (sy : bool) (my : positive) (ey : Z) :
  SFfin x = true ->
  let y := S754_finite sy my ey in
  in_reach (SF2R x / SF2R y) ->
  approx (SF2R x / SF2R y) (SFdiv prec emax x y).
Proof.
  intros Hx y Hreach.
  assert (HmyR : 0 < IZR (Zpos my)) by (apply IZR_lt; lia).
  pose proof (bpow_gt_0 ey) as Pey.
  set (B := IZR (Zpos my) * bpow ey).
  assert (HB : 0 < B) by (unfold B; nra).
  assert (Hy : SF2R y = if sy then - B else B) by (unfold y; apply SF2R_finite).
  destruct x as [sx| | |sx mx ex]; try discriminate Hx.
  - cbn [SFdiv y]. apply approx_zero. cbn [SF2R]. unfold Rdiv. ring.
  - assert (HmxR : 0 < IZR (Zpos mx)) by (apply IZR_lt; lia).
    pose proof (bpow_gt_0 ex) as Pex.
    set (A := IZR (Zpos mx) * bpow ex).
    assert (HA : 0 < A) by (unfold A; nra).
    assert (HxR : SF2R (S754_finite sx mx ex) = if sx then - A else A) by apply SF2R_finite.
    set (Q := A / B).
    assert (HQ : 0 < Q) by (unfold Q; apply Rdiv_lt_0_compat; assumption).
    assert (HE : SF2R (S754_finite sx mx ex) / SF2R y
                 = if xorb sx sy then - Q else Q).
    { rewrite HxR, Hy. unfold Q. destruct sx, sy; cbn [xorb]; field; lra. }
    rewrite HE in *.
    assert (HabsE : Rabs (if xorb sx sy then - Q else Q) = Q).
    { destruct (xorb sx sy); [rewrite Rabs_left|rewrite Rabs_right]; lra. }
    unfold in_reach in Hreach. rewrite HabsE in Hreach.
    cbn [SFdiv y].
    pose proof (div_core_spec mx ex my ey) as Hc.
    destruct (SFdiv_core_binary prec emax (Zpos mx) ex (Zpos my) ey) as [[q e'] l].
    destruct Hc as (Hq & Hq1 & Hq2). fold A in Hq1, Hq2. fold B in Hq1, Hq2.
    assert (HqQ : IZR q * bpow e' <= Q).
    { apply Rmult_le_reg_r with B; [assumption|].
      replace (Q * B) with A by (unfold Q; field; lra). lra. }
    assert (HeQ : bpow e' <= Q * bpow (-52) + bpow (-1074)).
    { apply Rmult_le_reg_r with B; [assumption|].
      replace ((Q * bpow (-52) + bpow (-1074)) * B)
        with (Q * B * bpow (-52) + bpow (-1074) * B) by ring.
      replace (Q * B) with A by (unfold Q; field; lra). lra. }
    pose proof (bpow_gt_0 e') as Pe'. pose proof (bpow_gt_0 (-52)) as P52.
    pose proof (bpow_gt_0 (-1074)) as P1074.
    assert (Hq0 : 0 <= IZR q) by (apply IZR_le; assumption).
    assert (HX : 0 <= IZR q * bpow e') by nra.
    destruct (round64_fin (xorb sx sy) q e' l (Q * (1 + u64) + eta64))
      as (Hf & Hmag & Hs); [assumption| |assumption|].
    { rewrite u64_eq, eta64_eq.
      assert (match l with loc_Exact => 0 | _ => bpow e' end <= bpow e')
        by (destruct l; lra).
      set (X := IZR q * bpow e') in *. nra. }
    pose proof (SFmag_nonneg (round64 (xorb sx sy) q e' l)) as Hn.
    split; [assumption|]. rewrite SF2R_abs, HabsE. split; [assumption|].
    rewrite Hs. destruct (xorb sx sy); split; intro; lra.
Qed.

(** ** Order *)

Lemma canonical_bounds (m : positive) (e : Z) :
  canonical_mantissa prec emax m e = true ->
  (Zpos m < 2 ^ 53)%Z /\ (-1074 <= e)%Z /\ (e = (-1074)%Z \/ (2 ^ 52 <= Zpos m)%Z).
Proof.
  unfold canonical_mantissa. intro H. apply Z.eqb_eq in H.
  rewrite fexp64_eq in H.
  destruct (digits2_pos_bounds m) as [Hlo Hhi].
  set (d := Zpos (digits2_pos m)) in *.
  assert (Hd : (d <= 53)%Z) by lia.
  split.
  - assert ((2 ^ d <= 2 ^ 53)%Z) by (apply Z.pow_le_mono_r; lia). lia.
  - split; [lia|].
    destruct (Z.eq_dec e (-1074)) as [|Ne]; [now left|right].
    assert (d = 53%Z) by lia. replace 52%Z with (d - 1)%Z by lia. exact Hlo.
Qed.

Lemma valid_finite (s : bool) (m : positive) (e : Z) :
  valid_binary (S754_finite s m e) = true ->
  canonical_mantissa prec emax m e = true /\ (e <= 971)%Z.
Proof.
  unfold SpecFloat.valid_binary, SpecFloat.bounded. rewrite andb_true_iff.
  intros [H1 H2]. split; [assumption|]. apply Z.leb_le in H2. exact H2.
Qed.

Lemma canonical_lt (m1 : positive) (e1 : Z) (m2 : positive) (e2 : Z) :
  canonical_mantissa prec emax m1 e1 = true ->
  canonical_mantissa prec emax m2 e2 = true ->
  (e1 < e2)%Z ->
  IZR (Zpos m1) * bpow e1 < IZR (Zpos m2) * bpow e2.
Proof.
  intros C1 C2 He.
  destruct (canonical_bounds m1 e1 C1) as (H1 & H1e & _).
  destruct (canonical_bounds m2 e2 C2) as (_ & _ & [H2|H2]); [lia|].
  apply IZR_lt in H1. apply IZR_le in H2.
  assert (IZR (2 ^ 53) = IZR (2 ^ 52) * 2) as E53 by (rewrite <- mult_IZR; reflexivity).
  rewrite E53 in H1.
  assert (0 < IZR (2 ^ 52)) by (apply IZR_lt; reflexivity).
  assert (Hb : 2 * bpow e1 <= bpow e2).
  { rewrite <- bpow_1, <- bpow_add. apply bpow_le. lia. }
  pose proof (bpow_gt_0 e1). pose proof (bpow_gt_0 e2).
  assert (IZR (Zpos m1) * bpow e1 < IZR (2 ^ 52) * 2 * bpow e1) by nra.
  assert (IZR (2 ^ 52) * bpow e2 <= IZR (Zpos m2) * bpow e2) by nra.
  nra.
Qed.

Lemma SFcompare_spec (x y : spec_float) :
  valid_binary x = true -> valid_binary y = true ->
  SFfin x = true -> SFfin y = true ->
  cmp_rel (SFcompare x y) (SF2R x) (SF2R y).
Proof.
  intros Vx Vy Hx Hy.
  destruct x as [sx| | |sx mx ex]; try discriminate Hx;
    destruct y as [sy| | |sy my ey]; try discriminate Hy; cbn [SFcompare].
  - reflexivity.
  - assert (0 < IZR (Zpos my) * bpow ey).
    { pose proof (bpow_gt_0 ey). assert (0 < IZR (Zpos my)) by (apply IZR_lt; lia). nra. }
    rewrite SF2R_finite. destruct sy; cbn [cmp_rel SF2R]; lra.
  - assert (0 < IZR (Zpos mx) * bpow ex).
    { pose proof (bpow_gt_0 ex). assert (0 < IZR (Zpos mx)) by (apply IZR_lt; lia). nra. }
    rewrite SF2R_finite. destruct sx; cbn [cmp_rel SF2R]; lra.
  - destruct (valid_finite _ _ _ Vx) as [Cx _]. destruct (valid_finite _ _ _ Vy) as [Cy _].
    assert (Px : 0 < IZR (Zpos mx) * bpow ex).
    { pose proof (bpow_gt_0 ex). assert (0 < IZR (Zpos mx)) by (apply IZR_lt; lia). nra. }
    assert (Py : 0 < IZR (Zpos my) * bpow ey).
    { pose proof (bpow_gt_0 ey). assert (0 < IZR (Zpos my)) by (apply IZR_lt; lia). nra. }
    rewrite !SF2R_finite.
    assert (Hcmp : cmp_rel (Some match (ex ?= ey)%Z with
                                 | Lt => Lt | Gt => Gt
                                 | Eq => Pos.compare_cont Eq mx my end)
                     (IZR (Zpos mx) * bpow ex) (IZR (Zpos my) * bpow ey)).
    { destruct (Z.compare_spec ex ey) as [E|L|G]; cbn [cmp_rel].
      - subst ey. change (Pos.compare_cont Eq mx my) with (Pos.compare mx my).
        pose proof (bpow_gt_0 ex).
        destruct (Pos.compare_spec mx my) as [E|L|G].
        + now subst.
        + assert (IZR (Zpos mx) < IZR (Zpos my)) by (apply IZR_lt; lia). nra.
        + assert (IZR (Zpos my) < IZR (Zpos mx)) by (apply IZR_lt; lia). nra.
      - now apply canonical_lt.
      - now apply canonical_lt. }
    destruct sx, sy; cbn [cmp_rel]; try lra.
    + destruct (ex ?= ey)%Z; cbn [cmp_rel CompOpp] in *;
        try destruct (Pos.compare_cont Eq mx my); cbn [cmp_rel CompOpp] in *; lra.
    + exact Hcmp.
Qed.

(** ** Truncation *)

Lemma SFtrunc_spec (x : spec_float) :
  SFfin x = true ->
  exists k, SFtrunc x = Ok k
    /\ (0 <= SF2R x -> IZR k <= SF2R x < IZR k + 1)
    /\ (SF2R x <= 0 -> IZR k - 1 < SF2R x <= IZR k).
Proof.
  intro Hx. destruct x as [sx| | |s m e]; try discriminate Hx.
  - exists 0%Z. cbn. repeat split; lra.
  - cbn [SFtrunc].
    set (K := if (0 <=? e)%Z then (Zpos m * 2 ^ e)%Z else (Zpos m / 2 ^ (- e))%Z).
    assert (HK : IZR K <= IZR (Zpos m) * bpow e < IZR K + 1).
    { unfold K. destruct (Z.leb_spec 0 e) as [He|He].
      - rewrite mult_IZR, <- bpow_IZR by assumption. lra.
      - assert (Hp : (0 < 2 ^ (- e))%Z) by (apply Z.pow_pos_nonneg; lia).
        pose proof (Z.mul_div_le (Zpos m) _ Hp) as H1.
        pose proof (Z.mul_succ_div_gt (Zpos m) _ Hp) as H2.
        apply IZR_le in H1. apply IZR_lt in H2.
        rewrite mult_IZR in H1, H2. rewrite succ_IZR in H2.
        rewrite <- bpow_IZR in H1, H2 by lia.
        pose proof (bpow_gt_0 e) as Pe. pose proof (bpow_gt_0 (- e)) as Pne.
        assert (I : bpow (- e) * bpow e = 1).
        { rewrite <- bpow_add. replace (- e + e)%Z with 0%Z by lia. apply bpow_0. }
        set (q := IZR (Zpos m / 2 ^ (- e))) in *.
        split.
        + apply Rmult_le_reg_r with (bpow (- e)); [assumption|].
          replace (IZR (Zpos m) * bpow e * bpow (- e)) with (IZR (Zpos m) * (bpow (- e) * bpow e)) by ring.
          rewrite I. lra.
        + apply Rmult_lt_reg_r with (bpow (- e)); [assumption|].
          replace (IZR (Zpos m) * bpow e * bpow (- e)) with (IZR (Zpos m) * (bpow (- e) * bpow e)) by ring.
          rewrite I. lra. }
    exists (cond_Zopp s K). split; [reflexivity|].
    rewrite SF2R_finite, cond_Zopp_IZR.
    assert (0 < IZR (Zpos m) * bpow e).
    { pose proof (bpow_gt_0 e). assert (0 < IZR (Zpos m)) by (apply IZR_lt; lia). nra. }
    destruct s; split; intro; lra.
Qed.

(** ** Numbers that need no rounding *)

Lemma shl_align_int (m : positive) (e e' : Z) :
  let '(mz, ez) := shl_align m e e' in
  ez = Z.min e e' /\ Zpos mz = (Zpos m * 2 ^ (e - ez))%Z.
Proof.
  unfold shl_align. destruct (e' - e)%Z as [|d|d] eqn:E.
  - split; [lia|]. rewrite Z.sub_diag, Z.pow_0_r. lia.
  - split; [lia|]. rewrite Z.sub_diag, Z.pow_0_r. lia.
  - split; [lia|].
    change (Pos.iter xO m d) with (shift_pos d m).
    rewrite shift_pos_correct. replace (e - e')%Z with (Zpos d) by lia.
    change (Zpower_pos 2 d) with (2 ^ Zpos d)%Z. lia.
Qed.

Lemma normalize_exact (s : bool) (p : positive) (e : Z) :
  (Zpos p < 2 ^ 53)%Z -> (-1074 <= e <= 971)%Z ->
  exists m' e',
    binary_normalize prec emax (cond_Zopp s (Zpos p)) e false = S754_finite s m' e'
    /\ valid_binary (S754_finite s m' e') = true
    /\ IZR (Zpos m') * bpow e' = IZR (Zpos p) * bpow e.
Proof.
  intros Hp He.
  assert (Hn : binary_normalize prec emax (cond_Zopp s (Zpos p)) e false
               = binary_round prec emax s p e) by (destruct s; reflexivity).
  rewrite Hn. unfold binary_round.
  destruct (digits2_pos_bounds p) as [Hlo Hhi].
  set (d := Zpos (digits2_pos p)) in *.
  assert (Hd1 : (1 <= d)%Z) by (unfold d; lia).
  assert (Hd : (d <= 53)%Z).
  { destruct (Z_lt_le_dec 53 d) as [H|H]; [|assumption].
    assert ((2 ^ 53 <= 2 ^ (d - 1))%Z) by (apply Z.pow_le_mono_r; lia). lia. }
  set (f := fexp64 (d + e)).
  assert (Hf : (f <= e)%Z /\ (-1074 <= f)%Z) by (unfold f; rewrite fexp64_eq; lia).
  pose proof (shl_align_int p e f) as Hi.
  pose proof (shl_align_value p e f) as Hv.
  destruct (shl_align p e f) as [mz ez].
  destruct Hi as [Hez Hmz]. destruct Hv as [Hv _].
  assert (Eez : ez = f) by lia. clear Hez. subst ez.
  assert (Hdz : Zdigits2 (Zpos mz) = (d + (e - f))%Z).
  { rewrite Hmz. rewrite Zdigits2_shift by lia. reflexivity. }
  destruct (round64_spec s (Zpos mz) f loc_Exact ltac:(lia))
    as (m1 & m2 & m3 & e1 & e2 & He1 & Hm1 & Hm2 & Hex & He2 & Hm3 & Hr).
  rewrite Hdz in He1. replace (d + (e - f) + f)%Z with (d + e)%Z in He1 by lia.
  fold f in He1. rewrite Z.max_id in He1.
  specialize (Hex eq_refl He1). subst m2.
  rewrite He1, Hdz in He2. replace (d + (e - f) + f)%Z with (d + e)%Z in He2 by lia.
  fold f in He2. rewrite Z.max_id in He2.
  rewrite He2, He1, Z.sub_diag, Z.pow_0_r, Z.div_1_r in Hm3. subst m3.
  rewrite Hr, He2.
  assert (Hle : (f <=? emax - prec)%Z = true) by (apply Z.leb_le; cbn; lia).
  rewrite Hle.
  exists mz, f. split; [reflexivity|]. split; [|exact Hv].
  unfold SpecFloat.valid_binary, SpecFloat.bounded, canonical_mantissa.
  rewrite Hle, andb_true_r. apply Z.eqb_eq.
  change (Zpos (digits2_pos mz)) with (Zdigits2 (Zpos mz)). rewrite Hdz.
  replace (d + (e - f) + f)%Z with (d + e)%Z by lia. reflexivity.
Qed.

(** ** The remainder by one *)

Lemma Prim2SF_one : Prim2SF 1 = one64.
Proof. vm_compute. reflexivity. Qed.

Lemma SFfmod_one_spec (x : spec_float) :
  valid_binary x = true ->
  let r := SFfmod x one64 in
  valid_binary r = true
  /\ ((SFfin x = false /\ r = S754_nan)
      \/ (SFfin x = true /\ SFfin r = true /\ SFmag r < 1)).
Proof.
  intros Vx r. unfold r, one64.
  destruct x as [sx|sx| |sx mx ex]; cbn [SFfmod].
  - split; [reflexivity|]. right. cbn. repeat split; lra.
  - split; [reflexivity|]. now left.
  - split; [reflexivity|]. now left.
  - destruct (valid_finite _ _ _ Vx) as [Cx Hex].
    destruct (canonical_bounds _ _ Cx) as (Hmx & Hemin & _).
    set (e := Z.min ex (-52)).
    set (X := (Zpos mx * 2 ^ (ex - e))%Z).
    set (Y := (4503599627370496 * 2 ^ (-52 - e))%Z).
    assert (HY : (0 < Y)%Z).
    { unfold Y. assert (0 < 2 ^ (-52 - e))%Z by (apply Z.pow_pos_nonneg; unfold e; lia). lia. }
    assert (HX : (0 < X)%Z).
    { unfold X. assert (0 < 2 ^ (ex - e))%Z by (apply Z.pow_pos_nonneg; unfold e; lia). lia. }
    pose proof (Z.mod_pos_bound X Y HY) as Hmod.
    pose proof (Z.mod_le X Y ltac:(lia) HY) as Hle.
    destruct (X mod Y)%Z as [|r0|r0] eqn:Er.
    + split; [reflexivity|]. right. cbn. repeat split; lra.
    + assert (Hr53 : (Zpos r0 < 2 ^ 53)%Z).
      { destruct (Z_le_gt_dec ex (-52)) as [H|H].
        - assert (e = ex) by (unfold e; lia).
          assert (X = Zpos mx).
          { unfold X. replace (ex - e)%Z with 0%Z by lia. rewrite Z.pow_0_r. lia. }
          lia.
        - assert (e = (-52)%Z) by (unfold e; lia).
          assert (Y = 4503599627370496%Z).
          { unfold Y. replace (-52 - e)%Z with 0%Z by lia. rewrite Z.pow_0_r. lia. }
          change (2 ^ 53)%Z with 9007199254740992%Z. lia. }
      destruct (normalize_exact sx r0 e Hr53 ltac:(unfold e; lia))
        as (m' & e' & Hn & Hv & Hval).
      rewrite Hn. split; [assumption|]. right.
      split; [reflexivity|]. split; [reflexivity|].
      cbn [SFmag]. rewrite Hval.
      assert (H1 : IZR (Zpos r0) < IZR Y) by (apply IZR_lt; lia).
      unfold Y in H1. rewrite mult_IZR, <- bpow_IZR in H1 by (unfold e; lia).
      change (IZR 4503599627370496) with (IZR (2 ^ 52)) in H1.
      rewrite <- (bpow_IZR 52) in H1 by lia.
      pose proof (bpow_gt_0 e) as Pe.
      assert (I : bpow 52 * bpow (-52 - e) * bpow e = 1).
      { rewrite <- !bpow_add. replace (52 + (-52 - e) + e)%Z with 0%Z by lia. apply bpow_0. }
      nra.
    + lia.
Qed.

(** * Primitive floats *)

Lemma Fmul_approx (x y : float) :
  Ffin x -> Ffin y -> in_reach (F2R x * F2R y) ->
  approx (F2R x * F2R y) (Prim2SF (x * y)).
Proof. intros. rewrite FloatAxioms.mul_spec. now apply SFmul_approx. Qed.

Lemma Fadd_approx (x y : float) :
  Ffin x -> Ffin y -> in_reach (F2R x + F2R y) ->
  approx (F2R x + F2R y) (Prim2SF (x + y)).
Proof. intros. rewrite FloatAxioms.add_spec. now apply SFadd_approx. Qed.

Lemma Fsub_approx (x y : float) :
  Ffin x -> Ffin y -> in_reach (F2R x - F2R y) ->
  approx (F2R x - F2R y) (Prim2SF (x - y)).
Proof. intros. rewrite FloatAxioms.sub_spec. now apply SFsub_approx. Qed.

Lemma Prim2SF_zero : Prim2SF 0 = S754_zero false.
Proof. vm_compute. reflexivity. Qed.

(** A finite float that [=? 0] rejects is a non-zero finite float. *)
Lemma Feqb_zero_false (f : float) :
  Ffin f -> (f =? 0)%float = false ->
  exists s m e, Prim2SF f = S754_finite s m e.
Proof.
  unfold Ffin. rewrite FloatAxioms.eqb_spec, Prim2SF_zero. intros Hf Hz.
  destruct (Prim2SF f) as [s| | |s m e]; cbn in *; try discriminate.
  now exists s, m, e.
Qed.

Lemma Fdiv_approx (x y : float) :
  Ffin x -> Ffin y -> (y =? 0)%float = false ->
  in_reach (F2R x / F2R y) ->
  fdiv x y = Ok (x / y)%float /\ approx (F2R x / F2R y) (Prim2SF (x / y)).
Proof.
  intros Hx Hy Hz Hreach. unfold fdiv. rewrite Hz. split; [reflexivity|].
  destruct (Feqb_zero_false y Hy Hz) as (s & m & e & E).
  rewrite FloatAxioms.div_spec. unfold F2R in *. rewrite E in *.
  now apply SFdiv_approx.
Qed.

Lemma Fcompare_spec (x y : float) :
  Ffin x -> Ffin y ->
  cmp_rel (SFcompare (Prim2SF x) (Prim2SF y)) (F2R x) (F2R y).
Proof. intros. apply SFcompare_spec; auto using Prim2SF_valid. Qed.

Lemma Fltb_true (x y : float) :
  Ffin x -> Ffin y -> (x <? y)%float = true -> F2R x < F2R y.
Proof.
  intros Hx Hy. rewrite FloatAxioms.ltb_spec. unfold SFltb.
  pose proof (Fcompare_spec x y Hx Hy) as H.
  destruct (SFcompare (Prim2SF x) (Prim2SF y)) as [[]|]; cbn in *; intros; try discriminate; lra.
Qed.

Lemma Fltb_false (x y : float) :
  Ffin x -> Ffin y -> (x <? y)%float = false -> F2R y <= F2R x.
Proof.
  intros Hx Hy. rewrite FloatAxioms.ltb_spec. unfold SFltb.
  pose proof (Fcompare_spec x y Hx Hy) as H.
  destruct (SFcompare (Prim2SF x) (Prim2SF y)) as [[]|]; cbn in *; intros; try discriminate; lra.
Qed.

Lemma Fleb_true (x y : float) :
  Ffin x -> Ffin y -> (x <=? y)%float = true -> F2R x <= F2R y.
Proof.
  intros Hx Hy. rewrite FloatAxioms.leb_spec. unfold SFleb.
  pose proof (Fcompare_spec x y Hx Hy) as H.
  destruct (SFcompare (Prim2SF x) (Prim2SF y)) as [[]|]; cbn in *; intros; try discriminate; lra.
Qed.

Lemma Fleb_false (x y : float) :
  Ffin x -> Ffin y -> (x <=? y)%float = false -> F2R y < F2R x.
Proof.
  intros Hx Hy. rewrite FloatAxioms.leb_spec. unfold SFleb.
  pose proof (Fcompare_spec x y Hx Hy) as H.
  destruct (SFcompare (Prim2SF x) (Prim2SF y)) as [[]|]; cbn in *; intros; try discriminate; lra.
Qed.

Lemma Feqb_true (x y : float) :
  Ffin x -> Ffin y -> (x =? y)%float = true -> F2R x = F2R y.
Proof.
  intros Hx Hy. rewrite FloatAxioms.eqb_spec. unfold SFeqb.
  pose proof (Fcompare_spec x y Hx Hy) as H.
  destruct (SFcompare (Prim2SF x) (Prim2SF y)) as [[]|]; cbn in *; intros; try discriminate; lra.
Qed.

Lemma Feqb_false (x y : float) :
  Ffin x -> Ffin y -> (x =? y)%float = false -> F2R x <> F2R y.
Proof.
  intros Hx Hy. rewrite FloatAxioms.eqb_spec. unfold SFeqb.
  pose proof (Fcompare_spec x y Hx Hy) as H.
  destruct (SFcompare (Prim2SF x) (Prim2SF y)) as [[]|]; cbn in *; intros; try discriminate; lra.
Qed.

(** A comparison that answers [true] has no NaN on either side. *)
Lemma Fltb_not_nan (x y : float) :
  (x <? y)%float = true -> ~ Fnan x /\ ~ Fnan y.
Proof.
  rewrite FloatAxioms.ltb_spec. unfold SFltb, Fnan.
  destruct (Prim2SF x), (Prim2SF y); cbn; intros; split; congruence.
Qed.

Lemma py_int_spec (f : float) :
  Ffin f ->
  exists k, py_int f = Ok k
    /\ (0 <= F2R f -> IZR k <= F2R f < IZR k + 1)
    /\ (F2R f <= 0 -> IZR k - 1 < F2R f <= IZR k).
Proof. intro H. now apply SFtrunc_spec. Qed.

Lemma py_int_range (f : float) (n : Z) :
  Ffin f -> 0 <= F2R f < IZR n + 1 ->
  exists k, py_int f = Ok k /\ (0 <= k <= n)%Z.
Proof.
  intros Hf [H0 Hn]. destruct (py_int_spec f Hf) as (k & Hk & Hpos & _).
  exists k. split; [assumption|]. specialize (Hpos H0).
  split.
  - apply Z.lt_succ_r. apply lt_IZR. rewrite succ_IZR. lra.
  - apply Z.lt_succ_r. apply lt_IZR. rewrite succ_IZR. lra.
Qed.

(** ** Bounds with numerals *)

Lemma bpow_inv (k : Z) : bpow (- k) * bpow k = 1.
Proof. rewrite <- bpow_add. replace (- k + k)%Z with 0%Z by lia. apply bpow_0. Qed.

Lemma u64_le_eps : u64 <= eps.
Proof.
  pose proof (bpow_inv 51) as H. rewrite (bpow_IZR 51) in H by lia.
  change (2 ^ 51)%Z with 2251799813685248%Z in H.
  unfold u64, eps. change (-51)%Z with (- (51))%Z. lra.
Qed.

Lemma eta64_le_u64 : eta64 <= u64.
Proof. apply bpow_le. lia. Qed.

Lemma eta64_le_eps : eta64 <= eps.
Proof. pose proof u64_le_eps. pose proof eta64_le_u64. lra. Qed.

Lemma eps_pos : 0 < eps.
Proof. unfold eps. lra. Qed.

Lemma in_reach_small (E : R) : Rabs E <= 1000000 -> in_reach E.
Proof.
  intro H. unfold in_reach.
  pose proof u64_le_eps. pose proof eta64_le_eps. pose proof u64_pos. pose proof eta64_pos.
  pose proof (Rabs_pos E).
  assert (Hb : bpow 40 <= bpow 972) by (apply bpow_le; lia).
  rewrite (bpow_IZR 40) in Hb by lia. change (2 ^ 40)%Z with 1099511627776%Z in Hb.
  unfold eps in *. nra.
Qed.

(** From [approx] to inequalities between numerals. *)
Lemma approx_abs (E B : R) (r : spec_float) :
  approx E r -> Rabs E <= B -> Rabs (SF2R r) <= B * (1 + eps) + eps.
Proof.
  intros (_ & H & _) HB.
  pose proof u64_le_eps. pose proof eta64_le_eps. pose proof u64_pos.
  pose proof (Rabs_pos E). nra.
Qed.

Lemma approx_nonneg (E B : R) (r : spec_float) :
  approx E r -> 0 <= E <= B -> 0 <= SF2R r <= B * (1 + eps) + eps.
Proof.
  intros A [H0 HB]. pose proof (approx_abs E B r A) as H.
  rewrite (Rabs_right E) in H by lra. specialize (H HB).
  destruct A as (_ & _ & Hs & _). specialize (Hs H0).
  rewrite Rabs_right in H by lra. lra.
Qed.

Section Ops.

Variables (x y : float) (X Y : R).
Hypotheses (Hx : Ffin x) (Hy : Ffin y).

Lemma Fmul_abs :
  Rabs (F2R x) <= X -> Rabs (F2R y) <= Y -> X * Y <= 1000000 ->
  Ffin (x * y) /\ Rabs (F2R (x * y)) <= X * Y * (1 + eps) + eps.
Proof.
  intros HX HY HXY.
  assert (HE : Rabs (F2R x * F2R y) <= X * Y).
  { rewrite Rabs_mult. apply Rmult_le_compat; try apply Rabs_pos; assumption. }
  pose proof (Fmul_approx x y Hx Hy (in_reach_small (F2R x * F2R y) ltac:(lra))) as A.
  split; [apply A|]. exact (approx_abs _ _ _ A HE).
Qed.

Lemma Fmul_nonneg :
  0 <= F2R x <= X -> 0 <= F2R y <= Y -> X * Y <= 1000000 ->
  Ffin (x * y) /\ 0 <= F2R (x * y) <= X * Y * (1 + eps) + eps.
Proof.
  intros HX HY HXY.
  assert (HE : 0 <= F2R x * F2R y <= X * Y) by nra.
  assert (HR : Rabs (F2R x * F2R y) <= 1000000) by (rewrite Rabs_right; lra).
  pose proof (Fmul_approx x y Hx Hy (in_reach_small _ HR)) as A.
  split; [apply A|]. exact (approx_nonneg _ _ _ A HE).
Qed.

Lemma Fadd_abs :
  Rabs (F2R x) <= X -> Rabs (F2R y) <= Y -> X + Y <= 1000000 ->
  Ffin (x + y) /\ Rabs (F2R (x + y)) <= (X + Y) * (1 + eps) + eps.
Proof.
  intros HX HY HXY.
  assert (HE : Rabs (F2R x + F2R y) <= X + Y).
  { eapply Rle_trans; [apply Rabs_triang|]. lra. }
  pose proof (Fadd_approx x y Hx Hy (in_reach_small (F2R x + F2R y) ltac:(lra))) as A.
  split; [apply A|]. exact (approx_abs _ _ _ A HE).
Qed.

Lemma Fadd_nonneg :
  0 <= F2R x <= X -> 0 <= F2R y <= Y -> X + Y <= 1000000 ->
  Ffin (x + y) /\ 0 <= F2R (x + y) <= (X + Y) * (1 + eps) + eps.
Proof.
  intros HX HY HXY.
  assert (HE : 0 <= F2R x + F2R y <= X + Y) by lra.
  assert (HR : Rabs (F2R x + F2R y) <= 1000000) by (rewrite Rabs_right; lra).
  pose proof (Fadd_approx x y Hx Hy (in_reach_small _ HR)) as A.
  split; [apply A|]. exact (approx_nonneg _ _ _ A HE).
Qed.

Lemma Fsub_abs :
  Rabs (F2R x) <= X -> Rabs (F2R y) <= Y -> X + Y <= 1000000 ->
  Ffin (x - y) /\ Rabs (F2R (x - y)) <= (X + Y) * (1 + eps) + eps.
Proof.
  intros HX HY HXY.
  assert (HE : Rabs (F2R x - F2R y) <= X + Y).
  { unfold Rminus. eapply Rle_trans; [apply Rabs_triang|]. rewrite Rabs_Ropp. lra. }
  pose proof (Fsub_approx x y Hx Hy (in_reach_small (F2R x - F2R y) ltac:(lra))) as A.
  split; [apply A|]. exact (approx_abs _ _ _ A HE).
Qed.

(** A difference that is not negative. *)
Lemma Fsub_nonneg :
  F2R y <= F2R x -> F2R x - F2R y <= X -> X <= 1000000 ->
  Ffin (x - y) /\ 0 <= F2R (x - y) <= X * (1 + eps) + eps.
Proof.
  intros Hle HX HXb.
  assert (HE : 0 <= F2R x - F2R y <= X) by lra.
  assert (HR : Rabs (F2R x - F2R y) <= 1000000) by (rewrite Rabs_right; lra).
  pose proof (Fsub_approx x y Hx Hy (in_reach_small _ HR)) as A.
  split; [apply A|]. exact (approx_nonneg _ _ _ A HE).
Qed.

(** A quotient by a divisor away from zero. *)
Lemma Fdiv_abs :
  Rabs (F2R x) <= X -> 0 < Y -> Y <= Rabs (F2R y) -> X / Y <= 1000000 ->
  fdiv x y = Ok (x / y)%float
  /\ Ffin (x / y) /\ Rabs (F2R (x / y)) <= X / Y * (1 + eps) + eps.
Proof.
  intros HX HY0 HY HXY.
  assert (Hnz : (y =? 0)%float = false).
  { destruct (y =? 0)%float eqn:E; [|reflexivity]. exfalso.
    apply Feqb_true in E; [|assumption|unfold Ffin; now rewrite Prim2SF_zero].
    unfold F2R at 2 in E. rewrite Prim2SF_zero in E. cbn in E.
    rewrite E, Rabs_R0 in HY. lra. }
  assert (HE : Rabs (F2R x / F2R y) <= X / Y).
  { unfold Rdiv. rewrite Rabs_mult, Rabs_inv.
    pose proof (Rabs_pos (F2R x)).
    assert (0 < / Rabs (F2R y)) by (apply Rinv_0_lt_compat; lra).
    assert (/ Rabs (F2R y) <= / Y) by (apply Rinv_le_contravar; lra).
    assert (0 < / Y) by (apply Rinv_0_lt_compat; lra).
    nra. }
  destruct (Fdiv_approx x y Hx Hy Hnz (in_reach_small (F2R x / F2R y) ltac:(lra))) as [Hd A].
  split; [assumption|]. split; [apply A|]. exact (approx_abs _ _ _ A HE).
Qed.

End Ops.

(** What lies between two finite floats is finite. *)
Lemma Fleb_between (a c b : float) :
  Ffin a -> Ffin b -> (a <=? c)%float = true -> (c <=? b)%float = true -> Ffin c.
Proof.
  unfold Ffin. rewrite !FloatAxioms.leb_spec. unfold SFleb.
  destruct (Prim2SF a) as [sa| | |sa ma ea]; try discriminate;
    destruct (Prim2SF b) as [sb| | |sb mb eb]; try discriminate;
    destruct (Prim2SF c) as [sc|[]| |sc mc ec]; cbn; intros; try reflexivity; try discriminate.
Qed.

Lemma Fleb_intro (a b : float) :
  Ffin a -> Ffin b -> F2R a <= F2R b -> (a <=? b)%float = true.
Proof.
  intros Ha Hb H. destruct (a <=? b)%float eqn:E; [reflexivity|].
  apply Fleb_false in E; try assumption. lra.
Qed.

Lemma F2R_zero : F2R 0 = 0.
Proof. unfold F2R. now rewrite Prim2SF_zero. Qed.

Lemma Ffin_zero : Ffin 0.
Proof. unfold Ffin. now rewrite Prim2SF_zero. Qed.

(** The value of a float given by its mantissa and (negative) exponent. *)
Lemma F2R_lit (f : float) (m : positive) (k : positive) :
  Prim2SF f = S754_finite false m (Zneg k) ->
  Ffin f /\ F2R f * IZR (2 ^ Zpos k) = IZR (Zpos m).
Proof.
  intro E. unfold Ffin, F2R. rewrite E. split; [reflexivity|].
  cbn [SF2R cond_Zopp]. rewrite <- bpow_IZR by lia.
  change (Zneg k) with (- Zpos k)%Z.
  rewrite Rmult_assoc, bpow_inv. ring.
Qed.

Ltac float_lit f H :=
  let sf := eval vm_compute in (Prim2SF f) in
  lazymatch sf with
  | S754_finite false ?m (Zneg ?k) =>
      let p := eval vm_compute in (2 ^ Zpos k)%Z in
      pose proof (F2R_lit f m k (@eq_refl _ sf <: Prim2SF f = sf)) as H;
      change (2 ^ Zpos k)%Z with p in H
  end.

Lemma F2R_one : Ffin 1 /\ F2R 1 = 1.
Proof. float_lit 1%float H. destruct H. split; [assumption|lra]. Qed.

(** ** [x % 1.0] *)

Lemma fmod_py_one (x : float) :
  exists h, fmod_py x 1 = Ok h
    /\ ((~ Ffin x /\ Fnan h) \/ (Ffin x /\ Ffin h /\ 0 <= F2R h <= 1 + 3 * eps)).
Proof.
  unfold fmod_py.
  assert (E10 : (1 =? 0)%float = false) by reflexivity.
  assert (L10 : (1 <? 0)%float = false) by reflexivity.
  assert (S1 : get_sign 1 = false) by reflexivity.
  rewrite E10, L10, S1. clear E10 L10 S1.
  set (m := c_fmod x 1).
  destruct (SFfmod_one_spec (Prim2SF x) (Prim2SF_valid x)) as [Vr Hr].
  assert (Em : Prim2SF m = SFfmod (Prim2SF x) one64).
  { unfold m, c_fmod. rewrite Prim2SF_one. now apply Prim2SF_SF2Prim. }
  rewrite FloatAxioms.eqb_spec, FloatAxioms.ltb_spec, Prim2SF_zero, Em.
  pose proof eps_pos as Peps.
  destruct Hr as [[Hx Hr]|(Hx & Hf & Hmag)].
  - rewrite Hr. cbn. exists m. split; [reflexivity|]. left. split.
    + unfold Ffin. rewrite Hx. discriminate.
    + unfold Fnan. now rewrite Em.
  - destruct (SFfmod (Prim2SF x) one64) as [sr| | |sr mr er] eqn:Er; try discriminate Hf.
    + cbn. exists 0%float. split; [reflexivity|]. right.
      split; [assumption|]. split; [apply Ffin_zero|]. rewrite F2R_zero. lra.
    + cbn [SFmag] in Hmag.
      assert (Hpos : 0 < IZR (Zpos mr) * bpow er).
      { pose proof (bpow_gt_0 er). assert (0 < IZR (Zpos mr)) by (apply IZR_lt; lia). nra. }
      assert (Fm : Ffin m) by (unfold Ffin; now rewrite Em).
      assert (Vm : F2R m = if sr then - (IZR (Zpos mr) * bpow er) else IZR (Zpos mr) * bpow er).
      { unfold F2R. rewrite Em. apply SF2R_finite. }
      set (mag := IZR (Zpos mr) * bpow er) in *. clearbody mag.
      destruct sr; cbn; cbv iota in Vm.
      * exists (m + 1)%float. split; [reflexivity|]. right. split; [assumption|].
        destruct F2R_one as [F1 V1].
        assert (HE : 0 <= F2R m + F2R 1 <= 1) by (rewrite Vm, V1; lra).
        assert (HR : Rabs (F2R m + F2R 1) <= 1000000).
        { rewrite Rabs_right; [lra|apply Rle_ge; apply HE]. }
        pose proof (Fadd_approx m 1 Fm F1 (in_reach_small _ HR)) as A.
        split; [apply A|]. pose proof (approx_nonneg _ _ _ A HE). unfold F2R at 1 2. lra.
      * exists m. split; [reflexivity|]. right. split; [assumption|].
        split; [assumption|]. lra.
Qed.

(** [lra] after the boolean facts about floats are put aside. *)
Ltac flra :=
  repeat match goal with
         | H : @eq bool _ _ |- _ => clear H
         end;
  lra.

Lemma Fltb_nan_l (h c : float) : Fnan h -> (h <? c)%float = false.
Proof. unfold Fnan. rewrite FloatAxioms.ltb_spec. intros ->. reflexivity. Qed.

(** * From HSL back to RGB: every channel is a byte *)

Lemma byte_of_unit (c : float) :
  unit_float c -> exists k, py_int (c * 255)%float = Ok k /\ in_byte k.
Proof.
  intros [Hc Vc]. float_lit 255%float L. destruct L as [F255 V255].
  destruct (Fmul_nonneg c 255 (1 + / 100000) 255 Hc F255) as [Hf Hv]; try lra.
  apply py_int_range; [assumption|]. unfold eps in Hv. lra.
Qed.

Lemma percent_of_unit (c : float) :
  unit_float c -> exists k, py_int (c * 100)%float = Ok k /\ (0 <= k <= 100)%Z.
Proof.
  intros [Hc Vc]. float_lit 100%float L. destruct L as [F100 V100].
  destruct (Fmul_nonneg c 100 (1 + / 100000) 100 Hc F100) as [Hf Hv]; try lra.
  apply py_int_range; [assumption|]. unfold eps in Hv. lra.
Qed.

Section Interpolation.

Variables m1 m2 : float.
Hypotheses (F1 : Ffin m1) (F2 : Ffin m2).
Hypotheses (H1 : 0 <= F2R m1 <= 1 + / 1000000) (H2 : 0 <= F2R m2 <= 1 + / 1000000).
(** [m1] is below [m2], or above it by a rounding error only. *)
Hypothesis H12 :
  F2R m1 <= F2R m2 \/ (/ 2 <= F2R m1 /\ F2R m1 - F2R m2 <= / 100000000).

(** [m1 + (m2 - m1) * t * 6.0] for [t] in [0, 1/6]. *)
Lemma ramp_unit (t : float) :
  Ffin t -> 0 <= F2R t <= / 6 + / 1000000 ->
  unit_float (m1 + (m2 - m1) * t * 6)%float.
Proof.
  intros Ft Vt. float_lit 6%float L. destruct L as [F6 V6].
  destruct H12 as [Hle|[Hhalf Hnear]].
  - destruct (Fsub_nonneg m2 m1 (F2R m2 - F2R m1) F2 F1) as [Fd Vd]; try lra.
    set (Xd := (F2R m2 - F2R m1) * (1 + eps) + eps) in *.
    destruct (Fmul_nonneg (m2 - m1) t Xd (/ 6 + / 1000000) Fd Ft) as [Fp Vp];
      try (unfold Xd, eps in *; lra).
    set (Xp := Xd * (/ 6 + / 1000000) * (1 + eps) + eps) in *.
    destruct (Fmul_nonneg ((m2 - m1) * t) 6 Xp 6 Fp F6) as [Fq Vq];
      try (unfold Xp, Xd, eps in *; lra).
    set (Xq := Xp * 6 * (1 + eps) + eps) in *.
    destruct (Fadd_nonneg m1 ((m2 - m1) * t * 6) (F2R m1) Xq F1 Fq) as [Fr Vr];
      try (unfold Xq, Xp, Xd, eps in *; lra).
    split; [assumption|]. unfold Xq, Xp, Xd, eps in *. lra.
  - destruct (Rle_or_lt (F2R m1) (F2R m2)) as [Hle|Hgt].
    { (* covered by the first case *)
      destruct (Fsub_nonneg m2 m1 (F2R m2 - F2R m1) F2 F1) as [Fd Vd]; try lra.
      set (Xd := (F2R m2 - F2R m1) * (1 + eps) + eps) in *.
      destruct (Fmul_nonneg (m2 - m1) t Xd (/ 6 + / 1000000) Fd Ft) as [Fp Vp];
        try (unfold Xd, eps in *; lra).
      set (Xp := Xd * (/ 6 + / 1000000) * (1 + eps) + eps) in *.
      destruct (Fmul_nonneg ((m2 - m1) * t) 6 Xp 6 Fp F6) as [Fq Vq];
        try (unfold Xp, Xd, eps in *; lra).
      set (Xq := Xp * 6 * (1 + eps) + eps) in *.
      destruct (Fadd_nonneg m1 ((m2 - m1) * t * 6) (F2R m1) Xq F1 Fq) as [Fr Vr];
        try (unfold Xq, Xp, Xd, eps in *; lra).
      split; [assumption|]. unfold Xq, Xp, Xd, eps in *. lra. }
    assert (HEd : Rabs (F2R m2 - F2R m1) <= / 100000000) by (rewrite Rabs_left; lra).
    assert (HRd : Rabs (F2R m2 - F2R m1) <= 1000000) by lra.
    pose proof (Fsub_approx m2 m1 F2 F1 (in_reach_small _ HRd)) as Ad.
    assert (Fd : Ffin (m2 - m1)) by apply Ad.
    pose proof (approx_abs _ _ _ Ad HEd) as Vd. fold (F2R (m2 - m1)) in Vd.
    set (Xd := / 100000000 * (1 + eps) + eps) in *.
    assert (Vt' : Rabs (F2R t) <= / 6 + / 1000000) by (rewrite Rabs_right; lra).
    destruct (Fmul_abs (m2 - m1) t Xd (/ 6 + / 1000000) Fd Ft Vd Vt') as [Fp Vp];
      try (unfold Xd, eps in *; lra).
    set (Xp := Xd * (/ 6 + / 1000000) * (1 + eps) + eps) in *.
    assert (V6' : Rabs (F2R 6) <= 6) by (rewrite Rabs_right; lra).
    destruct (Fmul_abs ((m2 - m1) * t) 6 Xp 6 Fp F6 Vp V6') as [Fq Vq];
      try (unfold Xp, Xd, eps in *; lra).
    set (Xq := Xp * 6 * (1 + eps) + eps) in *.
    set (q := ((m2 - m1) * t * 6)%float) in *.
    assert (Hq : - Xq <= F2R q <= Xq).
    { split; [apply Ropp_le_cancel; rewrite Ropp_involutive|];
        (eapply Rle_trans; [|exact Vq]); [rewrite <- Rabs_Ropp|]; apply Rle_abs. }
    assert (HE : 0 <= F2R m1 + F2R q <= 1 + / 500000)
      by (unfold Xq, Xp, Xd, eps in *; lra).
    assert (HR : Rabs (F2R m1 + F2R q) <= 1000000) by (rewrite Rabs_right; lra).
    pose proof (Fadd_approx m1 q F1 Fq (in_reach_small _ HR)) as Ar.
    split; [apply Ar|].
    pose proof (approx_nonneg _ _ _ Ar HE) as Vr. fold (F2R (m1 + q)) in Vr.
    unfold eps in Vr. lra.
Qed.

Lemma v_unit (hue : float) :
  exists c, colorsys._v m1 m2 hue = Ok c /\ unit_float c.
Proof.
  unfold colorsys._v.
  destruct (fmod_py_one hue) as (h & Eh & Hh). rewrite Eh. cbn [bind].
  assert (U1 : unit_float m1) by (split; [assumption|lra]).
  assert (U2 : unit_float m2) by (split; [assumption|lra]).
  destruct Hh as [[_ Hnan]|(_ & Fh & Vh)].
  - rewrite !(Fltb_nan_l h) by assumption. now exists m1.
  - float_lit colorsys.ONE_SIXTH L6. destruct L6 as [F16 V16].
    float_lit 0.5%float L5. destruct L5 as [F05 V05].
    float_lit colorsys.TWO_THIRD L23. destruct L23 as [F23 V23].
    destruct (h <? colorsys.ONE_SIXTH)%float eqn:E1.
    + apply Fltb_true in E1; try assumption.
      eexists. split; [reflexivity|]. apply ramp_unit; [assumption|]. flra.
    + destruct (h <? 0.5)%float eqn:E2; [now exists m2|].
      destruct (h <? colorsys.TWO_THIRD)%float eqn:E3; [|now exists m1].
      apply Fltb_false in E2; try assumption.
      apply Fltb_true in E3; try assumption.
      destruct (Fsub_nonneg colorsys.TWO_THIRD h (/ 6 + / 10000000) F23 Fh) as [Ft Vt];
        try flra.
      eexists. split; [reflexivity|]. apply ramp_unit; [assumption|].
      unfold eps in Vt. flra.
Qed.

End Interpolation.

Lemma sl_ok_unit (fl fs h : float) :
  sl_ok fl fs = true ->
  exists r g b, colorsys.hls_to_rgb h fl fs = Ok (r, g, b)
    /\ unit_float r /\ unit_float g /\ unit_float b.
Proof.
  unfold sl_ok, colorsys.hls_to_rgb.
  destruct F2R_one as [Fone Vone].
  destruct (fs =? 0)%float.
  - rewrite andb_true_iff. intros [A B].
    assert (Ffin fl) by (apply (Fleb_between 0 fl 1); auto using Ffin_zero).
    apply Fleb_true in A, B; auto using Ffin_zero. rewrite F2R_zero in A.
    assert (unit_float fl) by (split; [assumption|flra]).
    now exists fl, fl, fl.
  - set (m2 := if (fl <=? 0.5)%float then (fl * (1 + fs))%float
               else (fl + fs - fl * fs)%float).
    set (m1 := (2 * fl - m2)%float).
    rewrite !andb_true_iff. intros [[[[A B] C] D] E].
    float_lit 1.0000001%float L. destruct L as [Fc Vc].
    float_lit 0.5%float L5. destruct L5 as [F05 V05].
    float_lit 0.000000001%float L9. destruct L9 as [F9 V9].
    assert (Fm1 : Ffin m1) by (apply (Fleb_between 0 m1 1.0000001); auto using Ffin_zero).
    assert (Fm2 : Ffin m2) by (apply (Fleb_between 0 m2 1.0000001); auto using Ffin_zero).
    apply Fleb_true in A, B, C, D; auto using Ffin_zero. rewrite F2R_zero in A, C.
    assert (Hm1 : 0 <= F2R m1 <= 1 + / 1000000) by flra.
    assert (Hm2 : 0 <= F2R m2 <= 1 + / 1000000) by flra.
    assert (Hrel : F2R m1 <= F2R m2
                   \/ (/ 2 <= F2R m1 /\ F2R m1 - F2R m2 <= / 100000000)).
    { apply orb_true_iff in E. destruct E as [E|E].
      - left. now apply Fleb_true in E.
      - right. apply andb_true_iff in E. destruct E as [E1 E2].
        apply Fleb_true in E1; try assumption.
        destruct (Fadd_nonneg m2 0.000000001 (F2R m2) (/ 500000000) Fm2 F9) as [Fs Vs];
          try flra.
        apply Fleb_true in E2; try assumption. unfold eps in Vs. flra. }
    destruct (v_unit m1 m2 Fm1 Fm2 Hm1 Hm2 Hrel (h + colorsys.ONE_THIRD)%float) as (r & Er & Ur).
    destruct (v_unit m1 m2 Fm1 Fm2 Hm1 Hm2 Hrel h) as (g & Eg & Ug).
    destruct (v_unit m1 m2 Fm1 Fm2 Hm1 Hm2 Hrel (h - colorsys.ONE_THIRD)%float) as (b & Eb & Ub).
    rewrite Er, Eg, Eb. cbn [bind]. now exists r, g, b.
Qed.

(** ** Integers as floats *)

Lemma Prim2SF_infinity : Prim2SF infinity = S754_infinity false.
Proof. vm_compute. reflexivity. Qed.

Lemma is_infinity_fin (f : float) : Ffin f -> is_infinity f = false.
Proof.
  unfold Ffin, is_infinity.
  rewrite FloatAxioms.eqb_spec, FloatAxioms.abs_spec, Prim2SF_infinity.
  destruct (Prim2SF f); cbn; intros; try discriminate; reflexivity.
Qed.

(** An integer below [2^53] in absolute value is a float. *)
Lemma float_of_int_small (z : Z) :
  (Z.abs z < 2 ^ 53)%Z -> exists f, float_of_int z = Ok f /\ Ffin f.
Proof.
  intro Hz. unfold float_of_int.
  set (x := binary_normalize prec emax z 0 false).
  assert (Hx : valid_binary x = true /\ SFfin x = true).
  { unfold x. destruct z as [|p|p].
    - split; reflexivity.
    - destruct (normalize_exact false p 0 ltac:(lia) ltac:(lia)) as (m & e & E & V & _).
      cbn [cond_Zopp] in E. rewrite E. split; [assumption|reflexivity].
    - destruct (normalize_exact true p 0 ltac:(lia) ltac:(lia)) as (m & e & E & V & _).
      cbn [cond_Zopp Z.opp] in E. rewrite E. split; [assumption|reflexivity]. }
  destruct Hx as [Vx Fx].
  assert (Ff : Ffin (SF2Prim x)) by (unfold Ffin; now rewrite Prim2SF_SF2Prim).
  rewrite (is_infinity_fin _ Ff). now exists (SF2Prim x).
Qed.

Lemma num_truediv_float (f d : float) :
  (d =? 0)%float = false ->
  num_truediv (PFloat f) (PFloat d) = Ok (f / d)%float.
Proof. intro H. cbn. unfold fdiv. now rewrite H. Qed.

Lemma num_truediv_int (z : Z) (d : float) :
  (Z.abs z < 2 ^ 53)%Z -> (d =? 0)%float = false ->
  exists f, num_truediv (PInt z) (PFloat d) = Ok f.
Proof.
  intros Hz Hd. destruct (float_of_int_small z Hz) as (f & E & _).
  cbn. rewrite E. cbn. unfold fdiv. rewrite Hd. now eexists.
Qed.

(** ** The table of lightness and saturation *)

Lemma range_from_In (n : nat) (start k : Z) :
  (start <= k < start + Z.of_nat n)%Z -> In k (range_from start n).
Proof.
  revert start. induction n as [|n IH]; intros start H; [lia|].
  cbn [range_from]. destruct (Z.eq_dec start k) as [->|Ne]; [now left|right].
  apply IH. lia.
Qed.

Lemma range_In (n k : Z) : (0 <= k < n)%Z -> In k (range n).
Proof. intro H. apply range_from_In. lia. Qed.

Lemma sl_table :
  forallb (fun l => percent_ok l
                    && forallb (fun s => sl_ok (percent l) (percent s)) percents)
    percents = true.
Proof. vm_compute. reflexivity. Qed.

Lemma sl_table_at (l s : Z) :
  (0 <= l <= 100)%Z -> (0 <= s <= 100)%Z ->
  num_truediv (PInt l) (PFloat 100) = Ok (percent l)
  /\ num_truediv (PInt s) (PFloat 100) = Ok (percent s)
  /\ sl_ok (percent l) (percent s) = true.
Proof.
  intros Hl Hs. pose proof sl_table as T. rewrite forallb_forall in T.
  assert (Pl : forall k, (0 <= k <= 100)%Z ->
                 num_truediv (PInt k) (PFloat 100) = Ok (percent k)).
  { intros k Hk. specialize (T k (range_In 101 k ltac:(lia))).
    apply andb_true_iff in T. destruct T as [T _].
    unfold percent_ok, percent in *.
    destruct (num_truediv (PInt k) (PFloat 100)); [reflexivity|discriminate]. }
  split; [now apply Pl|]. split; [now apply Pl|].
  specialize (T l (range_In 101 l ltac:(lia))).
  apply andb_true_iff in T. destruct T as [_ T].
  rewrite forallb_forall in T. apply T. apply range_In. lia.
Qed.

(** [hsl_to_rgb] once the hue is a float. *)
Lemma hsl_to_rgb_bytes (h : num) (s l : Z) (fh : float) :
  num_truediv h (PFloat 360) = Ok fh ->
  (0 <= s <= 100)%Z -> (0 <= l <= 100)%Z ->
  exists r g b, hsl_to_rgb h s l = Ok (r, g, b)
    /\ in_byte r /\ in_byte g /\ in_byte b.
Proof.
  intros Eh Hs Hl. unfold hsl_to_rgb. rewrite Eh. cbn [bind].
  destruct (sl_table_at l s Hl Hs) as (El & Es & Hok).
  rewrite Es, El. cbn [bind].
  destruct (sl_ok_unit _ _ fh Hok) as (r & g & b & E & Ur & Ug & Ub).
  rewrite E. cbn [bind].
  destruct (byte_of_unit r Ur) as (kr & Er & Br).
  destruct (byte_of_unit g Ug) as (kg & Eg & Bg).
  destruct (byte_of_unit b Ub) as (kb & Eb & Bb).
  rewrite Er, Eg, Eb. cbn [bind]. now exists kr, kg, kb.
Qed.

Lemma hsl_to_rgb_bytes_int (h s l : Z) :
  (Z.abs h < 2 ^ 53)%Z -> (0 <= s <= 100)%Z -> (0 <= l <= 100)%Z ->
  exists r g b, hsl_to_rgb (PInt h) s l = Ok (r, g, b)
    /\ in_byte r /\ in_byte g /\ in_byte b.
Proof.
  intros Hh Hs Hl.
  destruct (num_truediv_int h 360 Hh eq_refl) as (fh & E).
  now apply (hsl_to_rgb_bytes _ _ _ fh).
Qed.

Lemma hsl_to_rgb_bytes_float (f : float) (s l : Z) :
  (0 <= s <= 100)%Z -> (0 <= l <= 100)%Z ->
  exists r g b, hsl_to_rgb (PFloat f) s l = Ok (r, g, b)
    /\ in_byte r /\ in_byte g /\ in_byte b.
Proof.
  intros Hs Hl.
  now apply (hsl_to_rgb_bytes _ _ _ (f / 360)%float (num_truediv_float f 360 eq_refl)).
Qed.

(** * From RGB to HSL: no exception, and percentages in range *)

Lemma chan_table : forallb chan_ok byte_values = true.
Proof. vm_compute. reflexivity. Qed.

Lemma pair_table : forallb (fun a => forallb (extremes_ok a) chans) chans = true.
Proof. vm_compute. reflexivity. Qed.

Lemma chan_channel (k : Z) :
  in_byte k ->
  num_truediv (PInt k) (PFloat 255) = Ok (chan k) /\ channel (chan k).
Proof.
  intro Hk. pose proof chan_table as T. rewrite forallb_forall in T.
  assert (Hin : In k byte_values) by (apply range_In; unfold in_byte in Hk; lia).
  specialize (T k Hin). unfold chan_ok in T.
  rewrite !andb_true_iff in T. destruct T as [[T1 T2] T3].
  destruct F2R_one as [Fone Vone].
  assert (Ff : Ffin (chan k)) by (apply (Fleb_between 0 (chan k) 1); auto using Ffin_zero).
  apply Fleb_true in T2, T3; auto using Ffin_zero. rewrite F2R_zero in T2.
  split.
  - unfold chan. destruct (num_truediv (PInt k) (PFloat 255)); [reflexivity|discriminate].
  - split; [now apply in_map|]. split; [assumption|]. lra.
Qed.

Lemma max3_cases (a b c : float) :
  colorsys.max3 a b c = a \/ colorsys.max3 a b c = b \/ colorsys.max3 a b c = c.
Proof. unfold colorsys.max3. destruct (a <? b)%float, (_ <? c)%float; auto. Qed.

Lemma min3_cases (a b c : float) :
  colorsys.min3 a b c = a \/ colorsys.min3 a b c = b \/ colorsys.min3 a b c = c.
Proof. unfold colorsys.min3. destruct (b <? a)%float, (c <? _)%float; auto. Qed.

Lemma max3_ge (a b c : float) :
  Ffin a -> Ffin b -> Ffin c ->
  F2R a <= F2R (colorsys.max3 a b c) /\ F2R b <= F2R (colorsys.max3 a b c)
  /\ F2R c <= F2R (colorsys.max3 a b c).
Proof.
  intros Fa Fb Fc. unfold colorsys.max3.
  destruct (a <? b)%float eqn:E1.
  - apply Fltb_true in E1; try assumption.
    destruct (b <? c)%float eqn:E2.
    + apply Fltb_true in E2; try assumption. lra.
    + apply Fltb_false in E2; try assumption. lra.
  - apply Fltb_false in E1; try assumption.
    destruct (a <? c)%float eqn:E2.
    + apply Fltb_true in E2; try assumption. lra.
    + apply Fltb_false in E2; try assumption. lra.
Qed.

Lemma min3_le (a b c : float) :
  Ffin a -> Ffin b -> Ffin c ->
  F2R (colorsys.min3 a b c) <= F2R a /\ F2R (colorsys.min3 a b c) <= F2R b
  /\ F2R (colorsys.min3 a b c) <= F2R c.
Proof.
  intros Fa Fb Fc. unfold colorsys.min3.
  destruct (b <? a)%float eqn:E1.
  - apply Fltb_true in E1; try assumption.
    destruct (c <? b)%float eqn:E2.
    + apply Fltb_true in E2; try assumption. lra.
    + apply Fltb_false in E2; try assumption. lra.
  - apply Fltb_false in E1; try assumption.
    destruct (c <? a)%float eqn:E2.
    + apply Fltb_true in E2; try assumption. lra.
    + apply Fltb_false in E2; try assumption. lra.
Qed.

Lemma unit_zero : unit_float 0.
Proof. split; [apply Ffin_zero|]. rewrite F2R_zero. lra. Qed.

Lemma hue_zero : hue_float 0.
Proof. split; [apply Ffin_zero|]. rewrite F2R_zero. pose proof eps_pos. lra. Qed.

Lemma fdiv_const (x d : float) :
  (d =? 0)%float = false -> fdiv x d = Ok (x / d)%float.
Proof. intro H. unfold fdiv. now rewrite H. Qed.

Lemma rgb_to_hls_ok (r g b : float) :
  channel r -> channel g -> channel b ->
  exists h l s, colorsys.rgb_to_hls r g b = Ok (h, l, s)
    /\ hue_float h /\ unit_float l /\ unit_float s.
Proof.
  intros (Ir & Fr & Vr) (Ig & Fg & Vg) (Ib & Fb & Vb).
  unfold colorsys.rgb_to_hls.
  set (maxc := colorsys.max3 r g b). set (minc := colorsys.min3 r g b).
  assert (Cmax : channel maxc).
  { unfold maxc. destruct (max3_cases r g b) as [ -> | [ -> | -> ] ]; repeat split; tauto. }
  assert (Cmin : channel minc).
  { unfold minc. destruct (min3_cases r g b) as [ -> | [ -> | -> ] ]; repeat split; tauto. }
  destruct Cmax as (Imax & Fmax & Vmax). destruct Cmin as (Imin & Fmin & Vmin).
  destruct (max3_ge r g b Fr Fg Fb) as (Mr & Mg & Mb). fold maxc in Mr, Mg, Mb.
  destruct (min3_le r g b Fr Fg Fb) as (mr & mg & mb). fold minc in mr, mg, mb.
  assert (Hle : (minc <=? maxc)%float = true) by (apply Fleb_intro; try assumption; lra).
  pose proof pair_table as T. rewrite forallb_forall in T.
  specialize (T maxc Imax). rewrite forallb_forall in T. specialize (T minc Imin).
  unfold extremes_ok in T. rewrite Hle in T. cbv zeta in T.
  set (sumc := (maxc + minc)%float) in *. set (rangec := (maxc - minc)%float) in *.
  rewrite (fdiv_const sumc 2 eq_refl). cbn [bind].
  set (l := (sumc / 2)%float) in *.
  rewrite !andb_true_iff in T. destruct T as [[L0 L1] T].
  destruct F2R_one as [Fone Vone].
  assert (Fl : Ffin l) by (apply (Fleb_between 0 l 1); auto using Ffin_zero).
  assert (Ul : unit_float l).
  { apply Fleb_true in L0, L1; auto using Ffin_zero. rewrite F2R_zero in L0.
    split; [assumption|]. flra. }
  destruct (minc =? maxc)%float eqn:Emm.
  { exists 0%float, l, 0%float. split; [reflexivity|].
    auto using hue_zero, unit_zero. }
  rewrite !andb_true_iff in T. destruct T as [[R0 R1] T].
  float_lit 0.003%float L3. destruct L3 as [F3 V3].
  float_lit 1.0000001%float Lc. destruct Lc as [Fc Vc].
  assert (Frange : Ffin rangec) by (apply (Fleb_between 0.003 rangec 1); auto).
  apply Fleb_true in R0; try assumption.
  assert (Hs : exists s,
             (if (l <=? 0.5)%float then fdiv rangec sumc
              else fdiv rangec (2 - sumc)%float) = Ok s /\ unit_float s).
  { destruct (l <=? 0.5)%float;
      rewrite !andb_true_iff in T; destruct T as [[Z0 S0] S1];
      apply negb_true_iff in Z0; rewrite (fdiv_const _ _ Z0);
      eexists; (split; [reflexivity|]);
      match goal with |- unit_float ?q =>
        assert (Fq : Ffin q) by (apply (Fleb_between 0 q 1.0000001); auto using Ffin_zero)
      end;
      apply Fleb_true in S0, S1; auto using Ffin_zero; rewrite F2R_zero in S0;
      (split; [assumption|]); flra. }
  destruct Hs as (s & Es & Us). rewrite Es. cbn [bind].
  (* the three quotients [(maxc - x) / rangec] *)
  assert (Hq : forall x, Ffin x -> 0 <= F2R x <= 1 ->
             fdiv (maxc - x)%float rangec = Ok ((maxc - x) / rangec)%float
             /\ Ffin ((maxc - x) / rangec) /\ Rabs (F2R ((maxc - x) / rangec)) <= 800).
  { intros x Fx Vx.
    destruct (Fsub_abs maxc x 1 1 Fmax Fx) as [Fd Vd];
      try (rewrite Rabs_right; lra); try lra.
    assert (Vd' : Rabs (F2R (maxc - x)) <= 21 / 10) by (unfold eps in Vd; lra).
    destruct (Fdiv_abs (maxc - x) rangec (21 / 10) (29 / 10000) Fd Frange Vd')
      as (Ed & Fq & Vq); try lra.
    { rewrite Rabs_right; flra. }
    split; [assumption|]. split; [assumption|]. unfold eps in Vq. lra. }
  destruct (Hq r Fr Vr) as (Erc & Frc & Vrc).
  destruct (Hq g Fg Vg) as (Egc & Fgc & Vgc).
  destruct (Hq b Fb Vb) as (Ebc & Fbc & Vbc).
  rewrite Erc, Egc, Ebc. cbn [bind].
  set (rc := ((maxc - r) / rangec)%float) in *.
  set (gc := ((maxc - g) / rangec)%float) in *.
  set (bc := ((maxc - b) / rangec)%float) in *.
  set (h := if (r =? maxc)%float then (bc - gc)%float
            else if (g =? maxc)%float then (2 + rc - bc)%float
            else (4 + gc - rc)%float).
  assert (Hh : Ffin h /\ Rabs (F2R h) <= 1700).
  { float_lit 2%float L2. destruct L2 as [F2 V2].
    float_lit 4%float L4. destruct L4 as [F4 V4].
    unfold h. destruct (r =? maxc)%float; [|destruct (g =? maxc)%float].
    - destruct (Fsub_abs bc gc 800 800 Fbc Fgc Vbc Vgc) as [Fd Vd]; try lra.
      split; [assumption|]. unfold eps in Vd. lra.
    - destruct (Fadd_abs 2 rc 2 800 F2 Frc) as [Fa Va]; try lra.
      { rewrite Rabs_right; flra. }
      assert (Va' : Rabs (F2R (2 + rc)) <= 803) by (unfold eps in Va; lra).
      destruct (Fsub_abs (2 + rc) bc 803 800 Fa Fbc Va' Vbc) as [Fd Vd]; try lra.
      split; [assumption|]. unfold eps in Vd. lra.
    - destruct (Fadd_abs 4 gc 4 800 F4 Fgc) as [Fa Va]; try lra.
      { rewrite Rabs_right; flra. }
      assert (Va' : Rabs (F2R (4 + gc)) <= 805) by (unfold eps in Va; lra).
      destruct (Fsub_abs (4 + gc) rc 805 800 Fa Frc Va' Vrc) as [Fd Vd]; try lra.
      split; [assumption|]. unfold eps in Vd. lra. }
  destruct Hh as [Fh Vh].
  float_lit 6%float L6. destruct L6 as [F6 V6].
  destruct (Fdiv_abs h 6 1700 6 Fh F6 Vh) as (E6 & Fh6 & _); try lra.
  { rewrite Rabs_right; flra. }
  rewrite E6. cbn [bind].
  destruct (fmod_py_one (h / 6)%float) as (h' & Eh' & [[Hn _]|(_ & Fh' & Vh')]);
    [contradiction|].
  rewrite Eh'. cbn [bind].
  exists h', l, s. split; [reflexivity|]. repeat split; try assumption; apply Vh' || apply Ul || apply Us.
Qed.

Theorem rgb_to_hsl_ok (r g b : Z) :
  in_byte r -> in_byte g -> in_byte b ->
  exists h s l, rgb_to_hsl r g b = Ok (h, s, l)
    /\ (0 <= h <= 360)%Z /\ (0 <= s <= 100)%Z /\ (0 <= l <= 100)%Z.
Proof.
  intros Hr Hg Hb. unfold rgb_to_hsl.
  destruct (chan_channel r Hr) as [Er Cr].
  destruct (chan_channel g Hg) as [Eg Cg].
  destruct (chan_channel b Hb) as [Eb Cb].
  rewrite Er, Eg, Eb. cbn [bind].
  destruct (rgb_to_hls_ok _ _ _ Cr Cg Cb) as (h & l & s & E & [Fh Vh] & Ul & Us).
  rewrite E. cbn [bind].
  float_lit 360%float L. destruct L as [F360 V360].
  destruct (Fmul_nonneg h 360 (1 + 3 * eps) 360 Fh F360) as [Fm Vm];
    try (unfold eps in *; lra).
  destruct (py_int_range (h * 360)%float 360 Fm) as (kh & Ekh & Hkh);
    [unfold eps in *; lra|].
  destruct (percent_of_unit s Us) as (ks & Eks & Hks).
  destruct (percent_of_unit l Ul) as (kl & Ekl & Hkl).
  rewrite Ekh, Eks, Ekl. cbn [bind]. now exists kh, ks, kl.
Qed.

Local Close Scope R_scope.

(** * The operations on colours *)

Lemma unpack_valid (c : color) :
  valid_color c ->
  exists r g b, unpack c = Ok (r, g, b) /\ in_byte r /\ in_byte g /\ in_byte b.
Proof.
  destruct c as [s|r g b]; cbn [valid_color unpack].
  - apply valid_hex_unpack.
  - intros (Hr & Hg & Hb). now exists r, g, b.
Qed.

Lemma rgb_to_hex_bytes (r g b : Z) :
  in_byte r -> in_byte g -> in_byte b ->
  rgb_to_hex r g b = Ok ("#" ++ format_02X r ++ format_02X g ++ format_02X b)%string.
Proof.
  unfold in_byte, rgb_to_hex, check_channel. intros Hr Hg Hb.
  repeat match goal with
         | H : _ <= ?v <= _ |- _ =>
             let A := fresh in let B := fresh in
             destruct H as [A B]; apply Z.leb_le in A, B; rewrite A, B
         end.
  reflexivity.
Qed.

Lemma emit_bytes (is_hex : bool) (r g b : Z) :
  in_byte r -> in_byte g -> in_byte b ->
  exists c, emit is_hex r g b = Ok c /\ is_str c = is_hex.
Proof.
  intros Hr Hg Hb. unfold emit. destruct is_hex.
  - rewrite (rgb_to_hex_bytes r g b Hr Hg Hb). cbn [bind]. now eexists.
  - now eexists.
Qed.

Lemma amount_percent (amount : float) :
  valid_amount amount ->
  exists k, py_int (amount * 100)%float = Ok k /\ 0 <= k <= 100.
Proof.
  intros [A B]. destruct F2R_one as [Fone Vone].
  assert (Fa : Ffin amount) by (apply (Fleb_between 0 amount 1); auto using Ffin_zero).
  apply Fleb_true in A, B; auto using Ffin_zero. rewrite F2R_zero in A.
  apply percent_of_unit. split; [assumption|]. lra.
Qed.

(** The common shape of the three operations: through HSL and back. *)
Lemma via_hsl (c : color) (f : Z -> Z -> Z -> Z * Z * Z) :
  valid_color c ->
  (forall h s l, 0 <= h <= 360 -> 0 <= s <= 100 -> 0 <= l <= 100 ->
     let '(h', s', l') := f h s l in
     0 <= h' <= 360 /\ 0 <= s' <= 100 /\ 0 <= l' <= 100) ->
  exists c',
    ('(r, g, b) <- unpack c ;;
     '(h, s, l) <- rgb_to_hsl r g b ;;
     let '(h', s', l') := f h s l in
     '(new_r, new_g, new_b) <- hsl_to_rgb (PInt h') s' l' ;;
     emit (is_str c) new_r new_g new_b) = Ok c'
    /\ is_str c' = is_str c.
Proof.
  intros Hc Hf.
  destruct (unpack_valid c Hc) as (r & g & b & E & Hr & Hg & Hb).
  rewrite E. cbn [bind].
  destruct (rgb_to_hsl_ok r g b Hr Hg Hb) as (h & s & l & E2 & Hh & Hs & Hl).
  rewrite E2. cbn [bind].
  specialize (Hf h s l Hh Hs Hl). destruct (f h s l) as [[h' s'] l'].
  destruct Hf as (Hh' & Hs' & Hl').
  destruct (hsl_to_rgb_bytes_int h' s' l' ltac:(lia) Hs' Hl')
    as (nr & ng & nb & E3 & Bnr & Bng & Bnb).
  rewrite E3. cbn [bind]. now apply emit_bytes.
Qed.

(** C6. [lighten_color], [darken_color] (for an amount in [0, 1]) and
    [get_complementary_color] return, for every valid colour, a colour in
    the representation of their input: a hex string for a hex string, an
    RGB triple for an RGB triple. *)
Theorem same_representation (c : color) (amount : float) :
  valid_color c -> valid_amount amount ->
  (exists c1, lighten_color c amount = Ok c1 /\ is_str c1 = is_str c)
  /\ (exists c2, darken_color c amount = Ok c2 /\ is_str c2 = is_str c)
  /\ (exists c3, get_complementary_color c = Ok c3 /\ is_str c3 = is_str c).
Proof.
  intros Hc Ha. destruct (amount_percent amount Ha) as (k & Ek & Hk).
  split; [|split].
  - destruct (via_hsl c (fun h s l => (h, s, Z.min 100 (l + k))) Hc) as (c' & E & R).
    { intros; cbv beta; lia. }
    exists c'. split; [|assumption]. rewrite <- E. unfold lighten_color.
    destruct (unpack c) as [[[r g] b]|]; [|reflexivity]. cbn [bind].
    destruct (rgb_to_hsl r g b) as [[[h s] l]|]; [|reflexivity]. cbn [bind].
    rewrite Ek. reflexivity.
  - destruct (via_hsl c (fun h s l => (h, s, Z.max 0 (l - k))) Hc) as (c' & E & R).
    { intros; cbv beta; lia. }
    exists c'. split; [|assumption]. rewrite <- E. unfold darken_color.
    destruct (unpack c) as [[[r g] b]|]; [|reflexivity]. cbn [bind].
    destruct (rgb_to_hsl r g b) as [[[h s] l]|]; [|reflexivity]. cbn [bind].
    rewrite Ek. reflexivity.
  - destruct (via_hsl c (fun h s l => ((h + 180) mod 360, s, l)) Hc) as (c' & E & R).
    { intros h s l Hh Hs Hl. cbv beta.
      pose proof (Z.mod_pos_bound (h + 180) 360 ltac:(lia)). lia. }
    exists c'. split; [|assumption]. rewrite <- E. unfold get_complementary_color.
    destruct (unpack c) as [[[r g] b]|]; [|reflexivity]. cbn [bind].
    destruct (rgb_to_hsl r g b) as [[[h s] l]|]; reflexivity.
Qed.

Lemma same_representation_witness :
  valid_color (Hex "#808080") /\ valid_amount 0.2
  /\ (exists c1, lighten_color (Hex "#808080") 0.2 = Ok c1 /\ is_str c1 = true)
  /\ (exists c2, darken_color (Hex "#808080") 0.2 = Ok c2 /\ is_str c2 = true)
  /\ (exists c3, get_complementary_color (Hex "#808080") = Ok c3 /\ is_str c3 = true).
Proof.
  assert (V : valid_color (Hex "#808080")) by (split; reflexivity).
  assert (A : valid_amount 0.2) by (split; reflexivity).
  split; [exact V|]. split; [exact A|].
  exact (same_representation (Hex "#808080") 0.2 V A).
Defined.

(** C4. For a valid base colour and any count, a variation other than
    ["analogous"], ["monochromatic"] and ["triadic"] raises no error and
    yields the empty palette. *)
Theorem unknown_variation_empty (base : color) (count : Z) (variation : string) :
  valid_color base ->
  variation <> "analogous" -> variation <> "monochromatic" -> variation <> "triadic" ->
  generate_color_palette base count variation = Ok [].
Proof.
  intros Hc N1 N2 N3. unfold generate_color_palette.
  destruct (unpack_valid base Hc) as (r & g & b & E & Hr & Hg & Hb).
  rewrite E. cbn [bind].
  destruct (rgb_to_hsl_ok r g b Hr Hg Hb) as (h & s & l & E2 & _).
  rewrite E2. cbn [bind]. unfold palette_of.
  apply String.eqb_neq in N1, N2, N3. now rewrite N1, N2, N3.
Qed.

Lemma unknown_variation_empty_witness :
  valid_color (Hex "#FF0000")
  /\ generate_color_palette (Hex "#FF0000") 5 "complementary" = Ok [].
Proof.
  assert (V : valid_color (Hex "#FF0000")) by (split; reflexivity).
  split; [exact V|].
  apply (unknown_variation_empty (Hex "#FF0000") 5 "complementary" V); discriminate.
Defined.

(** C10. Black is a fixed point of [darken_color]: for every amount in
    [0, 1], in both representations. *)
Theorem darken_black (amount : float) :
  valid_amount amount ->
  darken_color (Rgb 0 0 0) amount = Ok (Rgb 0 0 0)
  /\ darken_color (Hex "#000000") amount = Ok (Hex "#000000").
Proof.
  intro Ha. destruct (amount_percent amount Ha) as (k & Ek & Hk).
  assert (E1 : rgb_to_hsl 0 0 0 = Ok (0, 0, 0)) by (vm_compute; reflexivity).
  assert (E2 : hsl_to_rgb (PInt 0) 0 0 = Ok (0, 0, 0)) by (vm_compute; reflexivity).
  assert (E3 : hex_to_rgb "#000000" = Ok (0, 0, 0)) by reflexivity.
  unfold darken_color. cbn [unpack is_str]. rewrite E3. cbn [bind].
  rewrite E1. cbn [bind]. rewrite Ek. cbn [bind].
  replace (Z.max 0 (0 - k)) with 0 by lia.
  rewrite E2. cbn [bind]. split; reflexivity.
Qed.

Lemma darken_black_witness :
  valid_amount 0.5
  /\ darken_color (Rgb 0 0 0) 0.5 = Ok (Rgb 0 0 0)
  /\ darken_color (Hex "#000000") 0.5 = Ok (Hex "#000000").
Proof.
  assert (A : valid_amount 0.5) by (split; reflexivity).
  split; [exact A|]. exact (darken_black 0.5 A).
Defined.

(** C8, as stated, fails on its third case: the weighted sum for
    (128, 128, 128) is computed in binary64 and falls just below 128. *)
Lemma is_dark_boundary_counterexample :
  is_dark_color (Rgb 128 128 128) 128 <> Ok false.
Proof. vm_compute. discriminate. Qed.

(** * Palettes *)

(** ** Loops that append one colour per pass *)

Lemma range_from_length (n : nat) (start : Z) :
  List.length (range_from start n) = n.
Proof. revert start. induction n as [|n IH]; intro start; cbn; [|rewrite IH]; reflexivity. Qed.

Lemma range_from_nth (n : nat) (start : Z) (i : nat) :
  (i < n)%nat -> nth_error (range_from start n) i = Some (start + Z.of_nat i).
Proof.
  revert start i. induction n as [|n IH]; intros start i Hi; [lia|].
  destruct i as [|i]; cbn [range_from nth_error].
  - f_equal. lia.
  - rewrite IH by lia. f_equal. lia.
Qed.

Lemma range_from_bounds (n : nat) (start k : Z) :
  In k (range_from start n) -> start <= k < start + Z.of_nat n.
Proof.
  revert start. induction n as [|n IH]; intros start H; [destruct H|].
  destruct H as [ <- | H ]; [lia|]. apply IH in H. lia.
Qed.

Lemma range_length (n : Z) : Z.of_nat (List.length (range n)) = Z.max 0 n.
Proof. unfold range. rewrite range_from_length. lia. Qed.

Lemma range_nth (n i : Z) :
  0 <= i < n -> nth_error (range n) (Z.to_nat i) = Some i.
Proof.
  intro H. unfold range. rewrite range_from_nth by lia. f_equal. lia.
Qed.

Lemma range_bounds (n k : Z) : In k (range n) -> 0 <= k < n.
Proof. intro H. apply range_from_bounds in H. lia. Qed.

Lemma for_each_append {A : Type} (l : list A)
  (body : A -> list color -> result (list color)) :
  (forall x, In x l -> exists c, appends body x c) ->
  exists cs,
    List.length cs = List.length l
    /\ (forall acc, for_each l body acc = Ok (acc ++ cs)%list)
    /\ (forall i x, nth_error l i = Some x ->
          exists c, nth_error cs i = Some c /\ appends body x c).
Proof.
  induction l as [|x l IH]; intro H.
  - exists []. split; [reflexivity|]. split.
    + intro acc. cbn. now rewrite app_nil_r.
    + intros [|i] y E; discriminate.
  - destruct (H x (or_introl eq_refl)) as (c & Hc).
    destruct IH as (cs & Hlen & Hrun & Hnth).
    { intros y Hy. apply H. now right. }
    exists (c :: cs). split; [cbn; now rewrite Hlen|]. split.
    + intro acc. cbn [for_each]. rewrite (Hc acc). cbn [bind].
      rewrite Hrun, <- app_assoc. reflexivity.
    + intros [|i] y E; cbn [nth_error] in *.
      * injection E as <-. now exists c.
      * now apply Hnth.
Qed.

Lemma append_color_eq (is_hex : bool) (new_h : num) (new_s new_l : Z) (palette : list color) :
  append_color is_hex new_h new_s new_l palette
  = (c <- colour_of is_hex new_h new_s new_l ;; Ok (palette ++ [c])%list).
Proof.
  unfold append_color, colour_of.
  destruct (hsl_to_rgb new_h new_s new_l) as [[[r g] b]|]; reflexivity.
Qed.

Lemma colour_of_ok (is_hex : bool) (new_h : num) (new_s new_l : Z) :
  hue_ok new_h -> 0 <= new_s <= 100 -> 0 <= new_l <= 100 ->
  exists c, colour_of is_hex new_h new_s new_l = Ok c /\ is_str c = is_hex.
Proof.
  intros Hh Hs Hl.
  assert (exists r g b, hsl_to_rgb new_h new_s new_l = Ok (r, g, b)
                        /\ in_byte r /\ in_byte g /\ in_byte b)
    as (r & g & b & E & Hr & Hg & Hb).
  { destruct new_h as [z|f].
    - now apply hsl_to_rgb_bytes_int.
    - now apply hsl_to_rgb_bytes_float. }
  unfold colour_of. rewrite E. cbn [bind]. now apply emit_bytes.
Qed.

(** ** Arithmetic of the loop bodies *)

Lemma fmod_py_total (x y : float) :
  (y =? 0)%float = false -> exists r, fmod_py x y = Ok r.
Proof.
  intro H. unfold fmod_py. rewrite H.
  destruct (negb (c_fmod x y =? 0)%float); [|now eexists].
  destruct (negb _); now eexists.
Qed.

Lemma int_truediv_small (a b : Z) :
  b <> 0 -> Z.abs a < 2 ^ 53 -> Z.abs b < 2 ^ 53 ->
  exists q, int_truediv a b = Ok q.
Proof.
  intros Hb Ha Hb'. unfold int_truediv.
  apply Z.eqb_neq in Hb. rewrite Hb.
  apply Z.ltb_lt in Ha as Ha1. apply Z.ltb_lt in Hb' as Hb1. rewrite Ha1, Hb1.
  cbn [andb].
  destruct (float_of_int_small a Ha) as (fa & Ea & _).
  destruct (float_of_int_small b Hb') as (fb & Eb & _).
  rewrite Ea, Eb. cbn [bind]. now eexists.
Qed.

Lemma analogous_step_ok (count : Z) :
  count <= 2 ^ 53 ->
  exists step, analogous_step count = Ok step
    /\ (step = PInt 0 \/ exists q, step = PFloat q).
Proof.
  intro Hc. unfold analogous_step. destruct (count >? 1) eqn:E.
  - apply Z.gtb_lt in E.
    destruct (int_truediv_small 60 (count - 1)) as (q & Eq); [lia|reflexivity|lia|].
    rewrite Eq. cbn [bind]. eexists. split; [reflexivity|]. right. now eexists.
  - eexists. split; [reflexivity|]. now left.
Qed.

Lemma analogous_hue_ok (h : Z) (step : num) (i : Z) :
  0 <= h <= 360 -> Z.abs i < 2 ^ 53 ->
  (step = PInt 0 \/ exists q, step = PFloat q) ->
  exists new_h, analogous_hue h step i = Ok new_h /\ hue_ok new_h.
Proof.
  intros Hh Hi [ -> | [q ->] ]; unfold analogous_hue.
  - cbn [num_mul num_add num_mod bind]. change (360 =? 0) with false. cbv iota.
    eexists. split; [reflexivity|]. cbn [hue_ok].
    pose proof (Z.mod_pos_bound (h - 30 + i * 0) 360 ltac:(lia)).
    change (2 ^ 53) with 9007199254740992. lia.
  - destruct (float_of_int_small i Hi) as (fi & Ei & _).
    destruct (float_of_int_small (h - 30)) as (fh & Eh & _).
    { change (2 ^ 53) with 9007199254740992. lia. }
    assert (E360 : float_of_int 360 = Ok 360%float) by reflexivity.
    unfold num_mul, num_add, num_mod, to_float. rewrite Ei. cbn [bind].
    rewrite Eh. cbn [bind]. rewrite E360. cbn [bind].
    destruct (fmod_py_total (fh + fi * q) 360 eq_refl) as (r & Er).
    rewrite Er. cbn [bind]. eexists. split; [reflexivity|exact I].
Qed.

(** [max(lo, min(hi, x))] then [int]: a float strictly between two
    integers truncates to an integer between them. *)
Lemma clamp_float (lo hi : Z) (x : float) :
  0 <= lo <= hi ->
  exists k, num_int (num_max (PInt lo) (num_min (PInt hi) (PFloat x))) = Ok k
            /\ lo <= k <= hi.
Proof.
  intro Hb. unfold num_min, num_max. cbn [num_lt].
  destruct (float_lt_int x hi) eqn:A; cbn [num_lt].
  - destruct (int_lt_float lo x) eqn:B; cbn [num_int].
    + unfold py_int, float_lt_int, int_lt_float in *.
      destruct (Prim2SF x) as [sg|sg| |sg m e]; cbn [SFtrunc].
      * apply Z.ltb_lt in B. lia.
      * destruct sg; discriminate.
      * discriminate.
      * destruct sg; cbn [cond_Zopp] in *.
        -- exfalso. destruct (0 <=? e); apply Z.ltb_lt in B.
           ++ pose proof (Z.pow_nonneg 2 e ltac:(lia)). nia.
           ++ pose proof (Z.pow_nonneg 2 (- e) ltac:(lia)). nia.
        -- destruct (0 <=? e) eqn:E; apply Z.ltb_lt in A, B.
           ++ eexists. split; [reflexivity|]. lia.
           ++ apply Z.leb_gt in E.
              assert (P : 0 < 2 ^ (- e)) by (apply Z.pow_pos_nonneg; lia).
              eexists. split; [reflexivity|]. split.
              ** apply Z.div_le_lower_bound; [assumption|lia].
              ** assert (Z.pos m / 2 ^ (- e) < hi); [|lia].
                 apply Z.div_lt_upper_bound; [assumption|lia].
    + eexists. split; [reflexivity|lia].
  - destruct (lo <? hi) eqn:C; cbn [num_int]; eexists; (split; [reflexivity|lia]).
Qed.

Lemma clamp_int_ok (lo hi base : Z) (delta : float) :
  0 <= lo <= hi -> Z.abs base < 2 ^ 53 ->
  exists k, clamp_int lo hi base delta = Ok k /\ lo <= k <= hi.
Proof.
  intros Hb Hbase. unfold clamp_int. cbn [num_add to_float].
  destruct (float_of_int_small base Hbase) as (f & E & _).
  rewrite E. cbn [bind]. now apply clamp_float.
Qed.

(** ** The three loop bodies *)

Section Bodies.

Variables (is_hex : bool) (h s l count : Z).
Hypothesis Hh : 0 <= h <= 360.
Hypothesis Hs : 0 <= s <= 100.
Hypothesis Hl : 0 <= l <= 100.
Hypothesis Hcount : count <= 2 ^ 53.

Lemma analogous_body_appends (step : num) (i : Z) :
  (step = PInt 0 \/ exists q, step = PFloat q) -> 0 <= i < count ->
  exists c,
    appends (analogous_body is_hex h s l step) i c
    /\ (new_h <- analogous_hue h step i ;; colour_of is_hex new_h s l) = Ok c
    /\ is_str c = is_hex.
Proof.
  intros Hstep Hi.
  destruct (analogous_hue_ok h step i Hh ltac:(lia) Hstep) as (new_h & E & Hn).
  destruct (colour_of_ok is_hex new_h s l Hn Hs Hl) as (c & Ec & Hc).
  exists c. split; [|split; [|assumption]].
  - intro palette. unfold analogous_body. rewrite E. cbn [bind].
    rewrite append_color_eq, Ec. reflexivity.
  - rewrite E. cbn [bind]. exact Ec.
Qed.

Lemma monochromatic_body_appends (i : Z) :
  0 <= i < count ->
  exists c, appends (monochromatic_body is_hex h s l count) i c /\ is_str c = is_hex.
Proof.
  intro Hi.
  assert (exists f,
    (factor <- (if count >? 1 then (q <- int_truediv i (count - 1) ;; Ok (PFloat q))
                else Ok (PInt 0)) ;;
     to_float factor) = Ok f) as (f & Ef).
  { destruct (count >? 1) eqn:E.
    - apply Z.gtb_lt in E.
      destruct (int_truediv_small i (count - 1)) as (q & Eq); [lia|lia|lia|].
      rewrite Eq. cbn. now eexists.
    - cbn [bind to_float]. now eexists. }
  set (delta := ((f - 0.5) * 40)%float).
  assert (B : forall v, 0 <= v <= 360 -> Z.abs v < 2 ^ 53).
  { intros v Hv. change (2 ^ 53) with 9007199254740992. lia. }
  destruct (clamp_int_ok 10 100 s delta ltac:(lia) (B s ltac:(lia))) as (new_s & Es & Hns).
  destruct (clamp_int_ok 10 90 l delta ltac:(lia) (B l ltac:(lia))) as (new_l & El & Hnl).
  destruct (colour_of_ok is_hex (PInt h) new_s new_l) as (c & Ec & Hc);
    [apply B; lia|lia|lia|].
  exists c. split; [|assumption]. intro palette. unfold monochromatic_body.
  destruct (if count >? 1 then _ else _) as [factor|e]; [|discriminate].
  cbn [bind] in Ef |- *. rewrite Ef. cbn [bind]. fold delta.
  rewrite Es. cbn [bind]. rewrite El. cbn [bind].
  rewrite append_color_eq, Ec. reflexivity.
Qed.

Lemma angle_at_ok (i : Z) :
  0 <= i < 3 -> exists a, angle_at i = Ok a /\ 0 <= a <= 240.
Proof.
  intro Hi.
  assert (i = 0 \/ i = 1 \/ i = 2) as [ -> | [ -> | -> ] ] by lia;
    eexists; (split; [reflexivity|lia]).
Qed.

Lemma triadic_hue_ok (a : Z) : hue_ok (PInt ((h + a) mod 360)).
Proof.
  cbn [hue_ok]. pose proof (Z.mod_pos_bound (h + a) 360 ltac:(lia)).
  change (2 ^ 53) with 9007199254740992. lia.
Qed.

Lemma triadic_body_appends (i : Z) :
  0 <= i < 3 ->
  exists c, appends (triadic_body is_hex h s l) i c /\ is_str c = is_hex.
Proof.
  intro Hi. destruct (angle_at_ok i Hi) as (a & Ea & _).
  destruct (colour_of_ok is_hex (PInt ((h + a) mod 360)) s l (triadic_hue_ok a) Hs Hl)
    as (c & Ec & Hc).
  exists c. split; [|assumption]. intro palette. unfold triadic_body.
  rewrite Ea. cbn [bind]. rewrite append_color_eq, Ec. reflexivity.
Qed.

Lemma triadic_fill_eq (fuel : nat) (palette : list color) :
  triadic_fill is_hex h s l count fuel palette =
  let n := Z.of_nat (List.length palette) in
  if n <? count then
    match fuel with
    | O => Raise OutOfFuel
    | S fuel' =>
        a <- angle_at (n mod 3) ;;
        k <- float_of_int (n / 3 + 1) ;;
        let factor := (k * 0.2)%float in
        let base_h := (h + a) mod 360 in
        new_l <- clamp_int 10 90 l (factor * 40)%float ;;
        palette' <- append_color is_hex (PInt base_h) s new_l palette ;;
        triadic_fill is_hex h s l count fuel' palette'
    end
  else Ok palette.
Proof. destruct fuel; reflexivity. Qed.

(** With one unit of fuel for each missing colour the [while] loop ends,
    with [count] colours. *)
Lemma triadic_fill_ok (fuel : nat) :
  forall palette,
    count - Z.of_nat (List.length palette) <= Z.of_nat fuel ->
    exists palette',
      triadic_fill is_hex h s l count fuel palette = Ok palette'
      /\ Z.of_nat (List.length palette') = Z.max count (Z.of_nat (List.length palette)).
Proof.
  induction fuel as [|fuel IH]; intros palette Hf; rewrite triadic_fill_eq; cbv zeta;
    set (n := Z.of_nat (List.length palette)) in *;
    destruct (n <? count) eqn:E;
    try (exists palette; split; [reflexivity|apply Z.ltb_ge in E; lia]).
  - apply Z.ltb_lt in E. lia.
  - apply Z.ltb_lt in E.
    destruct (angle_at_ok (n mod 3)) as (a & Ea & _).
    { apply Z.mod_pos_bound. lia. }
    rewrite Ea. cbn [bind].
    assert (Hn : 0 <= n) by (unfold n; lia).
    destruct (float_of_int_small (n / 3 + 1)) as (k & Ek & _).
    { pose proof (Z.div_pos n 3 Hn ltac:(lia)).
      pose proof (Z.mul_div_le n 3 ltac:(lia)).
      change (2 ^ 53) with 9007199254740992 in *. lia. }
    rewrite Ek. cbn [bind].
    destruct (clamp_int_ok 10 90 l (k * 0.2 * 40)%float ltac:(lia)) as (new_l & El & Hnl).
    { change (2 ^ 53) with 9007199254740992. lia. }
    rewrite El. cbn [bind].
    destruct (colour_of_ok is_hex (PInt ((h + a) mod 360)) s new_l (triadic_hue_ok a) Hs)
      as (c & Ec & _); [lia|].
    rewrite append_color_eq, Ec. cbn [bind].
    destruct (IH (palette ++ [c])%list) as (palette' & Ep & Hlen).
    { rewrite length_app. cbn [List.length]. fold n. lia. }
    exists palette'. split; [exact Ep|].
    rewrite Hlen, length_app. cbn [List.length]. fold n. lia.
Qed.

(** Each variation yields [max(count, 0)] colours. *)
Lemma palette_of_length (variation : string) :
  variation = "analogous" \/ variation = "monochromatic" \/ variation = "triadic" ->
  exists palette,
    palette_of is_hex h s l count variation = Ok palette
    /\ Z.of_nat (List.length palette) = Z.max 0 count.
Proof.
  intros [ -> | [ -> | -> ] ]; unfold palette_of; cbn [String.eqb Ascii.eqb Bool.eqb].
  - destruct (analogous_step_ok count Hcount) as (step & Es & Hstep).
    rewrite Es. cbn [bind].
    destruct (for_each_append (range count) (analogous_body is_hex h s l step))
      as (cs & Hlen & Hrun & _).
    { intros i Hi. apply range_bounds in Hi.
      destruct (analogous_body_appends step i Hstep Hi) as (c & Hc & _). now exists c. }
    exists cs. split; [apply Hrun|]. rewrite Hlen. apply range_length.
  - destruct (for_each_append (range count) (monochromatic_body is_hex h s l count))
      as (cs & Hlen & Hrun & _).
    { intros i Hi. apply range_bounds in Hi.
      destruct (monochromatic_body_appends i Hi) as (c & Hc & _). now exists c. }
    exists cs. split; [apply Hrun|]. rewrite Hlen. apply range_length.
  - destruct (for_each_append (range (Z.min count 3)) (triadic_body is_hex h s l))
      as (cs & Hlen & Hrun & _).
    { intros i Hi. apply range_bounds in Hi.
      destruct (triadic_body_appends i ltac:(lia)) as (c & Hc & _). now exists c. }
    rewrite Hrun. cbn [bind app].
    assert (L : Z.of_nat (List.length cs) = Z.max 0 (Z.min count 3)).
    { rewrite Hlen. apply range_length. }
    destruct (triadic_fill_ok (Z.to_nat count) cs ltac:(lia)) as (palette & Ep & Hp).
    exists palette. split; [exact Ep|]. lia.
Qed.

End Bodies.

(** * Palettes: the claims *)

(** C3, as stated, fails: a triadic palette of two colours has two colours,
    not three, and no palette has a negative number of colours. *)
Lemma palette_length_counterexample :
  (exists palette,
     generate_color_palette (Rgb 255 0 0) 2 "triadic" = Ok palette
     /\ Z.of_nat (List.length palette) = 2
     /\ Z.of_nat (List.length palette) <> promised_length "triadic" 2)
  /\ (exists palette,
        generate_color_palette (Rgb 255 0 0) (-1) "analogous" = Ok palette
        /\ Z.of_nat (List.length palette) = 0
        /\ Z.of_nat (List.length palette) <> promised_length "analogous" (-1)).
Proof.
  split.
  - exists [Rgb 255 0 0; Rgb 0 255 0]. split; [vm_compute; reflexivity|].
    split; [reflexivity|discriminate].
  - exists []. split; [vm_compute; reflexivity|].
    split; [reflexivity|discriminate].
Qed.

(** C3, amended. For every valid base colour, every count up to [2^53] and
    each of the three variations, [generate_color_palette] returns a palette
    of exactly [count] colours, none for a negative [count]; a triadic
    palette of [count <= 3] colours has [count] colours too. *)
Theorem palette_length (base : color) (count : Z) (variation : string) :
  valid_color base -> count <= 2 ^ 53 ->
  variation = "analogous" \/ variation = "monochromatic" \/ variation = "triadic" ->
  exists palette,
    generate_color_palette base count variation = Ok palette
    /\ Z.of_nat (List.length palette) = Z.max 0 count.
Proof.
  intros Hc Hcount Hv. unfold generate_color_palette.
  destruct (unpack_valid base Hc) as (r & g & b & E & Hr & Hg & Hb).
  rewrite E. cbn [bind].
  destruct (rgb_to_hsl_ok r g b Hr Hg Hb) as (h & s & l & E2 & Hh & Hs & Hl).
  rewrite E2. cbn [bind].
  now apply palette_of_length.
Qed.

Lemma palette_length_witness :
  valid_color (Hex "#FF0000") /\ 5 <= 2 ^ 53
  /\ exists palette,
       generate_color_palette (Hex "#FF0000") 5 "triadic" = Ok palette
       /\ Z.of_nat (List.length palette) = Z.max 0 5.
Proof.
  assert (V : valid_color (Hex "#FF0000")) by (split; reflexivity).
  assert (B : 5 <= 2 ^ 53) by (vm_compute; discriminate).
  split; [exact V|]. split; [exact B|].
  exact (palette_length (Hex "#FF0000") 5 "triadic" V B (or_intror (or_intror eq_refl))).
Defined.

(** C7. For every valid base colour, every count from 1 to [2^53] and every
    [i] in [0, count), the analogous palette is produced and its [i]-th
    colour is [analogous_colour base count i]: the hue
    [(h - 30 + i * step) mod 360] with [s] and [l] unchanged, in the
    representation of the base colour. *)
Theorem analogous_ith_colour (base : color) (count i : Z) :
  valid_color base -> 1 <= count <= 2 ^ 53 -> 0 <= i < count ->
  exists palette c,
    generate_color_palette base count "analogous" = Ok palette
    /\ nth_error palette (Z.to_nat i) = Some c
    /\ analogous_colour base count i = Ok c
    /\ is_str c = is_str base.
Proof.
  intros Hc Hcount Hi. unfold generate_color_palette, analogous_colour.
  destruct (unpack_valid base Hc) as (r & g & b & E & Hr & Hg & Hb).
  rewrite E. cbn [bind].
  destruct (rgb_to_hsl_ok r g b Hr Hg Hb) as (h & s & l & E2 & Hh & Hs & Hl).
  rewrite E2. cbn [bind].
  unfold palette_of. cbn [String.eqb Ascii.eqb Bool.eqb].
  destruct (analogous_step_ok count ltac:(lia)) as (step & Es & Hstep).
  change (if count >? 1 then _ else _) with (analogous_step count).
  rewrite Es. cbn [bind].
  destruct (for_each_append (range count) (analogous_body (is_str base) h s l step))
    as (cs & Hlen & Hrun & Hnth).
  { intros k Hk. apply range_bounds in Hk.
    destruct (analogous_body_appends (is_str base) h s l count Hh Hs Hl ltac:(lia)
                step k Hstep Hk) as (c & Hc' & _).
    now exists c. }
  destruct (Hnth (Z.to_nat i) i (range_nth count i Hi)) as (c & Hci & Happ).
  exists cs, c. split; [apply Hrun|]. split; [exact Hci|].
  destruct (analogous_body_appends (is_str base) h s l count Hh Hs Hl ltac:(lia)
              step i Hstep Hi) as (c' & Happ' & Ecol & Hrep).
  assert (c' = c).
  { specialize (Happ []). specialize (Happ' []). rewrite Happ in Happ'.
    now injection Happ'. }
  subst c'. split; [|exact Hrep].
  unfold analogous_hue, colour_of in Ecol.
  destruct (num_mul (PInt i) step) as [x|]; [|discriminate]. cbn [bind] in Ecol |- *.
  destruct (num_add (PInt (h - 30)) x) as [y|]; [|discriminate]. cbn [bind] in Ecol |- *.
  destruct (num_mod y (PInt 360)) as [hue|]; [|discriminate]. cbn [bind] in Ecol |- *.
  exact Ecol.
Qed.

Lemma analogous_ith_colour_witness :
  valid_color (Hex "#FF0000") /\ 1 <= 3 <= 2 ^ 53 /\ 0 <= 1 < 3
  /\ exists palette c,
       generate_color_palette (Hex "#FF0000") 3 "analogous" = Ok palette
       /\ nth_error palette (Z.to_nat 1) = Some c
       /\ analogous_colour (Hex "#FF0000") 3 1 = Ok c
       /\ is_str c = is_str (Hex "#FF0000").
Proof.
  assert (V : valid_color (Hex "#FF0000")) by (split; reflexivity).
  assert (B : 1 <= 3 <= 2 ^ 53) by (split; vm_compute; discriminate).
  assert (I : 0 <= 1 < 3) by lia.
  split; [exact V|]. split; [exact B|]. split; [exact I|].
  exact (analogous_ith_colour (Hex "#FF0000") 3 1 V B I).
Defined.

(** * The round trip through HSL *)

Lemma grey_table : forallb grey_close byte_values = true.
Proof. vm_compute. reflexivity. Qed.

Lemma grey_round_trip (v : Z) :
  in_byte v -> exists w, round_trip v v v = Ok (w, w, w) /\ v - 3 <= w <= v.
Proof.
  intro Hv.
  assert (H : grey_close v = true).
  { apply (proj1 (forallb_forall grey_close byte_values) grey_table).
    apply range_In. unfold in_byte in Hv. lia. }
  unfold grey_close in H. destruct (round_trip v v v) as [[[r' g'] b']|]; [|discriminate].
  apply andb_prop in H as [H H4]. apply andb_prop in H as [H H3].
  apply andb_prop in H as [H1 H2].
  apply Z.eqb_eq in H1, H2. apply Z.leb_le in H3, H4. subst g' b'.
  exists r'. split; [reflexivity|lia].
Qed.

(** C1, as stated, fails: the round trip of (5, 244, 240) is
    (6, 238, 230), ten away on the blue channel. *)
Lemma round_trip_counterexample :
  round_trip 5 244 240 = Ok (6, 238, 230)
  /\ ~ (forall r g b, in_byte r -> in_byte g -> in_byte b ->
          exists t, round_trip r g b = Ok t /\ within 1 (r, g, b) t).
Proof.
  assert (E : round_trip 5 244 240 = Ok (6, 238, 230)) by (vm_compute; reflexivity).
  split; [exact E|]. intro H.
  destruct (H 5 244 240) as (t & Et & Ht); try (unfold in_byte; lia).
  rewrite E in Et. injection Et as <-. cbn in Ht. lia.
Qed.

(** * The round trip through HSL, channel by channel *)

Local Open Scope R_scope.

(** * Rounding to binary64: the error on both sides *)

(** The unit of the exponent the format chooses, against the number. *)
Lemma bpow_fexp64_le (m e : Z) :
  (0 < m)%Z ->
  bpow (fexp64 (Zdigits2 m + e)) <= IZR m * bpow e * bpow (-52) + bpow (-1074).
Proof.
  intro Hm.
  assert (HM : 0 < IZR m) by (apply IZR_lt; assumption).
  pose proof (bpow_gt_0 e) as Pe. pose proof (bpow_gt_0 (-52)) as P52.
  pose proof (bpow_gt_0 (-1074)) as P1074.
  eapply Rle_trans; [apply bpow_fexp64|].
  destruct (Zdigits2_bounds m ltac:(lia)) as [Hlo _].
  assert (Hd : (1 <= Zdigits2 m)%Z) by (destruct m; cbn in *; lia).
  replace (Zdigits2 m + e - 53)%Z with ((Zdigits2 m - 1) + e + (-52))%Z by lia.
  rewrite !bpow_add. rewrite (bpow_IZR (Zdigits2 m - 1)) by lia.
  apply IZR_le in Hlo.
  apply Rplus_le_compat_r. rewrite !Rmult_assoc.
  apply Rmult_le_compat_r; [nra|exact Hlo].
Qed.

(** A floor by a power of two loses less than one unit. *)
Lemma floor_scale_lower (a e e' : Z) :
  (0 <= a)%Z -> (e <= e')%Z -> IZR a * bpow e < IZR (a / 2 ^ (e' - e)) * bpow e' + bpow e'.
Proof.
  intros Ha He. replace e' with (e + (e' - e))%Z at 2 3 by lia.
  rewrite bpow_add, (bpow_IZR (e' - e)) by lia.
  assert (Hp : (0 < 2 ^ (e' - e))%Z) by (apply Z.pow_pos_nonneg; lia).
  pose proof (Z.mod_pos_bound a _ Hp) as Hmod.
  pose proof (Z.div_mod a (2 ^ (e' - e)) ltac:(lia)) as Hdm.
  assert (H : (a < (a / 2 ^ (e' - e) + 1) * 2 ^ (e' - e))%Z) by lia.
  apply IZR_lt in H. rewrite mult_IZR, plus_IZR in H.
  pose proof (bpow_gt_0 e). nra.
Qed.

Lemma shift_lower (m e : Z) :
  (0 <= m)%Z ->
  IZR m * bpow e * (1 - bpow (-52)) - bpow (-1074)
  <= IZR (m / 2 ^ (Z.max e (fexp64 (Zdigits2 m + e)) - e))
     * bpow (Z.max e (fexp64 (Zdigits2 m + e))).
Proof.
  intro Hm.
  assert (HM : 0 <= IZR m) by (apply IZR_le; assumption).
  pose proof (bpow_gt_0 e) as Pe. pose proof (bpow_gt_0 (-52)) as P52.
  pose proof (bpow_gt_0 (-1074)) as P1074.
  destruct (Z.eq_dec m 0) as [Em|Nm].
  { rewrite Em at 1. rewrite Rmult_0_l, Rmult_0_l.
    set (e1 := Z.max e _). pose proof (bpow_gt_0 e1).
    assert (0 <= IZR (m / 2 ^ (e1 - e))).
    { apply IZR_le. apply Z.div_pos; [assumption|]. apply Z.pow_pos_nonneg; unfold e1; lia. }
    nra. }
  destruct (Z.max_spec e (fexp64 (Zdigits2 m + e))) as [[Hlt ->]|[Hge ->]].
  - pose proof (floor_scale_lower m e (fexp64 (Zdigits2 m + e)) Hm ltac:(lia)) as H1.
    pose proof (bpow_fexp64_le m e ltac:(lia)) as H2.
    set (X := IZR m * bpow e) in *. nra.
  - rewrite Z.sub_diag, Z.pow_0_r, Z.div_1_r.
    set (X := IZR m * bpow e) in *. assert (0 <= X) by (unfold X; nra). nra.
Qed.

(** The bound from below on the magnitude of a rounded result. *)
Lemma round64_lower (s : bool) (m e : Z) (l : location) :
  (0 <= m)%Z -> SFfin (round64 s m e l) = true ->
  IZR m * bpow e * (1 - u64) - eta64 <= SFmag (round64 s m e l).
Proof.
  intros Hm Hfin.
  destruct (round64_spec s m e l Hm)
    as (m1 & m2 & m3 & e1 & e2 & He1 & Hm1 & Hm2 & _ & He2 & Hm3 & Hr).
  assert (Hm1pos : (0 <= m1)%Z).
  { subst m1. apply Z.div_pos; [assumption|]. apply Z.pow_pos_nonneg; lia. }
  assert (Hm3pos : (0 <= m3)%Z).
  { subst m3. apply Z.div_pos; [lia|]. apply Z.pow_pos_nonneg; lia. }
  assert (Emag : SFmag (round64 s m e l) = IZR m3 * bpow e2).
  { rewrite Hr in Hfin |- *. destruct m3 as [|p|p]; [cbn; ring| |lia].
    destruct (e2 <=? emax - prec)%Z; [reflexivity|discriminate]. }
  rewrite Emag.
  pose proof (shift_lower m e Hm) as S1. rewrite <- He1, <- Hm1 in S1.
  pose proof (shift_lower m2 e1 ltac:(lia)) as S2. rewrite <- He2, <- Hm3 in S2.
  assert (H12 : IZR m1 * bpow e1 <= IZR m2 * bpow e1).
  { pose proof (bpow_gt_0 e1). assert (IZR m1 <= IZR m2) by (apply IZR_le; lia). nra. }
  assert (HM : 0 <= IZR m) by (apply IZR_le; assumption).
  pose proof (bpow_gt_0 e) as Pe. pose proof (bpow_gt_0 (-1074)) as P1074.
  assert (P52 : 0 < bpow (-52) < 1).
  { split; [apply bpow_gt_0|]. rewrite <- bpow_0. apply bpow_lt. lia. }
  rewrite u64_eq, eta64_eq.
  set (X := IZR m * bpow e) in *. assert (0 <= X) by (unfold X; nra).
  set (Y1 := IZR m1 * bpow e1) in *. set (Y2 := IZR m2 * bpow e1) in *.
  set (a := bpow (-52)) in *. set (b := bpow (-1074)) in *.
  assert (Y2 * (1 - a) >= Y1 * (1 - a)) by nra.
  assert (Y1 * (1 - a) >= (X * (1 - a) - b) * (1 - a)) by nra.
  nra.
Qed.

Lemma tight_self (x : spec_float) : tight (SF2R x) x.
Proof.
  unfold tight. pose proof (Rabs_pos (SF2R x)). pose proof u64_pos. pose proof eta64_pos. nra.
Qed.

Lemma tight_zero (E : R) (r : spec_float) : E = 0 -> tight E r.
Proof.
  intros ->. unfold tight. rewrite Rabs_R0.
  pose proof (Rabs_pos (SF2R r)). pose proof eta64_pos. lra.
Qed.

Lemma round64_exact_tight (s : bool) (p : positive) (e : Z) :
  SFfin (round64 s (Zpos p) e loc_Exact) = true ->
  tight (IZR (cond_Zopp s (Zpos p)) * bpow e) (round64 s (Zpos p) e loc_Exact).
Proof.
  intro Hfin. unfold tight.
  assert (Hp : 0 < IZR (Zpos p)) by (apply IZR_lt; lia).
  pose proof (bpow_gt_0 e) as Pe.
  assert (HE : Rabs (IZR (cond_Zopp s (Zpos p)) * bpow e) = IZR (Zpos p) * bpow e).
  { rewrite cond_Zopp_IZR. destruct s.
    - rewrite Rabs_left; nra.
    - rewrite Rabs_right; nra. }
  rewrite HE, SF2R_abs.
  pose proof (round64_lower s (Zpos p) e loc_Exact ltac:(lia) Hfin) as H.
  pose proof u64_pos. pose proof eta64_pos.
  set (X := IZR (Zpos p) * bpow e) in *. assert (0 < X) by (unfold X; nra). nra.
Qed.

Lemma normalize_tight (M e : Z) :
  SFfin (binary_normalize prec emax M e false) = true ->
  tight (IZR M * bpow e) (binary_normalize prec emax M e false).
Proof.
  destruct M as [|p|p]; cbn [binary_normalize].
  - intros _. apply tight_zero. ring.
  - unfold binary_round.
    pose proof (shl_align_value p e (fexp64 (Zpos (digits2_pos p) + e))) as G.
    destruct (shl_align p e (fexp64 (Zpos (digits2_pos p) + e))) as [mz ez].
    destruct G as [G _]. intro Hfin.
    pose proof (round64_exact_tight false mz ez Hfin) as A. cbn [cond_Zopp] in A.
    now rewrite G in A.
  - unfold binary_round.
    pose proof (shl_align_value p e (fexp64 (Zpos (digits2_pos p) + e))) as G.
    destruct (shl_align p e (fexp64 (Zpos (digits2_pos p) + e))) as [mz ez].
    destruct G as [G _]. intro Hfin.
    pose proof (round64_exact_tight true mz ez Hfin) as A. cbn [cond_Zopp] in A.
    assert (E : IZR (Zneg p) * bpow e = IZR (- Zpos mz) * bpow ez).
    { change (Zneg p) with (- Zpos p)%Z. rewrite !opp_IZR. nra. }
    now rewrite E.
Qed.

Lemma SFmul_tight (x y : spec_float) :
  SFfin x = true -> SFfin y = true -> SFfin (SFmul prec emax x y) = true ->
  tight (SF2R x * SF2R y) (SFmul prec emax x y).
Proof.
  intros Hx Hy.
  destruct x as [sx| | |sx mx ex]; try discriminate Hx;
    destruct y as [sy| | |sy my ey]; try discriminate Hy; cbn [SFmul];
    try (intros _; apply tight_zero; cbn; ring).
  intro Hfin.
  pose proof (round64_exact_tight (xorb sx sy) (mx * my) (ex + ey) Hfin) as A.
  assert (E : IZR (cond_Zopp (xorb sx sy) (Zpos (mx * my))) * bpow (ex + ey)
              = SF2R (S754_finite sx mx ex) * SF2R (S754_finite sy my ey)).
  { rewrite !SF2R_finite, cond_Zopp_IZR, Pos2Z.inj_mul, mult_IZR, bpow_add.
    destruct sx, sy; cbn [xorb]; ring. }
  now rewrite E in A.
Qed.

Lemma SFadd_tight (x y : spec_float) :
  SFfin x = true -> SFfin y = true -> SFfin (SFadd prec emax x y) = true ->
  tight (SF2R x + SF2R y) (SFadd prec emax x y).
Proof.
  intros Hx Hy.
  destruct x as [sx| | |sx mx ex]; try discriminate Hx;
    destruct y as [sy| | |sy my ey]; try discriminate Hy; cbn [SFadd].
  - intros _. apply tight_zero. cbn. ring.
  - intros _.
    replace (SF2R (S754_zero sx) + SF2R (S754_finite sy my ey))
      with (SF2R (S754_finite sy my ey)) by (cbn; ring).
    apply tight_self.
  - intros _.
    replace (SF2R (S754_finite sx mx ex) + SF2R (S754_zero sy))
      with (SF2R (S754_finite sx mx ex)) by (cbn; ring).
    apply tight_self.
  - set (ez := Z.min ex ey).
    set (M := (cond_Zopp sx (Zpos (fst (shl_align mx ex ez)))
               + cond_Zopp sy (Zpos (fst (shl_align my ey ez))))%Z).
    assert (E : IZR M * bpow ez
                = SF2R (S754_finite sx mx ex) + SF2R (S754_finite sy my ey)).
    { unfold M. rewrite plus_IZR, !cond_Zopp_IZR, !SF2R_finite.
      rewrite <- (shl_align_fst mx ex ez), <- (shl_align_fst my ey ez) by (unfold ez; lia).
      destruct sx, sy; ring. }
    rewrite <- E. apply normalize_tight.
Qed.

Lemma SFsub_tight (x y : spec_float) :
  SFfin x = true -> SFfin y = true -> SFfin (SFsub prec emax x y) = true ->
  tight (SF2R x - SF2R y) (SFsub prec emax x y).
Proof.
  intros Hx Hy.
  destruct x as [sx| | |sx mx ex]; try discriminate Hx;
    destruct y as [sy| | |sy my ey]; try discriminate Hy; cbn [SFsub].
  - intros _. apply tight_zero. cbn. ring.
  - intros _.
    replace (SF2R (S754_zero sx) - SF2R (S754_finite sy my ey))
      with (SF2R (S754_finite (negb sy) my ey))
      by (rewrite !SF2R_finite; cbn [SF2R]; destruct sy; cbn [negb]; ring).
    apply tight_self.
  - intros _.
    replace (SF2R (S754_finite sx mx ex) - SF2R (S754_zero sy))
      with (SF2R (S754_finite sx mx ex)) by (cbn; ring).
    apply tight_self.
  - set (ez := Z.min ex ey).
    set (M := (cond_Zopp sx (Zpos (fst (shl_align mx ex ez)))
               - cond_Zopp sy (Zpos (fst (shl_align my ey ez))))%Z).
    assert (E : IZR M * bpow ez
                = SF2R (S754_finite sx mx ex) - SF2R (S754_finite sy my ey)).
    { unfold M. rewrite minus_IZR, !cond_Zopp_IZR, !SF2R_finite.
      rewrite <- (shl_align_fst mx ex ez), <- (shl_align_fst my ey ez) by (unfold ez; lia).
      destruct sx, sy; ring. }
    rewrite <- E. apply normalize_tight.
Qed.

(** The quotient of the division core is less than one unit below. *)
Lemma div_core_upper (mx : positive) (ex : Z) (my : positive) (ey : Z) :
  let '(q, e', l) := SFdiv_core_binary prec emax (Zpos mx) ex (Zpos my) ey in
  IZR (Zpos mx) * bpow ex < (IZR q + 1) * bpow e' * (IZR (Zpos my) * bpow ey).
Proof.
  unfold SFdiv_core_binary.
  set (d1 := Zdigits2 (Zpos mx)). set (d2 := Zdigits2 (Zpos my)).
  set (e' := Z.min (fexp64 (d1 + ex - (d2 + ey))) (ex - ey)).
  set (s := (ex - ey - e')%Z).
  assert (Hs : (0 <= s)%Z) by (unfold s, e'; lia).
  set (m' := match s with
             | Zpos _ => Z.shiftl (Zpos mx) s
             | Z0 => Zpos mx
             | Zneg _ => 0%Z
             end).
  assert (Hm' : m' = (Zpos mx * 2 ^ s)%Z).
  { unfold m'. destruct s as [|p|p]; [rewrite Z.pow_0_r; lia| |lia].
    apply Z.shiftl_mul_pow2. lia. }
  pose proof (Z_div_mod m' (Zpos my) ltac:(lia)) as Hdm.
  destruct (Z.div_eucl m' (Zpos my)) as [q r]. destruct Hdm as [Hq Hr].
  assert (Hpow : (0 < 2 ^ s)%Z) by (apply Z.pow_pos_nonneg; lia).
  assert (HmyR : 0 < IZR (Zpos my)) by (apply IZR_lt; lia).
  pose proof (bpow_gt_0 ex) as Pex. pose proof (bpow_gt_0 ey) as Pey.
  pose proof (bpow_gt_0 e') as Pe'.
  assert (H1 : (Zpos mx * 2 ^ s < (q + 1) * Zpos my)%Z) by nia.
  apply IZR_lt in H1. rewrite !mult_IZR, plus_IZR, <- bpow_IZR in H1 by assumption.
  assert (Eex : bpow ex = bpow s * bpow e' * bpow ey).
  { rewrite <- !bpow_add. f_equal. unfold s. lia. }
  rewrite Eex.
  assert (0 < bpow e' * bpow ey) by nra.
  replace ((IZR q + 1) * bpow e' * (IZR (Zpos my) * bpow ey))
    with ((IZR q + 1) * IZR (Zpos my) * (bpow e' * bpow ey)) by ring.
  replace (IZR (Zpos mx) * (bpow s * bpow e' * bpow ey))
    with (IZR (Zpos mx) * bpow s * (bpow e' * bpow ey)) by ring.
  apply Rmult_lt_compat_r; lra.
Qed.

Lemma SFdiv_tight (x : spec_float) (sy : bool) (my : positive) (ey : Z) :
  SFfin x = true ->
  let y := S754_finite sy my ey in
  SFfin (SFdiv prec emax x y) = true ->
  tight (SF2R x / SF2R y) (SFdiv prec emax x y).
Proof.
  intros Hx y.
  assert (HmyR : 0 < IZR (Zpos my)) by (apply IZR_lt; lia).
  pose proof (bpow_gt_0 ey) as Pey.
  set (B := IZR (Zpos my) * bpow ey).
  assert (HB : 0 < B) by (unfold B; nra).
  assert (Hy : SF2R y = if sy then - B else B) by (unfold y; apply SF2R_finite).
  destruct x as [sx| | |sx mx ex]; try discriminate Hx.
  - intros _. apply tight_zero. cbn [SF2R]. unfold Rdiv. ring.
  - assert (HmxR : 0 < IZR (Zpos mx)) by (apply IZR_lt; lia).
    pose proof (bpow_gt_0 ex) as Pex.
    set (A := IZR (Zpos mx) * bpow ex).
    assert (HA : 0 < A) by (unfold A; nra).
    assert (HxR : SF2R (S754_finite sx mx ex) = if sx then - A else A) by apply SF2R_finite.
    set (Q := A / B).
    assert (HQ : 0 < Q) by (unfold Q; apply Rdiv_lt_0_compat; assumption).
    assert (HE : SF2R (S754_finite sx mx ex) / SF2R y
                 = if xorb sx sy then - Q else Q).
    { rewrite HxR, Hy. unfold Q. destruct sx, sy; cbn [xorb]; field; lra. }
    rewrite HE.
    assert (HabsE : Rabs (if xorb sx sy then - Q else Q) = Q).
    { destruct (xorb sx sy); [rewrite Rabs_left|rewrite Rabs_right]; lra. }
    unfold tight. rewrite HabsE, SF2R_abs.
    cbn [SFdiv y].
    pose proof (div_core_spec mx ex my ey) as Hc.
    pose proof (div_core_upper mx ex my ey) as Hu.
    destruct (SFdiv_core_binary prec emax (Zpos mx) ex (Zpos my) ey) as [[q e'] l].
    destruct Hc as (Hq & Hq1 & Hq2). fold A in Hq1, Hq2, Hu. fold B in Hq1, Hq2, Hu.
    intro Hfin.
    assert (HuQ : Q < (IZR q + 1) * bpow e').
    { apply Rmult_lt_reg_r with B; [assumption|].
      replace (Q * B) with A by (unfold Q; field; lra). lra. }
    assert (HeQ : bpow e' <= Q * bpow (-52) + bpow (-1074)).
    { apply Rmult_le_reg_r with B; [assumption|].
      replace ((Q * bpow (-52) + bpow (-1074)) * B)
        with (Q * B * bpow (-52) + bpow (-1074) * B) by ring.
      replace (Q * B) with A by (unfold Q; field; lra). lra. }
    pose proof (round64_lower (xorb sx sy) q e' l Hq Hfin) as Hl.
    pose proof (bpow_gt_0 e') as Pe'. pose proof (bpow_gt_0 (-1074)) as P1074.
    assert (P52 : 0 < bpow (-52) < / 2).
    { split; [apply bpow_gt_0|].
      assert (bpow (-52) < bpow (-1)) by (apply bpow_lt; lia).
      assert (bpow (-1) = / 2) by (unfold bpow; simpl; lra). lra. }
    assert (Hq0 : 0 <= IZR q) by (apply IZR_le; assumption).
    rewrite u64_eq, eta64_eq in *.
    replace ((IZR q + 1) * bpow e') with (IZR q * bpow e' + bpow e') in HuQ by ring.
    set (X := IZR q * bpow e') in *. assert (0 <= X) by (unfold X; nra).
    set (a := bpow (-52)) in *. set (b := bpow (-1074)) in *.
    assert (X >= Q * (1 - a) - b) by lra.
    assert (X * (1 - 2 * a) >= (Q * (1 - a) - b) * (1 - 2 * a)) by nra.
    nra.
Qed.

(** * Float operations within an absolute error *)

Lemma err_pos : 0 < err.
Proof. unfold err. lra. Qed.

Lemma Rabs_le_inv (x b : R) : Rabs x <= b -> - b <= x <= b.
Proof. unfold Rabs. destruct (Rcase_abs x); lra. Qed.

Lemma approx_tight_err (E : R) (r : spec_float) :
  approx E r -> tight E r -> Rabs E <= 1000 -> Rabs (SF2R r - E) <= err.
Proof.
  intros (_ & Hup & Hpos & Hneg) Hlo HE. unfold tight in Hlo.
  pose proof u64_le_eps. pose proof eta64_le_eps. pose proof u64_pos. pose proof eta64_pos.
  unfold eps, err in *.
  destruct (Rle_dec 0 E) as [HE0|HE0].
  - specialize (Hpos HE0). rewrite (Rabs_right E) in * by lra.
    rewrite (Rabs_right (SF2R r)) in * by lra.
    apply Rabs_le. nra.
  - assert (HE0' : E <= 0) by lra. specialize (Hneg HE0').
    rewrite (Rabs_left1 E) in * by lra.
    rewrite (Rabs_left1 (SF2R r)) in * by lra.
    apply Rabs_le. nra.
Qed.

Section Errors.

Variables x y : float.
Hypotheses (Hx : Ffin x) (Hy : Ffin y).

Lemma Fmul_err :
  Rabs (F2R x * F2R y) <= 1000 ->
  Ffin (x * y) /\ Rabs (F2R (x * y) - F2R x * F2R y) <= err.
Proof.
  intro HE.
  pose proof (Fmul_approx x y Hx Hy (in_reach_small (F2R x * F2R y) ltac:(lra))) as A.
  assert (F : Ffin (x * y)) by apply A.
  split; [assumption|]. apply approx_tight_err; [assumption| |assumption].
  rewrite FloatAxioms.mul_spec. apply SFmul_tight; try assumption.
  rewrite <- FloatAxioms.mul_spec. exact F.
Qed.

Lemma Fadd_err :
  Rabs (F2R x + F2R y) <= 1000 ->
  Ffin (x + y) /\ Rabs (F2R (x + y) - (F2R x + F2R y)) <= err.
Proof.
  intro HE.
  pose proof (Fadd_approx x y Hx Hy (in_reach_small (F2R x + F2R y) ltac:(lra))) as A.
  assert (F : Ffin (x + y)) by apply A.
  split; [assumption|]. apply approx_tight_err; [assumption| |assumption].
  rewrite FloatAxioms.add_spec. apply SFadd_tight; try assumption.
  rewrite <- FloatAxioms.add_spec. exact F.
Qed.

Lemma Fsub_err :
  Rabs (F2R x - F2R y) <= 1000 ->
  Ffin (x - y) /\ Rabs (F2R (x - y) - (F2R x - F2R y)) <= err.
Proof.
  intro HE.
  pose proof (Fsub_approx x y Hx Hy (in_reach_small (F2R x - F2R y) ltac:(lra))) as A.
  assert (F : Ffin (x - y)) by apply A.
  split; [assumption|]. apply approx_tight_err; [assumption| |assumption].
  rewrite FloatAxioms.sub_spec. apply SFsub_tight; try assumption.
  rewrite <- FloatAxioms.sub_spec. exact F.
Qed.

Lemma Fnonzero : F2R y <> 0 -> (y =? 0)%float = false.
Proof.
  intro H. destruct (y =? 0)%float eqn:E; [|reflexivity].
  apply Feqb_true in E; auto using Ffin_zero. rewrite F2R_zero in E. contradiction.
Qed.

Lemma Fdiv_err :
  F2R y <> 0 -> Rabs (F2R x / F2R y) <= 1000 ->
  fdiv x y = Ok (x / y)%float
  /\ Ffin (x / y) /\ Rabs (F2R (x / y) - F2R x / F2R y) <= err.
Proof.
  intros Hnz HE. pose proof (Fnonzero Hnz) as Hz.
  destruct (Fdiv_approx x y Hx Hy Hz (in_reach_small (F2R x / F2R y) ltac:(lra))) as [Ed A].
  assert (F : Ffin (x / y)) by apply A.
  split; [assumption|]. split; [assumption|].
  apply approx_tight_err; [assumption| |assumption].
  destruct (Feqb_zero_false y Hy Hz) as (s & m & e & E).
  unfold Ffin in F. rewrite FloatAxioms.div_spec in F |- *.
  unfold F2R. rewrite E in *. now apply SFdiv_tight.
Qed.

End Errors.

(** ** The value of [x % 1.0] *)

Lemma SFfmod_one_value (x : spec_float) :
  valid_binary x = true -> SFfin x = true ->
  exists k : Z, SF2R (SFfmod x one64) = SF2R x - IZR k.
Proof.
  intros Vx Fx. unfold one64.
  destruct x as [sx|sx| |sx mx ex]; try discriminate Fx; cbn [SFfmod].
  - exists 0%Z. cbn. ring.
  - destruct (valid_finite _ _ _ Vx) as [Cx Hex].
    destruct (canonical_bounds _ _ Cx) as (Hmx & Hemin & _).
    set (e := Z.min ex (-52)).
    set (X := (Zpos mx * 2 ^ (ex - e))%Z).
    set (Y := (4503599627370496 * 2 ^ (-52 - e))%Z).
    assert (HY : (0 < Y)%Z).
    { unfold Y. assert (0 < 2 ^ (-52 - e))%Z by (apply Z.pow_pos_nonneg; unfold e; lia). lia. }
    assert (HX : (0 < X)%Z).
    { unfold X. assert (0 < 2 ^ (ex - e))%Z by (apply Z.pow_pos_nonneg; unfold e; lia). lia. }
    pose proof (Z.mod_pos_bound X Y HY) as Hmod.
    pose proof (Z.mod_le X Y ltac:(lia) HY) as Hle.
    pose proof (Z.div_mod X Y ltac:(lia)) as Hdm.
    pose proof (bpow_gt_0 e) as Pe.
    assert (EY : IZR Y * bpow e = 1).
    { unfold Y. rewrite mult_IZR, <- bpow_IZR by (unfold e; lia).
      change (IZR 4503599627370496) with (IZR (2 ^ 52)).
      rewrite <- (bpow_IZR 52) by lia.
      rewrite <- !bpow_add. replace (52 + (-52 - e) + e)%Z with 0%Z by lia. apply bpow_0. }
    assert (EX : IZR X * bpow e = IZR (Zpos mx) * bpow ex).
    { unfold X. rewrite mult_IZR, <- bpow_IZR by (unfold e; lia).
      rewrite Rmult_assoc, <- bpow_add. f_equal. f_equal. lia. }
    assert (Ediv : IZR X * bpow e = IZR (X / Y) + IZR (X mod Y) * bpow e).
    { rewrite Hdm at 1. rewrite plus_IZR, mult_IZR.
      replace ((IZR Y * IZR (X / Y) + IZR (X mod Y)) * bpow e)
        with (IZR (X / Y) * (IZR Y * bpow e) + IZR (X mod Y) * bpow e) by ring.
      rewrite EY. ring. }
    rewrite SF2R_finite, <- EX, Ediv.
    destruct (X mod Y)%Z as [|r0|r0] eqn:Er.
    + exists (if sx then (- (X / Y))%Z else (X / Y)%Z).
      cbn [SF2R]. destruct sx; [rewrite opp_IZR|]; ring.
    + assert (Hr53 : (Zpos r0 < 2 ^ 53)%Z).
      { destruct (Z_le_gt_dec ex (-52)) as [H|H].
        - assert (e = ex) by (unfold e; lia).
          assert (X = Zpos mx).
          { unfold X. replace (ex - e)%Z with 0%Z by lia. rewrite Z.pow_0_r. lia. }
          lia.
        - assert (e = (-52)%Z) by (unfold e; lia).
          assert (Y = 4503599627370496%Z).
          { unfold Y. replace (-52 - e)%Z with 0%Z by lia. rewrite Z.pow_0_r. lia. }
          change (2 ^ 53)%Z with 9007199254740992%Z. lia. }
      destruct (normalize_exact sx r0 e Hr53 ltac:(unfold e; lia))
        as (m' & e' & Hn & Hv & Hval).
      rewrite Hn, SF2R_finite, Hval.
      exists (if sx then (- (X / Y))%Z else (X / Y)%Z).
      destruct sx; [rewrite opp_IZR|]; ring.
    + lia.
Qed.

Lemma fmod_py_one_value (x : float) :
  Ffin x ->
  exists (h : float) (k : Z),
    fmod_py x 1 = Ok h /\ Ffin h /\ 0 <= F2R h <= 1 + 3 * eps
    /\ Rabs (F2R h - (F2R x - IZR k)) <= err.
Proof.
  intro Fx. unfold fmod_py.
  assert (E10 : (1 =? 0)%float = false) by reflexivity.
  assert (L10 : (1 <? 0)%float = false) by reflexivity.
  assert (S1 : get_sign 1 = false) by reflexivity.
  rewrite E10, L10, S1. clear E10 L10 S1.
  set (m := c_fmod x 1).
  destruct (SFfmod_one_spec (Prim2SF x) (Prim2SF_valid x)) as [Vr Hr].
  destruct (SFfmod_one_value (Prim2SF x) (Prim2SF_valid x) Fx) as (k & Hk).
  assert (Em : Prim2SF m = SFfmod (Prim2SF x) one64).
  { unfold m, c_fmod. rewrite Prim2SF_one. now apply Prim2SF_SF2Prim. }
  assert (Vm0 : F2R m = F2R x - IZR k) by (unfold F2R; now rewrite Em).
  rewrite FloatAxioms.eqb_spec, FloatAxioms.ltb_spec, Prim2SF_zero, Em.
  pose proof eps_pos as Peps. pose proof err_pos as Perr.
  destruct Hr as [[Hx Hr]|(Hx & Hf & Hmag)].
  { unfold Ffin in Fx. congruence. }
  destruct (SFfmod (Prim2SF x) one64) as [sr| | |sr mr er] eqn:Er; try discriminate Hf.
  - cbn. exists 0%float, k. split; [reflexivity|]. split; [apply Ffin_zero|].
    rewrite F2R_zero. split; [lra|].
    assert (F2R m = 0) by (unfold F2R; rewrite Em; reflexivity).
    replace (0 - (F2R x - IZR k)) with 0 by lra. rewrite Rabs_R0. lra.
  - cbn [SFmag] in Hmag.
    assert (Hpos : 0 < IZR (Zpos mr) * bpow er).
    { pose proof (bpow_gt_0 er). assert (0 < IZR (Zpos mr)) by (apply IZR_lt; lia). nra. }
    assert (Fm : Ffin m) by (unfold Ffin; now rewrite Em).
    assert (Vm : F2R m = if sr then - (IZR (Zpos mr) * bpow er) else IZR (Zpos mr) * bpow er).
    { unfold F2R. rewrite Em. apply SF2R_finite. }
    set (mag := IZR (Zpos mr) * bpow er) in *. clearbody mag.
    destruct sr; cbn; cbv iota in Vm.
    + exists (m + 1)%float, (k - 1)%Z. split; [reflexivity|].
      destruct F2R_one as [F1 V1].
      assert (HE : 0 <= F2R m + F2R 1 <= 1) by (rewrite Vm, V1; lra).
      assert (HR : Rabs (F2R m + F2R 1) <= 1000).
      { rewrite Rabs_right; [lra|apply Rle_ge; apply HE]. }
      destruct (Fadd_err m 1 Fm F1 HR) as [Fa Va].
      pose proof (Fadd_approx m 1 Fm F1
                    (in_reach_small (F2R m + F2R 1) ltac:(lra))) as A.
      pose proof (approx_nonneg _ _ _ A HE) as Hn. fold (F2R (m + 1)) in Hn.
      split; [assumption|]. rewrite minus_IZR.
      apply Rabs_le_inv in Va. unfold err, eps in *.
      split; [lra|]. apply Rabs_le. lra.
    + exists m, k. split; [reflexivity|]. split; [assumption|].
      split; [lra|]. rewrite Vm0.
      replace (F2R x - IZR k - (F2R x - IZR k)) with 0 by ring. rewrite Rabs_R0. lra.
Qed.

(** ** Integers as floats, exactly *)

Lemma float_of_int_exact (z : Z) :
  (Z.abs z < 2 ^ 53)%Z ->
  exists f, float_of_int z = Ok f /\ Ffin f /\ F2R f = IZR z.
Proof.
  intro Hz. unfold float_of_int.
  set (x := binary_normalize prec emax z 0 false).
  assert (Hx : valid_binary x = true /\ SFfin x = true /\ SF2R x = IZR z).
  { unfold x. destruct z as [|p|p].
    - repeat split; reflexivity.
    - destruct (normalize_exact false p 0 ltac:(lia) ltac:(lia)) as (m & e & E & V & Hv).
      cbn [cond_Zopp] in E. rewrite E. split; [assumption|]. split; [reflexivity|].
      rewrite SF2R_finite, Hv, bpow_0. ring.
    - destruct (normalize_exact true p 0 ltac:(lia) ltac:(lia)) as (m & e & E & V & Hv).
      cbn [cond_Zopp Z.opp] in E. rewrite E. split; [assumption|]. split; [reflexivity|].
      rewrite SF2R_finite, Hv, bpow_0. change (Zneg p) with (- Zpos p)%Z.
      rewrite opp_IZR. ring. }
  destruct Hx as (Vx & Fx & Ex).
  assert (Ff : Ffin (SF2Prim x)) by (unfold Ffin; now rewrite Prim2SF_SF2Prim).
  rewrite (is_infinity_fin _ Ff). exists (SF2Prim x).
  split; [reflexivity|]. split; [assumption|].
  unfold F2R. now rewrite Prim2SF_SF2Prim.
Qed.

(** [z / d] for an integer [z] and a float [d] that is a positive integer. *)
Lemma int_over_float (z : Z) (d : float) (D : R) :
  (Z.abs z <= 1000)%Z -> Ffin d -> F2R d = D -> 1 <= D ->
  exists f, num_truediv (PInt z) (PFloat d) = Ok f
    /\ Ffin f /\ Rabs (F2R f - IZR z / D) <= err.
Proof.
  intros Hz Fd Vd HD.
  destruct (float_of_int_exact z) as (fz & Ez & Fz & Vz).
  { change (2 ^ 53)%Z with 9007199254740992%Z. lia. }
  cbn [num_truediv to_float]. rewrite Ez. cbn [bind].
  assert (Hzr : Rabs (IZR z) <= 1000).
  { rewrite <- abs_IZR. apply IZR_le. exact Hz. }
  destruct (Fdiv_err fz d Fz Fd) as (E & F & V).
  - rewrite Vd. lra.
  - rewrite Vz, Vd. unfold Rdiv. rewrite Rabs_mult, (Rabs_right (/ D)).
    + assert (0 < / D <= 1).
      { split; [apply Rinv_0_lt_compat; lra|].
        rewrite <- Rinv_1. apply Rinv_le_contravar; lra. }
      pose proof (Rabs_pos (IZR z)). nra.
    + apply Rle_ge. left. apply Rinv_0_lt_compat. lra.
  - rewrite E. exists (fz / d)%float. split; [reflexivity|]. split; [assumption|].
    now rewrite Vz, Vd in V.
Qed.

(** * The round trip in real numbers *)

Lemma trap_unit (u w : R) : trap u w -> 0 <= u <= 1 /\ 0 <= w <= 1.
Proof. unfold trap. intros [H|[H|[H|H]]]; lra. Qed.

Lemma trap_total (u : R) : 0 <= u <= 1 -> exists w, trap u w.
Proof.
  intro H. unfold trap.
  destruct (Rle_dec u (/ 6)); [exists (6 * u); lra|].
  destruct (Rle_dec u (/ 2)); [exists 1; lra|].
  destruct (Rle_dec u (2 / 3)); [exists (4 - 6 * u); lra|].
  exists 0. lra.
Qed.

(** The weight moves at most six times as fast as the hue, around the
    circle. *)
Lemma trap_lipschitz (u w u' w' : R) (k : Z) (d : R) :
  trap u w -> trap u' w' -> Rabs (u' - u - IZR k) <= d -> d <= / 10 ->
  Rabs (w' - w) <= 6 * d.
Proof.
  intros T T' H Hd. apply Rabs_le_inv in H.
  destruct (trap_unit u w T) as [Hu _]. destruct (trap_unit u' w' T') as [Hu' _].
  assert (Hk : (-1 <= k <= 1)%Z).
  { assert (H1 : (-2 < k)%Z) by (apply lt_IZR; lra).
    assert (H2 : (k < 2)%Z) by (apply lt_IZR; lra). lia. }
  assert (Hk' : k = (-1)%Z \/ k = 0%Z \/ k = 1%Z) by lia.
  apply Rabs_le. unfold trap in T, T'.
  destruct Hk' as [ -> | [ -> | -> ] ];
    destruct T as [T|[T|[T|T]]]; destruct T' as [T'|[T'|[T'|T']]]; lra.
Qed.

Lemma ratio_spec (a d : R) : 0 < d -> a / d * d = a.
Proof. intro H. field. lra. Qed.

Lemma ratio_unit (a d : R) : 0 < d -> 0 <= a <= d -> 0 <= a / d <= 1.
Proof.
  intros Hd Ha. pose proof (ratio_spec a d Hd) as E.
  assert (Hi : 0 < / d) by (apply Rinv_0_lt_compat; lra).
  unfold Rdiv in *. split.
  - apply Rmult_le_pos; lra.
  - apply Rmult_le_reg_r with d; [lra|]. rewrite E. lra.
Qed.

Lemma ratio_neg (a d : R) : 0 < d -> - d <= a <= 0 -> -1 <= a / d <= 0.
Proof.
  intros Hd Ha. pose proof (ratio_unit (- a) d Hd ltac:(lra)) as H.
  replace (- a / d) with (- (a / d)) in H by (field; lra). lra.
Qed.

Ltac weigh k u w :=
  exists k, u, w; split; [unfold trap; lra|split; [simpl IZR; lra|lra]].

(** The three channels of a triple that is not a grey are the values of
    [_v] at its hue, moved by a third of a turn for red and blue. *)
Lemma channel_weights (r g b : Z) :
  (Z.min r (Z.min g b) < Z.max r (Z.max g b))%Z ->
  weight_of (hue_sixth r g b) (/ 3) r (Z.min r (Z.min g b)) (Z.max r (Z.max g b))
  /\ weight_of (hue_sixth r g b) 0 g (Z.min r (Z.min g b)) (Z.max r (Z.max g b))
  /\ weight_of (hue_sixth r g b) (- / 3) b (Z.min r (Z.min g b)) (Z.max r (Z.max g b)).
Proof.
  intro Hlt. unfold hue_sixth, weight_of.
  set (M := Z.max r (Z.max g b)) in *. set (m := Z.min r (Z.min g b)) in *.
  assert (Hd : 0 < IZR (M - m)) by (apply IZR_lt; lia).
  rewrite !minus_IZR in *.
  destruct (Z.eqb_spec r M) as [ErM|NrM].
  - (* red is the largest *)
    destruct (Z_le_gt_dec b g) as [Hbg|Hbg].
    + assert (Em : m = b) by lia. rewrite <- ErM, Em in *.
      assert (Hgb : 0 <= IZR g - IZR b <= IZR r - IZR b).
      { assert (IZR b <= IZR g) by (apply IZR_le; lia).
        assert (IZR g <= IZR r) by (apply IZR_le; lia). lra. }
      pose proof (ratio_unit _ _ Hd Hgb) as Hq. pose proof (ratio_spec (IZR g - IZR b) _ Hd) as Eq.
      set (q := (IZR g - IZR b) / (IZR r - IZR b)) in *.
      split; [|split].
      * weigh 0%Z (q / 6 + / 3) 1.
      * weigh 0%Z (q / 6) q.
      * weigh (-1)%Z (q / 6 + 2 / 3) 0.
    + assert (Em : m = g) by lia. rewrite <- ErM, Em in *.
      assert (Hgb : - (IZR r - IZR g) <= IZR g - IZR b <= 0).
      { assert (IZR g <= IZR b) by (apply IZR_le; lia).
        assert (IZR b <= IZR r) by (apply IZR_le; lia). lra. }
      pose proof (ratio_neg _ _ Hd Hgb) as Hq. pose proof (ratio_spec (IZR g - IZR b) _ Hd) as Eq.
      set (q := (IZR g - IZR b) / (IZR r - IZR g)) in *.
      split; [|split].
      * weigh 0%Z (q / 6 + / 3) 1.
      * weigh (-1)%Z (q / 6 + 1) 0.
      * weigh (-1)%Z (q / 6 + 2 / 3) (- q).
  - destruct (Z.eqb_spec g M) as [EgM|NgM].
    + (* green is the largest *)
      destruct (Z_le_gt_dec r b) as [Hrb|Hrb].
      * assert (Em : m = r) by lia. rewrite <- EgM, Em in *.
        assert (Hbr : 0 <= IZR b - IZR r <= IZR g - IZR r).
        { assert (IZR r <= IZR b) by (apply IZR_le; lia).
          assert (IZR b <= IZR g) by (apply IZR_le; lia). lra. }
        pose proof (ratio_unit _ _ Hd Hbr) as Hq. pose proof (ratio_spec (IZR b - IZR r) _ Hd) as Eq.
        set (q := (IZR b - IZR r) / (IZR g - IZR r)) in *.
        split; [|split].
        -- weigh 0%Z ((2 + q) / 6 + / 3) 0.
        -- weigh 0%Z ((2 + q) / 6) 1.
        -- weigh 0%Z (q / 6) q.
      * assert (Em : m = b) by lia. rewrite <- EgM, Em in *.
        assert (Hbr : - (IZR g - IZR b) <= IZR b - IZR r <= 0).
        { assert (IZR b <= IZR r) by (apply IZR_le; lia).
          assert (IZR r <= IZR g) by (apply IZR_le; lia). lra. }
        pose proof (ratio_neg _ _ Hd Hbr) as Hq. pose proof (ratio_spec (IZR b - IZR r) _ Hd) as Eq.
        set (q := (IZR b - IZR r) / (IZR g - IZR b)) in *.
        split; [|split].
        -- weigh 0%Z ((2 + q) / 6 + / 3) (- q).
        -- weigh 0%Z ((2 + q) / 6) 1.
        -- weigh (-1)%Z (q / 6 + 1) 0.
    + (* blue is the largest *)
      assert (EbM : b = M) by lia.
      destruct (Z_le_gt_dec g r) as [Hgr|Hgr].
      * assert (Em : m = g) by lia. rewrite <- EbM, Em in *.
        assert (Hrg : 0 <= IZR r - IZR g <= IZR b - IZR g).
        { assert (IZR g <= IZR r) by (apply IZR_le; lia).
          assert (IZR r <= IZR b) by (apply IZR_le; lia). lra. }
        pose proof (ratio_unit _ _ Hd Hrg) as Hq. pose proof (ratio_spec (IZR r - IZR g) _ Hd) as Eq.
        set (q := (IZR r - IZR g) / (IZR b - IZR g)) in *.
        split; [|split].
        -- weigh 1%Z (q / 6) q.
        -- weigh 0%Z ((4 + q) / 6) 0.
        -- weigh 0%Z ((4 + q) / 6 - / 3) 1.
      * assert (Em : m = r) by lia. rewrite <- EbM, Em in *.
        assert (Hrg : - (IZR b - IZR r) <= IZR r - IZR g <= 0).
        { assert (IZR r <= IZR g) by (apply IZR_le; lia).
          assert (IZR g <= IZR b) by (apply IZR_le; lia). lra. }
        pose proof (ratio_neg _ _ Hd Hrg) as Hq. pose proof (ratio_spec (IZR r - IZR g) _ Hd) as Eq.
        set (q := (IZR r - IZR g) / (IZR b - IZR r)) in *.
        split; [|split].
        -- weigh 0%Z ((4 + q) / 6 + / 3) 0.
        -- weigh 0%Z ((4 + q) / 6) (- q).
        -- weigh 0%Z ((4 + q) / 6 - / 3) 1.
Qed.

(** * From RGB to HSL: the values *)

(** ** The channels as floats *)

Lemma chan_value (k : Z) :
  in_byte k -> Ffin (chan k) /\ Rabs (F2R (chan k) - IZR k / 255) <= err.
Proof.
  intro Hk. float_lit 255%float L. destruct L as [F255 V255].
  destruct (int_over_float k 255 255) as (f & E & Ff & Vf);
    [unfold in_byte in Hk; lia|assumption|lra|lra|].
  unfold chan. rewrite E. now split.
Qed.

Lemma chan_lt (a b : Z) :
  in_byte a -> in_byte b -> (a < b)%Z -> F2R (chan a) < F2R (chan b).
Proof.
  intros Ha Hb Hab.
  destruct (chan_value a Ha) as [_ Va]. destruct (chan_value b Hb) as [_ Vb].
  apply Rabs_le_inv in Va, Vb.
  assert (IZR a + 1 <= IZR b) by (rewrite <- plus_IZR; apply IZR_le; lia).
  unfold err in *. lra.
Qed.

Lemma chan_ltb (a b : Z) :
  in_byte a -> in_byte b -> (chan a <? chan b)%float = (a <? b)%Z.
Proof.
  intros Ha Hb.
  destruct (chan_value a Ha) as [Fa _]. destruct (chan_value b Hb) as [Fb _].
  destruct (Z.ltb_spec a b) as [Hab|Hab].
  - destruct (chan a <? chan b)%float eqn:E; [reflexivity|].
    apply Fltb_false in E; try assumption.
    pose proof (chan_lt a b Ha Hb Hab). lra.
  - destruct (chan a <? chan b)%float eqn:E; [|reflexivity].
    apply Fltb_true in E; try assumption.
    destruct (Z.eq_dec a b) as [ -> |Ne]; [lra|].
    pose proof (chan_lt b a Hb Ha ltac:(lia)). lra.
Qed.

Lemma chan_eqb (a b : Z) :
  in_byte a -> in_byte b -> (chan a =? chan b)%float = (a =? b)%Z.
Proof.
  intros Ha Hb.
  destruct (chan_value a Ha) as [Fa _]. destruct (chan_value b Hb) as [Fb _].
  destruct (Z.eqb_spec a b) as [ -> |Ne].
  - destruct (chan b =? chan b)%float eqn:E; [reflexivity|].
    apply Feqb_false in E; try assumption. contradiction.
  - destruct (chan a =? chan b)%float eqn:E; [|reflexivity].
    apply Feqb_true in E; try assumption.
    destruct (Z_lt_le_dec a b) as [H|H].
    + pose proof (chan_lt a b Ha Hb H). lra.
    + pose proof (chan_lt b a Hb Ha ltac:(lia)). lra.
Qed.

Lemma max3_chan (r g b : Z) :
  in_byte r -> in_byte g -> in_byte b ->
  colorsys.max3 (chan r) (chan g) (chan b) = chan (Z.max r (Z.max g b)).
Proof.
  intros Hr Hg Hb. unfold colorsys.max3.
  rewrite (chan_ltb r g Hr Hg).
  destruct (Z.ltb_spec r g).
  - rewrite (chan_ltb g b Hg Hb). destruct (Z.ltb_spec g b); f_equal; lia.
  - rewrite (chan_ltb r b Hr Hb). destruct (Z.ltb_spec r b); f_equal; lia.
Qed.

Lemma min3_chan (r g b : Z) :
  in_byte r -> in_byte g -> in_byte b ->
  colorsys.min3 (chan r) (chan g) (chan b) = chan (Z.min r (Z.min g b)).
Proof.
  intros Hr Hg Hb. unfold colorsys.min3.
  rewrite (chan_ltb g r Hg Hr).
  destruct (Z.ltb_spec g r).
  - rewrite (chan_ltb b g Hb Hg). destruct (Z.ltb_spec b g); f_equal; lia.
  - rewrite (chan_ltb b r Hb Hr). destruct (Z.ltb_spec b r); f_equal; lia.
Qed.

(** ** Quotients of approximations *)

Lemma Rdiv_close (a b a' b' e : R) :
  0 <= a <= b -> / 255 <= b ->
  Rabs (a' - a) <= e -> Rabs (b' - b) <= e -> e <= / 1000000 ->
  Rabs (a' / b' - a / b) <= 600 * e.
Proof.
  intros Ha Hb Da Db He. apply Rabs_le_inv in Da, Db.
  assert (Hb0 : 0 < b) by lra.
  assert (Hb' : / 256 <= b') by lra.
  assert (Hb'0 : 0 < b') by lra.
  pose proof (ratio_unit a b Hb0 Ha) as HQ. pose proof (ratio_spec a b Hb0) as EQ.
  pose proof (ratio_spec a' b' Hb'0) as EQ'.
  set (Q := a / b) in *. set (Q' := a' / b') in *.
  assert (He0 : 0 <= e) by lra.
  assert (H1 : - e <= Q * (b' - b) <= e) by (split; nra).
  assert (H2 : (Q' - Q) * b' = a' - a - Q * (b' - b)) by (ring_simplify; lra).
  assert (H3 : - (2 * e) <= (Q' - Q) * b' <= 2 * e) by lra.
  apply Rabs_le. split; nra.
Qed.

(** ** Lightness, saturation and hue of [rgb_to_hls] *)

Lemma chan_unit (k : Z) : in_byte k -> - err <= F2R (chan k) <= 1 + err.
Proof.
  intro Hk. destruct (chan_value k Hk) as [_ V]. apply Rabs_le_inv in V.
  destruct Hk as [H0 H1]. apply IZR_le in H0, H1. unfold err in *. lra.
Qed.

(** The difference of two channels, as a float. *)
Lemma chan_diff (x y : Z) :
  in_byte x -> in_byte y ->
  Ffin (chan x - chan y)
  /\ Rabs (F2R (chan x - chan y) - IZR (x - y) / 255) <= 3 * err.
Proof.
  intros Hx Hy.
  destruct (chan_value x Hx) as [Fx Vx]. destruct (chan_value y Hy) as [Fy Vy].
  pose proof (chan_unit x Hx) as Ux. pose proof (chan_unit y Hy) as Uy.
  destruct (Fsub_err (chan x) (chan y) Fx Fy) as [Fd Vd].
  { apply Rabs_le. unfold err in *. lra. }
  split; [assumption|]. rewrite minus_IZR.
  apply Rabs_le_inv in Vx, Vy, Vd. apply Rabs_le. unfold err in *. lra.
Qed.

(** The quotients [(maxc - x) / rangec]. *)
Lemma chan_quotient (x M m : Z) :
  in_byte x -> in_byte M -> in_byte m -> (m <= x <= M)%Z -> (m < M)%Z ->
  fdiv (chan M - chan x) (chan M - chan m) = Ok ((chan M - chan x) / (chan M - chan m))%float
  /\ Ffin ((chan M - chan x) / (chan M - chan m))
  /\ Rabs (F2R ((chan M - chan x) / (chan M - chan m)) - IZR (M - x) / IZR (M - m))
     <= 2000 * err.
Proof.
  intros Hx HM Hm Hxm Hlt.
  destruct (chan_diff M x HM Hx) as [Fa Va]. destruct (chan_diff M m HM Hm) as [Fb Vb].
  set (a' := F2R (chan M - chan x)) in *. set (b' := F2R (chan M - chan m)) in *.
  assert (Ha : 0 <= IZR (M - x) <= IZR (M - m)) by (split; apply IZR_le; lia).
  assert (Hb : 1 <= IZR (M - m)) by (apply IZR_le; lia).
  assert (Hc : Rabs (a' / b' - IZR (M - x) / 255 / (IZR (M - m) / 255)) <= 600 * (3 * err)).
  { apply Rdiv_close; try assumption; unfold err; lra. }
  replace (IZR (M - x) / 255 / (IZR (M - m) / 255)) with (IZR (M - x) / IZR (M - m)) in Hc
    by (field; lra).
  pose proof (ratio_unit (IZR (M - x)) (IZR (M - m)) ltac:(lra) Ha) as HQ.
  apply Rabs_le_inv in Hc, Vb.
  assert (Hb'0 : 0 < b') by (unfold err in *; lra).
  assert (Hb' : b' <> 0) by (apply Rgt_not_eq; lra).
  destruct (Fdiv_err _ _ Fa Fb Hb') as (E & F & V).
  { fold a' b'. apply Rabs_le. unfold err in *. lra. }
  fold a' b' in V. split; [assumption|]. split; [assumption|].
  apply Rabs_le_inv in V. apply Rabs_le. unfold err in *. lra.
Qed.

(** From the sum of the sector to the hue of one period. *)
Lemma hue_tail (hraw : float) (T : R) :
  Ffin hraw -> Rabs (F2R hraw - T) <= 5000 * err -> Rabs T <= 10 ->
  exists (h : float) (k : Z),
    (h6 <- fdiv hraw 6 ;; fmod_py h6 1) = Ok h
    /\ Ffin h /\ 0 <= F2R h <= 1 + 3 * eps
    /\ Rabs (F2R h - (T / 6 - IZR k)) <= tau.
Proof.
  intros Fh Vh HT. float_lit 6%float L6. destruct L6 as [F6 V6].
  apply Rabs_le_inv in Vh, HT.
  assert (N6 : F2R 6 <> 0) by (apply Rgt_not_eq; lra).
  destruct (Fdiv_err hraw 6 Fh F6 N6) as (E & F & V).
  { replace (F2R 6) with 6 by lra. apply Rabs_le. unfold err in *. lra. }
  replace (F2R 6) with 6 in V by lra.
  rewrite E. cbn [bind].
  destruct (fmod_py_one_value (hraw / 6)%float F) as (h & k & Eh & Fh' & Rh & Vh').
  exists h, k. split; [assumption|]. split; [assumption|]. split; [assumption|].
  apply Rabs_le_inv in V, Vh'. apply Rabs_le. unfold err, tau in *. lra.
Qed.

Lemma rgb_to_hls_value (r g b : Z) :
  in_byte r -> in_byte g -> in_byte b ->
  (Z.min r (Z.min g b) < Z.max r (Z.max g b))%Z ->
  exists (h : float) (k : Z),
    colorsys.rgb_to_hls (chan r) (chan g) (chan b)
    = Ok (h, lightness (chan (Z.max r (Z.max g b))) (chan (Z.min r (Z.min g b))),
             saturation (chan (Z.max r (Z.max g b))) (chan (Z.min r (Z.min g b))))
    /\ Ffin h /\ 0 <= F2R h <= 1 + 3 * eps
    /\ Rabs (F2R h - (hue_sixth r g b - IZR k)) <= tau.
Proof.
  intros Hr Hg Hb Hlt. unfold colorsys.rgb_to_hls, hue_sixth.
  rewrite (max3_chan r g b Hr Hg Hb), (min3_chan r g b Hr Hg Hb).
  set (M := Z.max r (Z.max g b)) in *. set (m := Z.min r (Z.min g b)) in *.
  assert (HM : in_byte M) by (unfold in_byte in *; lia).
  assert (Hm : in_byte m) by (unfold in_byte in *; lia).
  destruct (chan_channel M HM) as [_ (IM & FM & VM)].
  destruct (chan_channel m Hm) as [_ (Im & Fm & Vm)].
  pose proof (chan_lt m M Hm HM Hlt) as Hlt'.
  assert (Hle : (chan m <=? chan M)%float = true) by (apply Fleb_intro; try assumption; lra).
  pose proof pair_table as T. rewrite forallb_forall in T.
  specialize (T (chan M) IM). rewrite forallb_forall in T. specialize (T (chan m) Im).
  unfold extremes_ok in T. rewrite Hle in T. cbv zeta in T.
  rewrite (chan_eqb m M Hm HM) in T |- *.
  assert (Ene : (m =? M)%Z = false) by (apply Z.eqb_neq; lia).
  rewrite Ene in T |- *.
  rewrite (fdiv_const (chan M + chan m) 2 eq_refl). cbn [bind].
  fold (lightness (chan M) (chan m)) in T |- *.
  rewrite !andb_true_iff in T. destruct T as [_ [_ T]].
  assert (Es : (if (lightness (chan M) (chan m) <=? 0.5)%float
                then fdiv (chan M - chan m) (chan M + chan m)
                else fdiv (chan M - chan m) (2 - (chan M + chan m)))
               = Ok (saturation (chan M) (chan m))).
  { unfold saturation. destruct (lightness (chan M) (chan m) <=? 0.5)%float;
      rewrite !andb_true_iff in T; destruct T as [[Z0 _] _];
      apply negb_true_iff in Z0; now rewrite (fdiv_const _ _ Z0). }
  rewrite Es. cbn [bind]. clear Es T.
  assert (Hq : forall x, in_byte x -> (m <= x <= M)%Z ->
             fdiv (chan M - chan x) (chan M - chan m)
             = Ok ((chan M - chan x) / (chan M - chan m))%float
             /\ Ffin ((chan M - chan x) / (chan M - chan m))
             /\ Rabs (F2R ((chan M - chan x) / (chan M - chan m)) - IZR (M - x) / IZR (M - m))
                <= 2000 * err
             /\ 0 <= IZR (M - x) / IZR (M - m) <= 1).
  { intros x Hx Hxm.
    destruct (chan_quotient x M m Hx HM Hm Hxm Hlt) as (E & F & V).
    repeat (split; [assumption|]).
    apply ratio_unit; [apply IZR_lt; lia|split; apply IZR_le; lia]. }
  destruct (Hq r Hr ltac:(lia)) as (Erc & Frc & Vrc & Urc).
  destruct (Hq g Hg ltac:(lia)) as (Egc & Fgc & Vgc & Ugc).
  destruct (Hq b Hb ltac:(lia)) as (Ebc & Fbc & Vbc & Ubc).
  rewrite Erc, Egc, Ebc. cbn [bind]. clear Hq Erc Egc Ebc.
  set (rc := ((chan M - chan r) / (chan M - chan m))%float) in *.
  set (gc := ((chan M - chan g) / (chan M - chan m))%float) in *.
  set (bc := ((chan M - chan b) / (chan M - chan m))%float) in *.
  assert (Hd : 0 < IZR (M - m)) by (apply IZR_lt; lia).
  rewrite !minus_IZR in *.
  set (d := IZR M - IZR m) in *.
  apply Rabs_le_inv in Vrc, Vgc, Vbc.
  float_lit 2%float L2. destruct L2 as [F2 V2].
  float_lit 4%float L4. destruct L4 as [F4 V4].
  rewrite (chan_eqb r M Hr HM), (chan_eqb g M Hg HM).
  assert (Htail : forall hraw T,
             Ffin hraw -> Rabs (F2R hraw - T) <= 5000 * err -> Rabs T <= 10 ->
             exists (h : float) (k : Z),
               (h <- (h6 <- fdiv hraw 6 ;; fmod_py h6 1) ;;
                Ok (h, lightness (chan M) (chan m), saturation (chan M) (chan m)))
               = Ok (h, lightness (chan M) (chan m), saturation (chan M) (chan m))
               /\ Ffin h /\ 0 <= F2R h <= 1 + 3 * eps
               /\ Rabs (F2R h - (T / 6 - IZR k)) <= tau).
  { intros hraw T Fh Vh HT.
    destruct (hue_tail hraw T Fh Vh HT) as (h & k & E & R).
    exists h, k. rewrite E. cbn [bind]. now split. }
  destruct (Z.eqb_spec r M) as [ErM|NrM]; [|destruct (Z.eqb_spec g M) as [EgM|NgM]].
  - destruct (Fsub_err bc gc Fbc Fgc) as [Fh Vh].
    { apply Rabs_le. unfold err in *. lra. }
    apply Rabs_le_inv in Vh.
    apply (Htail (bc - gc)%float ((IZR g - IZR b) / d)); [assumption| |].
    + replace ((IZR g - IZR b) / d) with ((IZR M - IZR b) / d - (IZR M - IZR g) / d)
        by (field; lra).
      apply Rabs_le. unfold err in *. lra.
    + replace ((IZR g - IZR b) / d) with ((IZR M - IZR b) / d - (IZR M - IZR g) / d)
        by (field; lra).
      apply Rabs_le. lra.
  - destruct (Fadd_err 2 rc F2 Frc) as [Fa Va].
    { apply Rabs_le. unfold err in *. lra. }
    apply Rabs_le_inv in Va.
    destruct (Fsub_err (2 + rc) bc Fa Fbc) as [Fh Vh].
    { apply Rabs_le. unfold err in *. lra. }
    apply Rabs_le_inv in Vh.
    apply (Htail (2 + rc - bc)%float (2 + (IZR b - IZR r) / d)); [assumption| |].
    + replace ((IZR b - IZR r) / d) with ((IZR M - IZR r) / d - (IZR M - IZR b) / d)
        by (field; lra).
      apply Rabs_le. unfold err in *. lra.
    + replace ((IZR b - IZR r) / d) with ((IZR M - IZR r) / d - (IZR M - IZR b) / d)
        by (field; lra).
      apply Rabs_le. lra.
  - destruct (Fadd_err 4 gc F4 Fgc) as [Fa Va].
    { apply Rabs_le. unfold err in *. lra. }
    apply Rabs_le_inv in Va.
    destruct (Fsub_err (4 + gc) rc Fa Frc) as [Fh Vh].
    { apply Rabs_le. unfold err in *. lra. }
    apply Rabs_le_inv in Vh.
    apply (Htail (4 + gc - rc)%float (4 + (IZR r - IZR g) / d)); [assumption| |].
    + replace ((IZR r - IZR g) / d) with ((IZR M - IZR g) / d - (IZR M - IZR r) / d)
        by (field; lra).
      apply Rabs_le. unfold err in *. lra.
    + replace ((IZR r - IZR g) / d) with ((IZR M - IZR g) / d - (IZR M - IZR r) / d)
        by (field; lra).
      apply Rabs_le. lra.
Qed.

(** ** The integers [rgb_to_hsl] returns *)

Lemma rgb_to_hsl_value (r g b : Z) :
  in_byte r -> in_byte g -> in_byte b ->
  (Z.min r (Z.min g b) < Z.max r (Z.max g b))%Z ->
  exists (H S L k : Z),
    rgb_to_hsl r g b = Ok (H, S, L)
    /\ py_int (saturation (chan (Z.max r (Z.max g b))) (chan (Z.min r (Z.min g b))) * 100)%float
       = Ok S
    /\ py_int (lightness (chan (Z.max r (Z.max g b))) (chan (Z.min r (Z.min g b))) * 100)%float
       = Ok L
    /\ (0 <= H <= 360)%Z /\ (0 <= S <= 100)%Z /\ (0 <= L <= 100)%Z
    /\ - (2 * tau) <= hue_sixth r g b - IZR k - IZR H / 360 <= / 360 + 2 * tau.
Proof.
  intros Hr Hg Hb Hlt.
  destruct (rgb_to_hsl_ok r g b Hr Hg Hb) as (H & S & L & E & RH & RS & RL).
  destruct (rgb_to_hls_value r g b Hr Hg Hb Hlt) as (h & k & Eh & Fh & Rh & Vh).
  exists H, S, L, k. split; [exact E|].
  unfold rgb_to_hsl in E.
  destruct (chan_channel r Hr) as [Er _]. destruct (chan_channel g Hg) as [Eg _].
  destruct (chan_channel b Hb) as [Eb _].
  rewrite Er, Eg, Eb in E. cbn [bind] in E. rewrite Eh in E. cbn [bind] in E.
  destruct (py_int (h * 360)%float) as [H'|] eqn:EH; [|discriminate]. cbn [bind] in E.
  destruct (py_int (saturation _ _ * 100)%float) as [S'|] eqn:ES; [|discriminate].
  cbn [bind] in E.
  destruct (py_int (lightness _ _ * 100)%float) as [L'|] eqn:EL; [|discriminate].
  cbn [bind] in E. injection E as -> -> ->.
  repeat (split; [first [reflexivity|assumption]|]).
  float_lit 360%float L360. destruct L360 as [F360 V360].
  assert (V360' : F2R 360 = 360) by lra.
  destruct (Fmul_err h 360 Fh F360) as [Fm Vm].
  { rewrite V360'. apply Rabs_le. unfold eps in *. lra. }
  destruct (Fmul_nonneg h 360 (1 + 3 * eps) 360 Fh F360) as [_ Vn];
    try (unfold eps in *; lra).
  destruct (py_int_spec (h * 360)%float Fm) as (H' & EH' & Hpos & _).
  rewrite EH in EH'. injection EH' as <-.
  specialize (Hpos (proj1 Vn)).
  rewrite V360' in Vm. apply Rabs_le_inv in Vm, Vh.
  unfold tau, err in *. lra.
Qed.

(** * From HSL back to RGB: the values *)

Lemma mul_bound (a b A B : R) :
  Rabs a <= A -> Rabs b <= B -> - (A * B) <= a * b <= A * B.
Proof.
  intros Ha Hb. apply Rabs_le_inv. rewrite Rabs_mult.
  apply Rmult_le_compat; auto using Rabs_pos.
Qed.

Lemma clamp_near (x lo hi e : R) :
  lo <= hi -> lo - e <= x <= hi + e -> 0 <= e ->
  exists U, lo <= U <= hi /\ Rabs (U - x) <= e.
Proof.
  intros Hlh Hx He.
  destruct (Rle_dec lo x) as [H1|H1]; [destruct (Rle_dec x hi) as [H2|H2]|].
  - exists x. split; [lra|]. apply Rabs_le. lra.
  - exists hi. split; [lra|]. apply Rabs_le. lra.
  - exists lo. split; [lra|]. apply Rabs_le. lra.
Qed.

Section Value.

Variables m1 m2 : float.
Hypotheses (F1 : Ffin m1) (F2 : Ffin m2).
Hypotheses (H1 : Rabs (F2R m1) <= 2) (H2 : Rabs (F2R m2) <= 2).

(** [m1 + (m2 - m1) * t * 6.0]. *)
Lemma ramp_value (t : float) :
  Ffin t -> Rabs (F2R t) <= 2 ->
  Ffin (m1 + (m2 - m1) * t * 6)
  /\ Rabs (F2R (m1 + (m2 - m1) * t * 6)
           - (F2R m1 + (F2R m2 - F2R m1) * F2R t * 6)) <= 20 * err.
Proof.
  intros Ft Vt. float_lit 6%float L. destruct L as [F6 V6].
  assert (V6' : F2R 6 = 6) by lra. clear V6.
  apply Rabs_le_inv in H1, H2. pose proof Vt as Vt'. apply Rabs_le_inv in Vt'.
  destruct (Fsub_err m2 m1 F2 F1) as [Fd Vd]; [apply Rabs_le; lra|].
  pose proof Vd as Vd'. apply Rabs_le_inv in Vd'.
  assert (Bd : Rabs (F2R (m2 - m1)) <= 5) by (apply Rabs_le; unfold err in *; lra).
  pose proof (mul_bound _ _ _ _ Bd Vt) as Bp.
  destruct (Fmul_err (m2 - m1) t Fd Ft) as [Fp Vp]; [apply Rabs_le; lra|].
  apply Rabs_le_inv in Vp.
  destruct (Fmul_err ((m2 - m1) * t) 6 Fp F6) as [Fq Vq].
  { rewrite V6'. apply Rabs_le. unfold err in *. lra. }
  rewrite V6' in Vq. apply Rabs_le_inv in Vq.
  destruct (Fadd_err m1 ((m2 - m1) * t * 6) F1 Fq) as [Fr Vr].
  { apply Rabs_le. unfold err in *. lra. }
  apply Rabs_le_inv in Vr.
  split; [assumption|].
  pose proof (mul_bound _ _ _ _ Vd Vt) as Be.
  replace ((F2R (m2 - m1) - (F2R m2 - F2R m1)) * F2R t)
    with (F2R (m2 - m1) * F2R t - (F2R m2 - F2R m1) * F2R t) in Be by ring.
  apply Rabs_le. unfold err in *. lra.
Qed.

Lemma v_value (hue : float) :
  Ffin hue ->
  exists V, colorsys._v m1 m2 hue = Ok V
    /\ Ffin V /\ v_near (2 * err) (F2R m1) (F2R m2) V (F2R hue).
Proof.
  intro Fh. unfold colorsys._v, v_near.
  destruct (fmod_py_one_value hue Fh) as (u & k & Eu & Fu & Ru & Vu).
  rewrite Eu. cbn [bind].
  float_lit colorsys.ONE_SIXTH L6. destruct L6 as [F16 V16].
  float_lit 0.5%float L5. destruct L5 as [F05 V05].
  float_lit colorsys.TWO_THIRD L23. destruct L23 as [F23 V23].
  pose proof err_pos as Perr.
  pose proof H1 as B1. pose proof H2 as B2. apply Rabs_le_inv in B1, B2.
  pose proof Vu as Vu'. apply Rabs_le_inv in Vu'.
  assert (BD : Rabs (F2R m2 - F2R m1) <= 4) by (apply Rabs_le; lra).
  assert (Bu : Rabs (F2R u) <= 2) by (apply Rabs_le; unfold eps in *; flra).
  destruct (u <? colorsys.ONE_SIXTH)%float eqn:E1.
  - (* the rising ramp *)
    apply Fltb_true in E1; try assumption.
    destruct (ramp_value u Fu Bu) as [FV VV]. apply Rabs_le_inv in VV.
    destruct (clamp_near (F2R u) 0 (/ 6) err) as (U & HU & DU);
      [lra|unfold err in *; flra|lra|].
    eexists. split; [reflexivity|]. split; [assumption|].
    exists U, (6 * U), k. split; [left; lra|].
    pose proof DU as DU'. apply Rabs_le_inv in DU'.
    split; [apply Rabs_le; flra|].
    pose proof (mul_bound _ _ _ _ BD DU) as BP.
    replace ((F2R m2 - F2R m1) * (U - F2R u))
      with ((F2R m2 - F2R m1) * U - (F2R m2 - F2R m1) * F2R u) in BP by ring.
    apply Rabs_le. unfold err in *. flra.
  - apply Fltb_false in E1; try assumption.
    destruct (u <? 0.5)%float eqn:E2.
    + (* the plateau at [m2] *)
      apply Fltb_true in E2; try assumption.
      destruct (clamp_near (F2R u) (/ 6) (/ 2) err) as (U & HU & DU);
        [lra|unfold err in *; flra|lra|].
      exists m2. split; [reflexivity|]. split; [assumption|].
      exists U, 1, k. split; [right; left; lra|].
      apply Rabs_le_inv in DU.
      split; [apply Rabs_le; flra|].
      replace (F2R m2 - ((1 - 1) * F2R m1 + 1 * F2R m2)) with 0 by ring.
      rewrite Rabs_R0. lra.
    + apply Fltb_false in E2; try assumption.
      destruct (u <? colorsys.TWO_THIRD)%float eqn:E3.
      * (* the falling ramp *)
        apply Fltb_true in E3; try assumption.
        destruct (Fsub_err colorsys.TWO_THIRD u F23 Fu) as [Ft Vt].
        { apply Rabs_le. unfold eps in *. flra. }
        pose proof Vt as Vt'. apply Rabs_le_inv in Vt'.
        assert (Bt : Rabs (F2R (colorsys.TWO_THIRD - u)) <= 2).
        { apply Rabs_le. unfold err, eps in *. flra. }
        destruct (ramp_value (colorsys.TWO_THIRD - u) Ft Bt) as [FV VV].
        apply Rabs_le_inv in VV.
        destruct (clamp_near (F2R u) (/ 2) (2 / 3) err) as (U & HU & DU);
          [lra|unfold err in *; flra|lra|].
        eexists. split; [reflexivity|]. split; [assumption|].
        exists U, (4 - 6 * U), k. split; [right; right; left; lra|].
        pose proof DU as DU'. apply Rabs_le_inv in DU'.
        split; [apply Rabs_le; flra|].
        assert (DT : Rabs (F2R (colorsys.TWO_THIRD - u) - (2 / 3 - U)) <= 3 * err).
        { apply Rabs_le. unfold err in *. flra. }
        pose proof (mul_bound _ _ _ _ BD DT) as BP.
        replace ((F2R m2 - F2R m1) * (F2R (colorsys.TWO_THIRD - u) - (2 / 3 - U)))
          with ((F2R m2 - F2R m1) * F2R (colorsys.TWO_THIRD - u)
                - (2 / 3) * (F2R m2 - F2R m1) + (F2R m2 - F2R m1) * U) in BP by ring.
        apply Rabs_le. unfold err in *. flra.
      * (* the plateau at [m1] *)
        apply Fltb_false in E3; try assumption.
        destruct (clamp_near (F2R u) (2 / 3) 1 err) as (U & HU & DU);
          [lra|unfold err, eps in *; flra|lra|].
        exists m1. split; [reflexivity|]. split; [assumption|].
        exists U, 0, k. split; [right; right; right; lra|].
        apply Rabs_le_inv in DU.
        split; [apply Rabs_le; flra|].
        replace (F2R m1 - ((1 - 0) * F2R m1 + 0 * F2R m2)) with 0 by ring.
        rewrite Rabs_R0. lra.
Qed.

End Value.

(** ** [hls_to_rgb] and [hsl_to_rgb] *)

Lemma floor_exists (x : R) : exists k : Z, 0 <= x - IZR k < 1.
Proof.
  destruct (archimed x) as [H1 H2]. exists (up x - 1)%Z.
  rewrite minus_IZR. lra.
Qed.

Lemma v_near_flat (e mu : R) (V : float) (x : R) :
  0 <= e -> F2R V = mu -> v_near e mu mu V x.
Proof.
  intros He HV. destruct (floor_exists x) as (k & Hk).
  destruct (trap_total (x - IZR k) ltac:(lra)) as (w & Hw).
  exists (x - IZR k), w, k. split; [assumption|]. split.
  - replace (x - IZR k - (x - IZR k)) with 0 by ring. rewrite Rabs_R0. lra.
  - rewrite HV. replace (mu - ((1 - w) * mu + w * mu)) with 0 by ring.
    rewrite Rabs_R0. pose proof err_pos. lra.
Qed.

Lemma v_near_shift (e e' mu1 mu2 : R) (V : float) (x x' : R) :
  v_near e mu1 mu2 V x -> Rabs (x - x') <= e' -> v_near (e + e') mu1 mu2 V x'.
Proof.
  intros (U & w & k & T & HU & HV) Hx. exists U, w, k.
  split; [assumption|]. split; [|assumption].
  apply Rabs_le_inv in HU, Hx. apply Rabs_le. lra.
Qed.

Lemma hls_to_rgb_value (h l s : float) :
  sl_ok l s = true -> Ffin h -> Rabs (F2R h) <= 2 ->
  exists Vr Vg Vb,
    colorsys.hls_to_rgb h l s = Ok (Vr, Vg, Vb)
    /\ unit_float Vr /\ unit_float Vg /\ unit_float Vb
    /\ v_near (5 * err) (F2R (fst (bounds_of l s))) (F2R (snd (bounds_of l s)))
         Vr (F2R h + / 3)
    /\ v_near (5 * err) (F2R (fst (bounds_of l s))) (F2R (snd (bounds_of l s)))
         Vg (F2R h)
    /\ v_near (5 * err) (F2R (fst (bounds_of l s))) (F2R (snd (bounds_of l s)))
         Vb (F2R h - / 3).
Proof.
  intros Hok Fh Bh.
  destruct (sl_ok_unit l s h Hok) as (Vr & Vg & Vb & E & Ur & Ug & Ub).
  exists Vr, Vg, Vb. split; [exact E|]. repeat (split; [assumption|]).
  pose proof err_pos as Perr.
  unfold sl_ok in Hok. unfold colorsys.hls_to_rgb in E. unfold bounds_of.
  destruct (s =? 0)%float.
  - injection E as <- <- <-. cbn [fst snd].
    repeat split; apply v_near_flat; try reflexivity; lra.
  - cbv zeta in Hok. cbn [fst snd].
    set (m2 := if (l <=? 0.5)%float then (l * (1 + s))%float
               else (l + s - l * s)%float) in *.
    set (m1 := (2 * l - m2)%float) in *.
    rewrite !andb_true_iff in Hok. destruct Hok as [[[[A B] C] D] _].
    float_lit 1.0000001%float L. destruct L as [Fc Vc].
    assert (Fm1 : Ffin m1) by (apply (Fleb_between 0 m1 1.0000001); auto using Ffin_zero).
    assert (Fm2 : Ffin m2) by (apply (Fleb_between 0 m2 1.0000001); auto using Ffin_zero).
    apply Fleb_true in A, B, C, D; auto using Ffin_zero. rewrite F2R_zero in A, C.
    assert (Hm1 : Rabs (F2R m1) <= 2) by (apply Rabs_le; flra).
    assert (Hm2 : Rabs (F2R m2) <= 2) by (apply Rabs_le; flra).
    float_lit colorsys.ONE_THIRD L3. destruct L3 as [F3 V3].
    apply Rabs_le_inv in Bh.
    destruct (Fadd_err h colorsys.ONE_THIRD Fh F3) as [Fa Va]; [apply Rabs_le; flra|].
    destruct (Fsub_err h colorsys.ONE_THIRD Fh F3) as [Fs Vs]; [apply Rabs_le; flra|].
    apply Rabs_le_inv in Va, Vs.
    destruct (v_value m1 m2 Fm1 Fm2 Hm1 Hm2 (h + colorsys.ONE_THIRD)%float Fa)
      as (Vr' & Er & _ & Nr).
    destruct (v_value m1 m2 Fm1 Fm2 Hm1 Hm2 h Fh) as (Vg' & Eg & _ & Ng).
    destruct (v_value m1 m2 Fm1 Fm2 Hm1 Hm2 (h - colorsys.ONE_THIRD)%float Fs)
      as (Vb' & Eb & _ & Nb).
    rewrite Er, Eg, Eb in E. cbn [bind] in E. injection E as <- <- <-.
    split; [|split].
    + replace (5 * err) with (2 * err + 3 * err) by ring.
      apply (v_near_shift _ _ _ _ _ _ _ Nr). apply Rabs_le. unfold err in *. flra.
    + replace (5 * err) with (2 * err + 3 * err) by ring.
      apply (v_near_shift _ _ _ _ _ _ _ Ng). apply Rabs_le. unfold err in *. flra.
    + replace (5 * err) with (2 * err + 3 * err) by ring.
      apply (v_near_shift _ _ _ _ _ _ _ Nb). apply Rabs_le. unfold err in *. flra.
Qed.

(** A unit float times 255, truncated. *)
Lemma byte_value (e mu1 mu2 : R) (V : float) (x : R) :
  unit_float V -> v_near e mu1 mu2 V x -> e <= 10 * err ->
  exists c, py_int (V * 255)%float = Ok c /\ in_byte c /\ chan_near mu1 mu2 c x.
Proof.
  intros UV (U & w & k & T & HU & HV) He.
  destruct (byte_of_unit V UV) as (c & Ec & Bc).
  exists c. split; [assumption|]. split; [assumption|].
  exists U, w, k. split; [assumption|]. split; [lra|].
  destruct UV as [FV RV].
  float_lit 255%float L. destruct L as [F255 V255].
  assert (V255' : F2R 255 = 255) by lra.
  destruct (Fmul_err V 255 FV F255) as [Fm Vm].
  { rewrite V255'. apply Rabs_le. lra. }
  destruct (Fmul_nonneg V 255 (1 + / 100000) 255 FV F255) as [_ Vn]; try lra.
  destruct (py_int_spec (V * 255)%float Fm) as (c' & Ec' & Hpos & _).
  rewrite Ec in Ec'. injection Ec' as <-.
  specialize (Hpos (proj1 Vn)).
  rewrite V255' in Vm. apply Rabs_le_inv in Vm, HV.
  unfold err in *. lra.
Qed.

Lemma hsl_to_rgb_value (H S L : Z) :
  (0 <= H <= 360)%Z -> (0 <= S <= 100)%Z -> (0 <= L <= 100)%Z ->
  exists r' g' b',
    hsl_to_rgb (PInt H) S L = Ok (r', g', b')
    /\ in_byte r' /\ in_byte g' /\ in_byte b'
    /\ chan_near (F2R (fst (bounds_of (percent L) (percent S))))
         (F2R (snd (bounds_of (percent L) (percent S)))) r' (IZR H / 360 + / 3)
    /\ chan_near (F2R (fst (bounds_of (percent L) (percent S))))
         (F2R (snd (bounds_of (percent L) (percent S)))) g' (IZR H / 360)
    /\ chan_near (F2R (fst (bounds_of (percent L) (percent S))))
         (F2R (snd (bounds_of (percent L) (percent S)))) b' (IZR H / 360 - / 3).
Proof.
  intros HH HS HL. unfold hsl_to_rgb.
  float_lit 360%float L360. destruct L360 as [F360 V360].
  destruct (int_over_float H 360 360) as (fh & Eh & Fh & Vh); [lia|assumption|lra|lra|].
  rewrite Eh. cbn [bind].
  destruct (sl_table_at L S HL HS) as (El & Es & Hok).
  rewrite Es, El. cbn [bind].
  assert (RH : 0 <= IZR H / 360 <= 1).
  { destruct HH as [H0 H1]. apply IZR_le in H0, H1. lra. }
  pose proof Vh as Vh'. apply Rabs_le_inv in Vh'.
  destruct (hls_to_rgb_value fh (percent L) (percent S) Hok Fh) as
    (Vr & Vg & Vb & E & Ur & Ug & Ub & Nr & Ng & Nb).
  { apply Rabs_le. unfold err in *. lra. }
  rewrite E. cbn [bind].
  assert (Sh : forall off, Rabs (F2R fh + off - (IZR H / 360 + off)) <= err).
  { intro off. apply Rabs_le. lra. }
  pose proof (v_near_shift _ _ _ _ _ _ _ Nr (Sh (/ 3))) as Nr'.
  pose proof (Sh 0) as Sh0. rewrite !Rplus_0_r in Sh0.
  pose proof (v_near_shift _ _ _ _ _ _ _ Ng Sh0) as Ng'.
  pose proof (v_near_shift _ _ _ _ _ _ _ Nb (Sh (- / 3))) as Nb'.
  pose proof err_pos as Perr.
  destruct (byte_value _ _ _ Vr _ Ur Nr' ltac:(lra)) as (r' & Er & Br & Cr).
  destruct (byte_value _ _ _ Vg _ Ug Ng' ltac:(lra)) as (g' & Eg & Bg & Cg).
  destruct (byte_value _ _ _ Vb _ Ub Nb' ltac:(lra)) as (b' & Eb & Bb & Cb).
  rewrite Er, Eg, Eb. cbn [bind]. exists r', g', b'.
  split; [reflexivity|]. repeat (split; [assumption|]). assumption.
Qed.

(** * The round trip, within ten units *)

Lemma close_table : pairs_ok fints percent_floats points = true.
Proof. vm_compute. reflexivity. Qed.

(** ** Reading the table *)

Lemma nth_map_range {A : Type} (f : Z -> A) (d : A) (n k : Z) :
  (0 <= k < n)%Z -> nth (Z.to_nat k) (map f (range n)) d = f k.
Proof.
  intro H. apply nth_error_nth. rewrite nth_error_map, (range_nth n k H). reflexivity.
Qed.

Lemma fint_exact (k : Z) :
  (0 <= k <= 255)%Z -> Ffin (fint k) /\ F2R (fint k) = IZR k.
Proof.
  intro H. destruct (float_of_int_exact k) as (f & E & F & V).
  { change (2 ^ 53)%Z with 9007199254740992%Z. lia. }
  unfold fint. rewrite E. now split.
Qed.

Lemma floor_in_ge (x : float) (fs : list float) :
  forall k, (k <= floor_in x fs k)%Z.
Proof.
  induction fs as [|f0 fs IH]; intro k; [cbn; lia|].
  destruct fs as [|f1 tl]; [cbn; lia|].
  change (floor_in x (f0 :: f1 :: tl) k)
    with (if (x <? f1)%float then k else floor_in x (f1 :: tl) (k + 1)).
  destruct (x <? f1)%float; [lia|]. specialize (IH (k + 1)%Z). lia.
Qed.

Lemma py_int_fin (x : float) (k : Z) : py_int x = Ok k -> Ffin x.
Proof.
  unfold py_int, Ffin. destruct (Prim2SF x); cbn; intro H; try discriminate H; reflexivity.
Qed.

(** The truncation of [x] is the integer whose float is below [x] while
    the float of its successor is above. *)
Lemma py_int_floor (x : float) (k k0 : Z) :
  py_int x = Ok k0 -> (0 <= k < 255)%Z ->
  (at_index fints k <=? x)%float = true -> (x <? at_index fints (k + 1))%float = true ->
  k0 = k.
Proof.
  intros E Hk A B. pose proof (py_int_fin x k0 E) as Fx.
  unfold at_index, fints, byte_values in A, B.
  rewrite nth_map_range in A, B by lia.
  destruct (fint_exact k ltac:(lia)) as [Fk Vk].
  destruct (fint_exact (k + 1) ltac:(lia)) as [Fk1 Vk1].
  apply Fleb_true in A; try assumption. apply Fltb_true in B; try assumption.
  rewrite Vk in A. rewrite Vk1, plus_IZR in B.
  destruct (py_int_spec x Fx) as (k' & E' & Hpos & _).
  rewrite E in E'. injection E' as <-.
  assert (H0 : 0 <= IZR k) by (apply IZR_le; lia).
  specialize (Hpos ltac:(lra)).
  assert (H1 : (k0 < k + 1)%Z) by (apply lt_IZR; rewrite plus_IZR; lra).
  assert (H2 : (k < k0 + 1)%Z) by (apply lt_IZR; rewrite plus_IZR; lra).
  lia.
Qed.

Lemma bounds_of_unit (l s : float) :
  sl_ok l s = true ->
  Ffin (fst (bounds_of l s)) /\ Ffin (snd (bounds_of l s))
  /\ 0 <= F2R (fst (bounds_of l s)) <= 1 + / 1000000
  /\ 0 <= F2R (snd (bounds_of l s)) <= 1 + / 1000000.
Proof.
  unfold sl_ok, bounds_of. destruct F2R_one as [Fone Vone].
  destruct (s =? 0)%float; cbn [fst snd].
  - rewrite andb_true_iff. intros [A B].
    assert (Ffin l) by (apply (Fleb_between 0 l 1); auto using Ffin_zero).
    apply Fleb_true in A, B; auto using Ffin_zero. rewrite F2R_zero in A.
    repeat split; try assumption; lra.
  - set (m2 := if (l <=? 0.5)%float then (l * (1 + s))%float
               else (l + s - l * s)%float).
    set (m1 := (2 * l - m2)%float).
    rewrite !andb_true_iff. intros [[[[A B] C] D] _].
    float_lit 1.0000001%float L. destruct L as [Fc Vc].
    assert (Fm1 : Ffin m1) by (apply (Fleb_between 0 m1 1.0000001); auto using Ffin_zero).
    assert (Fm2 : Ffin m2) by (apply (Fleb_between 0 m2 1.0000001); auto using Ffin_zero).
    apply Fleb_true in A, B, C, D; auto using Ffin_zero. rewrite F2R_zero in A, C.
    repeat split; try assumption; flra.
Qed.

(** One side of the test of [close_ok], in real numbers. *)
Lemma side_sound (mx f ht : float) (X T : R) :
  Ffin mx -> 0 <= F2R mx <= 2 -> Ffin f -> F2R f = X -> 0 <= X <= 255 ->
  Ffin ht -> Rabs (F2R ht - T) <= 2 * err -> 0 <= T <= 5 ->
  (ht <=? mx * 255 - f + 9.9)%float = true ->
  (mx * 255 - f + ht <=? 10.9)%float = true ->
  - (99 / 10) - 100 * err <= 255 * F2R mx - X - T
  /\ 255 * F2R mx - X + T <= 109 / 10 + 100 * err.
Proof.
  intros Fmx Rmx Ff Vf RX Fht Vht RT A B.
  float_lit 255%float L. destruct L as [F255 V255].
  assert (V255' : F2R 255 = 255) by lra. clear V255.
  float_lit 9.9%float L9. destruct L9 as [F99 V99].
  float_lit 10.9%float L10. destruct L10 as [F109 V109].
  apply Rabs_le_inv in Vht.
  destruct (Fmul_err mx 255 Fmx F255) as [Fp Vp].
  { rewrite V255'. apply Rabs_le. flra. }
  rewrite V255' in Vp. apply Rabs_le_inv in Vp.
  destruct (Fsub_err (mx * 255) f Fp Ff) as [Fb Vb].
  { rewrite Vf. apply Rabs_le. unfold err in *. flra. }
  rewrite Vf in Vb. apply Rabs_le_inv in Vb.
  destruct (Fadd_err (mx * 255 - f) 9.9 Fb F99) as [Fc Vc].
  { apply Rabs_le. unfold err in *. flra. }
  apply Rabs_le_inv in Vc.
  destruct (Fadd_err (mx * 255 - f) ht Fb Fht) as [Fs Vs].
  { apply Rabs_le. unfold err in *. flra. }
  apply Rabs_le_inv in Vs.
  apply Fleb_true in A, B; try assumption.
  unfold err in *. split; flra.
Qed.

(** What a successful test says, for any lists of floats. *)
Lemma close_ok_elim (fs ps : list float) (M m : Z) (cM cm fM fm : float) :
  (m < M)%Z -> close_ok fs ps (M, cM, fM) (m, cm, fm) = true ->
  exists ks kl,
    (0 <= ks <= 100)%Z /\ (0 <= kl <= 100)%Z
    /\ (at_index fs ks <=? saturation cM cm * 100)%float = true
    /\ (saturation cM cm * 100 <? at_index fs (ks + 1))%float = true
    /\ (at_index fs kl <=? lightness cM cm * 100)%float = true
    /\ (lightness cM cm * 100 <? at_index fs (kl + 1))%float = true
    /\ ((fM - fm) / 60
        <=? fst (bounds_of (at_index ps kl) (at_index ps ks)) * 255 - fm + 9.9)%float = true
    /\ ((fM - fm) / 60
        <=? snd (bounds_of (at_index ps kl) (at_index ps ks)) * 255 - fM + 9.9)%float = true
    /\ (fst (bounds_of (at_index ps kl) (at_index ps ks)) * 255 - fm + (fM - fm) / 60
        <=? 10.9)%float = true
    /\ (snd (bounds_of (at_index ps kl) (at_index ps ks)) * 255 - fM + (fM - fm) / 60
        <=? 10.9)%float = true.
Proof.
  intros Hlt T. unfold close_ok in T.
  apply Z.ltb_lt in Hlt. rewrite Hlt in T. cbv zeta in T.
  pose proof (floor_in_ge (saturation cM cm * 100)%float fs 0) as Gs.
  pose proof (floor_in_ge (lightness cM cm * 100)%float fs 0) as Gl.
  rewrite !andb_true_iff in T.
  destruct T as [[[[[[[[[Bs Bl] As1] As2] Al1] Al2] C1] C2] C3] C4].
  apply Z.leb_le in Bs, Bl.
  exists (floor_in (saturation cM cm * 100)%float fs 0),
         (floor_in (lightness cM cm * 100)%float fs 0).
  repeat (split; [first [assumption|lia]|]). assumption.
Qed.

Lemma pairs_ok_at (fs ps : list float) (pts : list (Z * float * float))
  (P p : Z * float * float) :
  pairs_ok fs ps pts = true -> In P pts -> In p pts -> close_ok fs ps P p = true.
Proof.
  unfold pairs_ok. intros T HP Hp. rewrite forallb_forall in T.
  specialize (T P HP). rewrite forallb_forall in T. now apply T.
Qed.

Lemma point_in (k : Z) : in_byte k -> In (k, chan k, fint k) points.
Proof.
  intro Hk. unfold points.
  apply (in_map (fun k => (k, chan k, fint k))). apply range_In.
  unfold in_byte in Hk. lia.
Qed.

Lemma percent_at (k : Z) :
  (0 <= k <= 100)%Z -> at_index percent_floats k = percent k.
Proof. intro Hk. unfold at_index, percent_floats, percents. apply nth_map_range. lia. Qed.

Lemma close_ok_sound (M m ks kl : Z) :
  in_byte M -> in_byte m -> (m < M)%Z ->
  py_int (saturation (chan M) (chan m) * 100)%float = Ok ks ->
  py_int (lightness (chan M) (chan m) * 100)%float = Ok kl ->
  (0 <= ks <= 100)%Z -> (0 <= kl <= 100)%Z ->
  (- (99 / 10) - 100 * err
   <= 255 * F2R (fst (bounds_of (percent kl) (percent ks))) - IZR m - IZR (M - m) / 60
   /\ 255 * F2R (fst (bounds_of (percent kl) (percent ks))) - IZR m + IZR (M - m) / 60
      <= 109 / 10 + 100 * err)
  /\ (- (99 / 10) - 100 * err
      <= 255 * F2R (snd (bounds_of (percent kl) (percent ks))) - IZR M - IZR (M - m) / 60
      /\ 255 * F2R (snd (bounds_of (percent kl) (percent ks))) - IZR M + IZR (M - m) / 60
         <= 109 / 10 + 100 * err).
Proof.
  intros HM Hm Hlt Es El Rs Rl.
  pose proof (pairs_ok_at _ _ _ _ _ close_table (point_in M HM) (point_in m Hm)) as T.
  destruct (close_ok_elim _ _ _ _ _ _ _ _ Hlt T)
    as (js & jl & Rjs & Rjl & As1 & As2 & Al1 & Al2 & C1 & C2 & C3 & C4).
  assert (Ejs : ks = js) by (apply (py_int_floor _ js ks Es); [lia|assumption|assumption]).
  assert (Ejl : kl = jl) by (apply (py_int_floor _ jl kl El); [lia|assumption|assumption]).
  subst js jl. clear As1 As2 Al1 Al2 T.
  rewrite (percent_at ks Rs), (percent_at kl Rl) in C1, C2, C3, C4.
  destruct (sl_table_at kl ks Rl Rs) as (_ & _ & Hok).
  destruct (bounds_of_unit _ _ Hok) as (F1 & F2 & R1 & R2).
  set (m1 := fst (bounds_of (percent kl) (percent ks))) in *.
  set (m2 := snd (bounds_of (percent kl) (percent ks))) in *.
  destruct (fint_exact M HM) as [FfM VfM]. destruct (fint_exact m Hm) as [Ffm Vfm].
  assert (RM : 0 <= IZR M <= 255) by (destruct HM as [A B]; apply IZR_le in A, B; lra).
  assert (Rm : 0 <= IZR m <= 255) by (destruct Hm as [A B]; apply IZR_le in A, B; lra).
  assert (RD : 1 <= IZR (M - m)) by (apply IZR_le; lia).
  rewrite minus_IZR in *.
  (* the allowance for the hue *)
  float_lit 60%float L60. destruct L60 as [F60 V60].
  assert (V60' : F2R 60 = 60) by lra. clear V60.
  destruct (Fsub_err (fint M) (fint m) FfM Ffm) as [Fd Vd].
  { rewrite VfM, Vfm. apply Rabs_le. lra. }
  rewrite VfM, Vfm in Vd. apply Rabs_le_inv in Vd.
  assert (N60 : F2R 60 <> 0) by (apply Rgt_not_eq; lra).
  destruct (Fdiv_err (fint M - fint m) 60 Fd F60 N60) as (_ & Fht & Vht).
  { rewrite V60'. apply Rabs_le. unfold err in *. lra. }
  rewrite V60' in Vht. apply Rabs_le_inv in Vht.
  assert (Vht' : Rabs (F2R ((fint M - fint m) / 60) - (IZR M - IZR m) / 60) <= 2 * err).
  { apply Rabs_le. unfold err in *. lra. }
  assert (RT : 0 <= (IZR M - IZR m) / 60 <= 5) by lra.
  split.
  - apply (side_sound m1 (fint m) _ (IZR m) _ F1 ltac:(lra) Ffm Vfm Rm Fht Vht' RT C1 C3).
  - apply (side_sound m2 (fint M) _ (IZR M) _ F2 ltac:(lra) FfM VfM RM Fht Vht' RT C2 C4).
Qed.

(** ** One channel of the round trip *)

Lemma channel_close (c c' M m H k1 : Z) (mu1 mu2 t off : R) :
  in_byte M -> in_byte m -> (m < M)%Z ->
  weight_of t off c m M ->
  chan_near mu1 mu2 c' (IZR H / 360 + off) ->
  - (2 * tau) <= t - IZR k1 - IZR H / 360 <= / 360 + 2 * tau ->
  (- (99 / 10) - 100 * err <= 255 * mu1 - IZR m - IZR (M - m) / 60
   /\ 255 * mu1 - IZR m + IZR (M - m) / 60 <= 109 / 10 + 100 * err) ->
  (- (99 / 10) - 100 * err <= 255 * mu2 - IZR M - IZR (M - m) / 60
   /\ 255 * mu2 - IZR M + IZR (M - m) / 60 <= 109 / 10 + 100 * err) ->
  (Z.abs (c' - c) <= 10)%Z.
Proof.
  intros HM Hm Hlt (k & u & w & T & Eu & Ec) (U' & w' & k' & T' & HU' & HV) Hh B1 B2.
  destruct (trap_unit u w T) as [_ Rw]. destruct (trap_unit U' w' T') as [_ Rw'].
  apply Rabs_le_inv in HU'.
  assert (HL : Rabs (w' - w) <= 6 * (/ 360 + 3 * tau)).
  { apply (trap_lipschitz u w U' w' (k - k' - k1)%Z); try assumption.
    - rewrite !minus_IZR. apply Rabs_le. unfold tau, err in *. lra.
    - unfold tau. lra. }
  apply Rabs_le_inv in HL.
  assert (RM : 0 <= IZR M <= 255) by (destruct HM as [A B]; apply IZR_le in A, B; lra).
  assert (Rm : 0 <= IZR m <= 255) by (destruct Hm as [A B]; apply IZR_le in A, B; lra).
  assert (RD : 1 <= IZR (M - m)) by (apply IZR_le; lia).
  rewrite minus_IZR in *.
  set (D := IZR M - IZR m) in *.
  set (lo := - (99 / 10) - 100 * err + D / 60) in *.
  set (hi := 109 / 10 + 100 * err - D / 60) in *.
  assert (L1 : lo <= 255 * mu1 - IZR m <= hi) by (unfold lo, hi; lra).
  assert (L2 : lo <= 255 * mu2 - IZR M <= hi) by (unfold lo, hi; lra).
  assert (P1 : 0 <= (1 - w') * (255 * mu1 - IZR m - lo)) by (apply Rmult_le_pos; lra).
  assert (P2 : 0 <= w' * (255 * mu2 - IZR M - lo)) by (apply Rmult_le_pos; lra).
  assert (P3 : 0 <= (1 - w') * (hi - (255 * mu1 - IZR m))) by (apply Rmult_le_pos; lra).
  assert (P4 : 0 <= w' * (hi - (255 * mu2 - IZR M))) by (apply Rmult_le_pos; lra).
  assert (P5 : 0 <= (6 * (/ 360 + 3 * tau) - (w' - w)) * D) by (apply Rmult_le_pos; lra).
  assert (P6 : 0 <= ((w' - w) + 6 * (/ 360 + 3 * tau)) * D) by (apply Rmult_le_pos; lra).
  assert (Hid : IZR c' - IZR c
                = (IZR c' - 255 * ((1 - w') * mu1 + w' * mu2))
                  + (1 - w') * (255 * mu1 - IZR m) + w' * (255 * mu2 - IZR M)
                  + (w' - w) * D).
  { rewrite Ec. unfold D. ring. }
  assert (Hlo : -11 < IZR c' - IZR c).
  { rewrite Hid. unfold lo, hi, D, tau, err in *. lra. }
  assert (Hhi : IZR c' - IZR c < 11).
  { rewrite Hid. unfold lo, hi, D, tau, err in *. lra. }
  rewrite <- minus_IZR in Hlo, Hhi. apply lt_IZR in Hlo, Hhi. lia.
Qed.

Local Close Scope R_scope.

(** * The round trip through HSL: ten units at most *)

(** The round trip of a triple of bytes ends, on bytes, each within 10 of
    the channel it comes from. *)
Lemma round_trip_close (r g b : Z) :
  in_byte r -> in_byte g -> in_byte b ->
  exists r' g' b',
    round_trip r g b = Ok (r', g', b')
    /\ in_byte r' /\ in_byte g' /\ in_byte b'
    /\ within 10 (r, g, b) (r', g', b').
Proof.
  intros Hr Hg Hb. unfold round_trip.
  destruct (Z_lt_le_dec (Z.min r (Z.min g b)) (Z.max r (Z.max g b))) as [Hlt|Hge].
  - set (M := Z.max r (Z.max g b)) in *. set (m := Z.min r (Z.min g b)) in *.
    assert (HM : in_byte M) by (unfold in_byte in *; lia).
    assert (Hm : in_byte m) by (unfold in_byte in *; lia).
    destruct (rgb_to_hsl_value r g b Hr Hg Hb Hlt)
      as (H & S & L & k & E & ES & EL & RH & RS & RL & Hh).
    fold M m in ES, EL.
    destruct (hsl_to_rgb_value H S L RH RS RL)
      as (r' & g' & b' & E' & Br & Bg & Bb & Cr & Cg & Cb).
    destruct (channel_weights r g b Hlt) as (Wr & Wg & Wb). fold M m in Wr, Wg, Wb.
    destruct (close_ok_sound M m S L HM Hm Hlt ES EL RS RL) as [T1 T2].
    rewrite E. cbn [bind]. rewrite E'. exists r', g', b'.
    split; [reflexivity|]. repeat (split; [assumption|]).
    cbn [within]. split; [|split].
    + exact (channel_close r r' M m H k _ _ _ _ HM Hm Hlt Wr Cr Hh T1 T2).
    + rewrite <- (Rplus_0_r (IZR H / 360)) in Cg.
      exact (channel_close g g' M m H k _ _ _ _ HM Hm Hlt Wg Cg Hh T1 T2).
    + exact (channel_close b b' M m H k _ _ _ _ HM Hm Hlt Wb Cb Hh T1 T2).
  - assert (r = b /\ g = b) as [-> ->] by lia.
    destruct (grey_round_trip b Hb) as (w & Ew & Hw). unfold round_trip in Ew.
    destruct (rgb_to_hsl_ok b b b Hb Hb Hb) as (h & s & l & E & Hh & Hs & Hl).
    rewrite E in Ew |- *. cbn [bind] in Ew |- *.
    destruct (hsl_to_rgb_bytes_int h s l) as (r' & g' & b' & E' & Br & Bg & Bb);
      [change (2 ^ 53) with 9007199254740992; lia|assumption|assumption|].
    rewrite E' in Ew. injection Ew as -> -> ->.
    rewrite E'. exists w, w, w. split; [reflexivity|]. repeat (split; [assumption|]).
    cbn [within]. lia.
Qed.

(** C1, amended. For every RGB triple with channels in [0, 255], the round
    trip [hsl_to_rgb (rgb_to_hsl r g b)] raises no error and returns a
    triple of channels in [0, 255], each within 10 of the original channel;
    a grey (v, v, v) comes back as a grey (w, w, w) with [v - 3 <= w <= v].
    The tolerance is 10, not 1: (5, 244, 240) comes back as
    (6, 238, 230). *)
Theorem round_trip_valid (r g b : Z) :
  in_byte r -> in_byte g -> in_byte b ->
  exists r' g' b',
    round_trip r g b = Ok (r', g', b')
    /\ in_byte r' /\ in_byte g' /\ in_byte b'
    /\ within 10 (r, g, b) (r', g', b')
    /\ (r = g -> g = b -> r' = g' /\ g' = b' /\ r - 3 <= r' <= r).
Proof.
  intros Hr Hg Hb.
  destruct (round_trip_close r g b Hr Hg Hb) as (r' & g' & b' & E & Br & Bg & Bb & W).
  exists r', g', b'. repeat (split; [assumption|]).
  intros -> ->. destruct (grey_round_trip b Hb) as (w & Ew & Hw).
  rewrite E in Ew. injection Ew as -> -> ->. auto.
Qed.

Lemma round_trip_valid_witness :
  in_byte 5 /\ in_byte 5 /\ in_byte 5
  /\ exists r' g' b',
       round_trip 5 5 5 = Ok (r', g', b')
       /\ in_byte r' /\ in_byte g' /\ in_byte b'
       /\ within 10 (5, 5, 5) (r', g', b')
       /\ (5 = 5 -> 5 = 5 -> r' = g' /\ g' = b' /\ 5 - 3 <= r' <= 5).
Proof.
  assert (B : in_byte 5) by (unfold in_byte; lia).
  split; [exact B|]. split; [exact B|]. split; [exact B|].
  exact (round_trip_valid 5 5 5 B B B).
Defined.

(** X1. For every RGB triple with channels in [0, 255], [hsl_to_rgb]
    applied to the result of [rgb_to_hsl] returns a triple of channels in
    [0, 255], each within 10 of the original channel. *)
Theorem round_trip_within_ten (r g b : Z) :
  in_byte r -> in_byte g -> in_byte b ->
  exists r' g' b',
    round_trip r g b = Ok (r', g', b')
    /\ in_byte r' /\ in_byte g' /\ in_byte b'
    /\ within 10 (r, g, b) (r', g', b').
Proof. exact (round_trip_close r g b). Qed.

Lemma round_trip_within_ten_witness :
  in_byte 5 /\ in_byte 244 /\ in_byte 240
  /\ exists r' g' b',
       round_trip 5 244 240 = Ok (r', g', b')
       /\ in_byte r' /\ in_byte g' /\ in_byte b'
       /\ within 10 (5, 244, 240) (r', g', b').
Proof.
  assert (B1 : in_byte 5) by (unfold in_byte; lia).
  assert (B2 : in_byte 244) by (unfold in_byte; lia).
  assert (B3 : in_byte 240) by (unfold in_byte; lia).
  split; [exact B1|]. split; [exact B2|]. split; [exact B3|].
  exact (round_trip_within_ten 5 244 240 B1 B2 B3).
Defined.

(** * Further properties of the hexadecimal conversions *)

Lemma byte_hex_table : forallb byte_hex_ok byte_values = true.
Proof. vm_compute. reflexivity. Qed.

Lemma format_02X_byte (k : Z) :
  in_byte k ->
  exists a b,
    format_02X k = String a (String b "")
    /\ is_hex_digit a = true /\ is_hex_digit b = true
    /\ upper_char a = a /\ upper_char b = b
    /\ int_base16 (String a (String b "")) = Some k.
Proof.
  intro Hk. pose proof byte_hex_table as T. rewrite forallb_forall in T.
  specialize (T k (range_In 256 k ltac:(unfold in_byte in Hk; lia))).
  unfold byte_hex_ok in T.
  destruct (format_02X k) as [|a [|b [|c t]]]; try discriminate T.
  rewrite !andb_true_iff in T. destruct T as [[[[Ha Hb] Ua] Ub] Hv].
  apply Ascii.eqb_eq in Ua, Ub.
  destruct (int_base16 (String a (String b ""))) as [v|] eqn:Ev; [|discriminate Hv].
  apply Z.eqb_eq in Hv. subst v. exists a, b. repeat split; assumption || reflexivity.
Qed.

Lemma first_bad_none (r g b : Z) :
  first_bad r g b = None <-> in_byte r /\ in_byte g /\ in_byte b.
Proof.
  unfold first_bad, in_byte.
  destruct (0 <=? r) eqn:R0, (r <=? 255) eqn:R1, (0 <=? g) eqn:G0, (g <=? 255) eqn:G1,
    (0 <=? b) eqn:B0, (b <=? 255) eqn:B1; cbn; split; intro K;
    try discriminate K; try reflexivity;
    rewrite ?Z.leb_le, ?Z.leb_gt in *; lia.
Qed.

Lemma first_bad_raises (r g b v : Z) (name : string) :
  first_bad r g b = Some (v, name) ->
  rgb_to_hex r g b
  = (text <- str_of_int v ;;
     Raise (ValueError ("Invalid " ++ name ++ " value: " ++ text ++ ". Must be 0-255."))).
Proof.
  unfold first_bad, rgb_to_hex, check_channel.
  destruct ((0 <=? r) && (r <=? 255)); cbn [negb bind].
  - destruct ((0 <=? g) && (g <=? 255)); cbn [negb bind].
    + destruct ((0 <=? b) && (b <=? 255)); cbn [negb bind]; [discriminate|].
      intro H. injection H as <- <-. now destruct (str_of_int b).
    + intro H. injection H as <- <-. now destruct (str_of_int g).
  - intro H. injection H as <- <-. now destruct (str_of_int r).
Qed.

(** X2. [rgb_to_hex] returns a string exactly when the three channels are
    in [0, 255]; otherwise it raises [ValueError].  The error is about the
    first channel out of range, in the order red, green, blue: the message
    names the channel and gives its value in decimal, while a value of more
    than 4300 digits, which the interpreter refuses to write in decimal,
    raises the [ValueError] of that conversion instead. *)
Theorem rgb_to_hex_range_check (r g b : Z) :
  (in_byte r /\ in_byte g /\ in_byte b <-> exists s, rgb_to_hex r g b = Ok s)
  /\ (~ (in_byte r /\ in_byte g /\ in_byte b) -> raises_ValueError (rgb_to_hex r g b))
  /\ (forall v name, first_bad r g b = Some (v, name) ->
       Z.abs v < 10 ^ max_str_digits ->
       rgb_to_hex r g b
       = Raise (ValueError ("Invalid " ++ name ++ " value: " ++ decimal v
                            ++ ". Must be 0-255.")))
  /\ (forall v name, first_bad r g b = Some (v, name) ->
       10 ^ max_str_digits <= Z.abs v ->
       rgb_to_hex r g b
       = Raise (ValueError ("Exceeds the limit (4300 digits) for integer string conversion; "
                            ++ "use sys.set_int_max_str_digits() to increase the limit"))).
Proof.
  assert (Small : forall v name, first_bad r g b = Some (v, name) ->
            Z.abs v < 10 ^ max_str_digits ->
            rgb_to_hex r g b
            = Raise (ValueError ("Invalid " ++ name ++ " value: " ++ decimal v
                                 ++ ". Must be 0-255."))).
  { intros v name Hf Hv. rewrite (first_bad_raises r g b v name Hf).
    unfold str_of_int. apply Z.ltb_lt in Hv. rewrite Hv. reflexivity. }
  assert (Large : forall v name, first_bad r g b = Some (v, name) ->
            10 ^ max_str_digits <= Z.abs v ->
            rgb_to_hex r g b
            = Raise (ValueError ("Exceeds the limit (4300 digits) for integer string conversion; "
                                 ++ "use sys.set_int_max_str_digits() to increase the limit"))).
  { intros v name Hf Hv. rewrite (first_bad_raises r g b v name Hf).
    unfold str_of_int. apply Z.ltb_ge in Hv. rewrite Hv. reflexivity. }
  assert (Bad : ~ (in_byte r /\ in_byte g /\ in_byte b) ->
                raises_ValueError (rgb_to_hex r g b)).
  { intro H. destruct (first_bad r g b) as [[v name]|] eqn:Hf.
    - destruct (Z_lt_le_dec (Z.abs v) (10 ^ max_str_digits)) as [Hv|Hv].
      + rewrite (Small v name eq_refl Hv). now eexists.
      + rewrite (Large v name eq_refl Hv). now eexists.
    - apply first_bad_none in Hf. contradiction. }
  split; [|split; [exact Bad|split; [exact Small|exact Large]]].
  split.
  - intros (Hr & Hg & Hb). rewrite (rgb_to_hex_bytes r g b Hr Hg Hb). now eexists.
  - intros [s E]. destruct (first_bad r g b) as [[v name]|] eqn:Hf.
    + assert (N : ~ (in_byte r /\ in_byte g /\ in_byte b)).
      { intro H. apply first_bad_none in H. congruence. }
      destruct (Bad N) as [msg Hm]. rewrite E in Hm. discriminate Hm.
    + now apply first_bad_none.
Qed.

Lemma rgb_to_hex_valid (r g b : Z) :
  in_byte r -> in_byte g -> in_byte b ->
  exists s,
    rgb_to_hex r g b = Ok s
    /\ String.length s = 7%nat /\ valid_hex s /\ upper s = s
    /\ hex_to_rgb s = Ok (r, g, b).
Proof.
  intros Hr Hg Hb. rewrite (rgb_to_hex_bytes r g b Hr Hg Hb).
  destruct (format_02X_byte r Hr) as (a1 & a2 & Ea & Ha1 & Ha2 & Ua1 & Ua2 & Va).
  destruct (format_02X_byte g Hg) as (b1 & b2 & Eb & Hb1 & Hb2 & Ub1 & Ub2 & Vb).
  destruct (format_02X_byte b Hb) as (c1 & c2 & Ec & Hc1 & Hc2 & Uc1 & Uc2 & Vc).
  rewrite Ea, Eb, Ec. cbn [append].
  eexists. split; [reflexivity|]. split; [reflexivity|]. split; [|split].
  - split; [reflexivity|]. cbn [strip_one_hash all_hex].
    now rewrite Ha1, Ha2, Hb1, Hb2, Hc1, Hc2.
  - cbn [upper]. rewrite Ua1, Ua2, Ub1, Ub2, Uc1, Uc2. reflexivity.
  - unfold hex_to_rgb.
    change (lstrip "#" (String "#" ?t)) with (lstrip "#" t).
    rewrite (lstrip_hash_hex a1 _ Ha1). cbn [String.length Nat.eqb negb substring].
    rewrite Va, Vb, Vc. reflexivity.
Qed.

(** X3. For channels in [0, 255], [rgb_to_hex] returns a ['#'] followed by
    six upper-case hexadecimal digits, and [hex_to_rgb] reads the three
    channels back from it. *)
Theorem rgb_hex_round_trip (r g b : Z) :
  in_byte r -> in_byte g -> in_byte b ->
  exists s,
    rgb_to_hex r g b = Ok s
    /\ String.length s = 7%nat /\ valid_hex s /\ upper s = s
    /\ hex_to_rgb s = Ok (r, g, b).
Proof. exact (rgb_to_hex_valid r g b). Qed.

Lemma rgb_hex_round_trip_witness :
  in_byte 255 /\ in_byte 128 /\ in_byte 0
  /\ exists s,
       rgb_to_hex 255 128 0 = Ok s
       /\ String.length s = 7%nat /\ valid_hex s /\ upper s = s
       /\ hex_to_rgb s = Ok (255, 128, 0).
Proof.
  assert (B1 : in_byte 255) by (unfold in_byte; lia).
  assert (B2 : in_byte 128) by (unfold in_byte; lia).
  assert (B3 : in_byte 0) by (unfold in_byte; lia).
  split; [exact B1|]. split; [exact B2|]. split; [exact B3|].
  exact (rgb_hex_round_trip 255 128 0 B1 B2 B3).
Defined.

(** * Further properties of the operations on colours *)

(** X5. For every integer hue below [2^53] in absolute value, also outside
    [0, 360], and for every float hue, with saturation and lightness in
    [0, 100], [hsl_to_rgb] raises no error and returns channels in
    [0, 255]. *)
Theorem hsl_to_rgb_in_range (h : num) (s l : Z) :
  hue_ok h -> 0 <= s <= 100 -> 0 <= l <= 100 ->
  exists r g b,
    hsl_to_rgb h s l = Ok (r, g, b) /\ in_byte r /\ in_byte g /\ in_byte b.
Proof.
  intros Hh Hs Hl. destruct h as [z|f].
  - now apply hsl_to_rgb_bytes_int.
  - now apply hsl_to_rgb_bytes_float.
Qed.

Lemma hsl_to_rgb_in_range_witness :
  hue_ok (PInt (-725)) /\ 0 <= 40 <= 100 /\ 0 <= 60 <= 100
  /\ exists r g b,
       hsl_to_rgb (PInt (-725)) 40 60 = Ok (r, g, b)
       /\ in_byte r /\ in_byte g /\ in_byte b.
Proof.
  assert (H1 : hue_ok (PInt (-725))) by (vm_compute; reflexivity).
  assert (H2 : 0 <= 40 <= 100) by lia.
  assert (H3 : 0 <= 60 <= 100) by lia.
  split; [exact H1|]. split; [exact H2|]. split; [exact H3|].
  exact (hsl_to_rgb_in_range (PInt (-725)) 40 60 H1 H2 H3).
Defined.

(** What [emit] returns for channels in range is a valid colour. *)
Lemma emit_valid (is_hex : bool) (r g b : Z) :
  in_byte r -> in_byte g -> in_byte b ->
  exists c, emit is_hex r g b = Ok c /\ is_str c = is_hex /\ valid_color c
            /\ unpack c = Ok (r, g, b).
Proof.
  intros Hr Hg Hb. unfold emit. destruct is_hex.
  - destruct (rgb_to_hex_valid r g b Hr Hg Hb) as (s & E & _ & V & _ & P).
    rewrite E. cbn [bind]. exists (Hex s).
    split; [reflexivity|]. split; [reflexivity|]. split; [exact V|exact P].
  - exists (Rgb r g b).
    split; [reflexivity|]. split; [reflexivity|].
    split; [exact (conj Hr (conj Hg Hb))|reflexivity].
Qed.

Lemma colour_of_valid (is_hex : bool) (new_h : num) (new_s new_l : Z) :
  hue_ok new_h -> 0 <= new_s <= 100 -> 0 <= new_l <= 100 ->
  exists c, colour_of is_hex new_h new_s new_l = Ok c
            /\ is_str c = is_hex /\ valid_color c.
Proof.
  intros Hh Hs Hl.
  assert (exists r g b, hsl_to_rgb new_h new_s new_l = Ok (r, g, b)
                        /\ in_byte r /\ in_byte g /\ in_byte b)
    as (r & g & b & E & Hr & Hg & Hb).
  { destruct new_h as [z|f].
    - now apply hsl_to_rgb_bytes_int.
    - now apply hsl_to_rgb_bytes_float. }
  unfold colour_of. rewrite E. cbn [bind].
  destruct (emit_valid is_hex r g b Hr Hg Hb) as (c & Ec & Rc & Vc & _).
  now exists c.
Qed.

(** The common shape of the three operations, with the validity of the
    result. *)
Lemma via_hsl_valid (c : color) (f : Z -> Z -> Z -> Z * Z * Z) :
  valid_color c ->
  (forall h s l, 0 <= h <= 360 -> 0 <= s <= 100 -> 0 <= l <= 100 ->
     let '(h', s', l') := f h s l in
     0 <= h' <= 360 /\ 0 <= s' <= 100 /\ 0 <= l' <= 100) ->
  exists c',
    ('(r, g, b) <- unpack c ;;
     '(h, s, l) <- rgb_to_hsl r g b ;;
     let '(h', s', l') := f h s l in
     '(new_r, new_g, new_b) <- hsl_to_rgb (PInt h') s' l' ;;
     emit (is_str c) new_r new_g new_b) = Ok c'
    /\ is_str c' = is_str c /\ valid_color c'.
Proof.
  intros Hc Hf.
  destruct (unpack_valid c Hc) as (r & g & b & E & Hr & Hg & Hb).
  rewrite E. cbn [bind].
  destruct (rgb_to_hsl_ok r g b Hr Hg Hb) as (h & s & l & E2 & Hh & Hs & Hl).
  rewrite E2. cbn [bind].
  specialize (Hf h s l Hh Hs Hl). destruct (f h s l) as [[h' s'] l'].
  destruct Hf as (Hh' & Hs' & Hl').
  destruct (hsl_to_rgb_bytes_int h' s' l' ltac:(lia) Hs' Hl')
    as (nr & ng & nb & E3 & Bnr & Bng & Bnb).
  rewrite E3. cbn [bind].
  destruct (emit_valid (is_str c) nr ng nb Bnr Bng Bnb) as (c' & Ec & Rc & Vc & _).
  now exists c'.
Qed.

(** X6. For every valid colour, and every amount in [0, 1] for
    [lighten_color] and [darken_color], the three operations return a valid
    colour: channels in [0, 255], or a ['#'] and six hexadecimal digits. *)
Theorem operations_return_valid_colours (c : color) (amount : float) :
  valid_color c -> valid_amount amount ->
  (exists c1, lighten_color c amount = Ok c1 /\ valid_color c1)
  /\ (exists c2, darken_color c amount = Ok c2 /\ valid_color c2)
  /\ (exists c3, get_complementary_color c = Ok c3 /\ valid_color c3).
Proof.
  intros Hc Ha. destruct (amount_percent amount Ha) as (k & Ek & Hk).
  split; [|split].
  - destruct (via_hsl_valid c (fun h s l => (h, s, Z.min 100 (l + k))) Hc) as (c' & E & _ & V).
    { intros; cbv beta; lia. }
    exists c'. split; [|assumption]. rewrite <- E. unfold lighten_color.
    destruct (unpack c) as [[[r g] b]|]; [|reflexivity]. cbn [bind].
    destruct (rgb_to_hsl r g b) as [[[h s] l]|]; [|reflexivity]. cbn [bind].
    rewrite Ek. reflexivity.
  - destruct (via_hsl_valid c (fun h s l => (h, s, Z.max 0 (l - k))) Hc) as (c' & E & _ & V).
    { intros; cbv beta; lia. }
    exists c'. split; [|assumption]. rewrite <- E. unfold darken_color.
    destruct (unpack c) as [[[r g] b]|]; [|reflexivity]. cbn [bind].
    destruct (rgb_to_hsl r g b) as [[[h s] l]|]; [|reflexivity]. cbn [bind].
    rewrite Ek. reflexivity.
  - destruct (via_hsl_valid c (fun h s l => ((h + 180) mod 360, s, l)) Hc) as (c' & E & _ & V).
    { intros h s l Hh Hs Hl. cbv beta.
      pose proof (Z.mod_pos_bound (h + 180) 360 ltac:(lia)). lia. }
    exists c'. split; [|assumption]. rewrite <- E. unfold get_complementary_color.
    destruct (unpack c) as [[[r g] b]|]; [|reflexivity]. cbn [bind].
    destruct (rgb_to_hsl r g b) as [[[h s] l]|]; reflexivity.
Qed.

Lemma operations_return_valid_colours_witness :
  valid_color (Hex "#3366cc") /\ valid_amount 0.25
  /\ (exists c1, lighten_color (Hex "#3366cc") 0.25 = Ok c1 /\ valid_color c1)
  /\ (exists c2, darken_color (Hex "#3366cc") 0.25 = Ok c2 /\ valid_color c2)
  /\ (exists c3, get_complementary_color (Hex "#3366cc") = Ok c3 /\ valid_color c3).
Proof.
  assert (V : valid_color (Hex "#3366cc")) by (split; reflexivity).
  assert (A : valid_amount 0.25) by (split; reflexivity).
  split; [exact V|]. split; [exact A|].
  exact (operations_return_valid_colours (Hex "#3366cc") 0.25 V A).
Defined.

(** ** Greys *)

Lemma grey_hsl_table : forallb grey_hsl_ok byte_values = true.
Proof. vm_compute. reflexivity. Qed.

Lemma grey_hsl (v : Z) :
  in_byte v -> exists l, rgb_to_hsl v v v = Ok (0, 0, l) /\ 0 <= l <= 100.
Proof.
  intro Hv. pose proof grey_hsl_table as T. rewrite forallb_forall in T.
  specialize (T v (range_In 256 v ltac:(unfold in_byte in Hv; lia))).
  unfold grey_hsl_ok in T. destruct (rgb_to_hsl v v v) as [[[h s] l]|]; [|discriminate T].
  rewrite !andb_true_iff in T. destruct T as [[[Hh Hs] Hl0] Hl1].
  apply Z.eqb_eq in Hh, Hs. apply Z.leb_le in Hl0, Hl1. subst h s.
  exists l. split; [reflexivity|lia].
Qed.

(** With saturation zero, [hsl_to_rgb] returns a grey, whatever the hue. *)
Lemma hsl_to_rgb_grey (h l : Z) :
  Z.abs h < 2 ^ 53 -> 0 <= l <= 100 ->
  exists w, hsl_to_rgb (PInt h) 0 l = Ok (w, w, w) /\ in_byte w.
Proof.
  intros Hh Hl.
  destruct (hsl_to_rgb_bytes_int h 0 l Hh ltac:(lia) Hl) as (r & g & b & E & Hr & _).
  exists r. split; [|assumption].
  unfold hsl_to_rgb in E |- *.
  destruct (num_truediv (PInt h) (PFloat 360)) as [fh|]; [|discriminate E].
  cbn [bind] in E |- *.
  assert (E0 : num_truediv (PInt 0) (PFloat 100) = Ok 0%float) by reflexivity.
  rewrite E0 in E |- *. cbn [bind] in E |- *.
  destruct (num_truediv (PInt l) (PFloat 100)) as [fl|]; [|discriminate E].
  cbn [bind] in E |- *.
  unfold colorsys.hls_to_rgb in E |- *.
  change (0 =? 0)%float with true in E |- *. cbv iota in E |- *. cbn [bind] in E |- *.
  destruct (py_int (fl * 255)%float) as [k|]; [|discriminate E].
  cbn [bind] in E |- *. injection E as <- _ _. reflexivity.
Qed.

(** X8. A grey stays a grey: for every grey [(v, v, v)] with [v] in
    [0, 255] and every amount in [0, 1], [lighten_color], [darken_color] and
    [get_complementary_color] return a grey [(w, w, w)] with [w] in
    [0, 255]. *)
Theorem grey_stays_grey (v : Z) (amount : float) :
  in_byte v -> valid_amount amount ->
  (exists w, lighten_color (Rgb v v v) amount = Ok (Rgb w w w) /\ in_byte w)
  /\ (exists w, darken_color (Rgb v v v) amount = Ok (Rgb w w w) /\ in_byte w)
  /\ (exists w, get_complementary_color (Rgb v v v) = Ok (Rgb w w w) /\ in_byte w).
Proof.
  intros Hv Ha. destruct (amount_percent amount Ha) as (k & Ek & Hk).
  destruct (grey_hsl v Hv) as (l & E & Hl).
  unfold lighten_color, darken_color, get_complementary_color.
  cbn [unpack is_str bind]. rewrite E. cbn [bind]. rewrite Ek. cbn [bind].
  assert (B : forall z, 0 <= z <= 360 -> Z.abs z < 2 ^ 53).
  { intros z Hz. change (2 ^ 53) with 9007199254740992. lia. }
  split; [|split].
  - destruct (hsl_to_rgb_grey 0 (Z.min 100 (l + k)) (B 0 ltac:(lia)) ltac:(lia))
      as (w & Ew & Hw).
    rewrite Ew. cbn [bind emit]. now exists w.
  - destruct (hsl_to_rgb_grey 0 (Z.max 0 (l - k)) (B 0 ltac:(lia)) ltac:(lia))
      as (w & Ew & Hw).
    rewrite Ew. cbn [bind emit]. now exists w.
  - destruct (hsl_to_rgb_grey ((0 + 180) mod 360) l (B ((0 + 180) mod 360) ltac:(vm_compute; split; discriminate)) Hl)
      as (w & Ew & Hw).
    rewrite Ew. cbn [bind emit]. now exists w.
Qed.

Lemma grey_stays_grey_witness :
  in_byte 90 /\ valid_amount 0.3
  /\ (exists w, lighten_color (Rgb 90 90 90) 0.3 = Ok (Rgb w w w) /\ in_byte w)
  /\ (exists w, darken_color (Rgb 90 90 90) 0.3 = Ok (Rgb w w w) /\ in_byte w)
  /\ (exists w, get_complementary_color (Rgb 90 90 90) = Ok (Rgb w w w) /\ in_byte w).
Proof.
  assert (B : in_byte 90) by (unfold in_byte; lia).
  assert (A : valid_amount 0.3) by (split; reflexivity).
  split; [exact B|]. split; [exact A|].
  exact (grey_stays_grey 90 0.3 B A).
Defined.

(** * Darkness *)

(** The comparison of a float with an integer is monotone in the integer,
    for every float, the infinities and NaN included. *)
Lemma float_lt_int_mono (f : float) (z z' : Z) :
  z <= z' -> float_lt_int f z = true -> float_lt_int f z' = true.
Proof.
  intro Hz. unfold float_lt_int. destruct (Prim2SF f) as [s|s| |s m e].
  - rewrite !Z.ltb_lt. lia.
  - trivial.
  - trivial.
  - destruct (0 <=? e) eqn:He; rewrite !Z.ltb_lt.
    + lia.
    + apply Z.leb_gt in He.
      assert (0 < 2 ^ (- e)) by (apply Z.pow_pos_nonneg; lia). nia.
Qed.

(** On a finite float the comparison is the one of the real numbers. *)
Lemma float_lt_int_spec (f : float) (z : Z) :
  Ffin f -> float_lt_int f z = true <-> (F2R f < IZR z)%R.
Proof.
  unfold Ffin, F2R, float_lt_int. destruct (Prim2SF f) as [s|s| |s m e]; cbn [SFfin SF2R].
  - intros _. rewrite Z.ltb_lt. split; [apply IZR_lt|apply lt_IZR].
  - discriminate.
  - discriminate.
  - intros _. set (v := cond_Zopp s (Z.pos m)).
    destruct (0 <=? e) eqn:He; rewrite Z.ltb_lt.
    + apply Z.leb_le in He. rewrite (bpow_IZR e He), <- mult_IZR.
      split; [apply IZR_lt|apply lt_IZR].
    + apply Z.leb_gt in He.
      assert (Hp : (0 < bpow (- e))%R) by apply bpow_gt_0.
      assert (Hi : (bpow e * bpow (- e) = 1)%R).
      { pose proof (bpow_inv (- e)) as Hi. rewrite Z.opp_involutive in Hi. exact Hi. }
      assert (Hm : (IZR (z * 2 ^ (- e)) = IZR z * bpow (- e))%R).
      { rewrite mult_IZR, <- bpow_IZR by lia. reflexivity. }
      split.
      * intro H. apply IZR_lt in H. rewrite Hm in H.
        apply (Rmult_lt_reg_r (bpow (- e))); [assumption|].
        rewrite Rmult_assoc, Hi, Rmult_1_r. exact H.
      * intro H. apply lt_IZR. rewrite Hm.
        apply (Rmult_lt_compat_r (bpow (- e))) in H; [|assumption].
        rewrite Rmult_assoc, Hi, Rmult_1_r in H. exact H.
Qed.

(** The weighted sum of three channels in [0, 255] is finite and lies in
    [0, 256). *)
Lemma luminance_range (r g b : Z) :
  in_byte r -> in_byte g -> in_byte b ->
  exists lum, luminance r g b = Ok lum /\ Ffin lum /\ (0 <= F2R lum < 256)%R.
Proof.
  intros Hr Hg Hb. unfold in_byte in *.
  assert (B : forall z, 0 <= z <= 255 -> Z.abs z < 2 ^ 53).
  { intros z Hz. change (2 ^ 53) with 9007199254740992. lia. }
  destruct (float_of_int_exact r (B r Hr)) as (fr & Er & Fr & Vr).
  destruct (float_of_int_exact g (B g Hg)) as (fg & Eg & Fg & Vg).
  destruct (float_of_int_exact b (B b Hb)) as (fb & Eb & Fb & Vb).
  unfold luminance. rewrite Er, Eg, Eb. cbn [bind].
  eexists. split; [reflexivity|].
  float_lit 0.299%float K1. destruct K1 as [F1 K1].
  float_lit 0.587%float K2. destruct K2 as [F2 K2].
  float_lit 0.114%float K3. destruct K3 as [F3 K3].
  assert (Rr : (0 <= F2R fr <= 255)%R).
  { rewrite Vr. split; [apply (IZR_le 0)|apply (IZR_le r 255)]; lia. }
  assert (Rg : (0 <= F2R fg <= 255)%R).
  { rewrite Vg. split; [apply (IZR_le 0)|apply (IZR_le g 255)]; lia. }
  assert (Rb : (0 <= F2R fb <= 255)%R).
  { rewrite Vb. split; [apply (IZR_le 0)|apply (IZR_le b 255)]; lia. }
  pose proof eps_pos as Hep.
  assert (Hes : (eps <= / 1000000)%R) by (unfold eps; lra).
  destruct (Fmul_nonneg 0.299%float fr (2991 / 10000) 255 F1 Fr
              ltac:(lra) Rr ltac:(lra)) as (P1 & Q1).
  destruct (Fmul_nonneg 0.587%float fg (5871 / 10000) 255 F2 Fg
              ltac:(lra) Rg ltac:(lra)) as (P2 & Q2).
  destruct (Fmul_nonneg 0.114%float fb (1141 / 10000) 255 F3 Fb
              ltac:(lra) Rb ltac:(lra)) as (P3 & Q3).
  set (x1 := (0.299 * fr)%float) in *.
  set (x2 := (0.587 * fg)%float) in *.
  set (x3 := (0.114 * fb)%float) in *.
  assert (B1 : (0 <= F2R x1 <= 763 / 10)%R) by lra.
  assert (B2 : (0 <= F2R x2 <= 1498 / 10)%R) by lra.
  assert (B3 : (0 <= F2R x3 <= 291 / 10)%R) by lra.
  destruct (Fadd_nonneg x1 x2 (763 / 10) (1498 / 10) P1 P2 B1 B2 ltac:(lra)) as (P4 & Q4).
  assert (B4 : (0 <= F2R (x1 + x2) <= 2262 / 10)%R) by lra.
  destruct (Fadd_nonneg (x1 + x2)%float x3 (2262 / 10) (291 / 10) P4 P3 B4 B3 ltac:(lra))
    as (P5 & Q5).
  split; [exact P5|]. lra.
Qed.

(** C8, amended. [is_dark_color] compares strictly: on every valid colour
    and for every threshold it returns True exactly when the luminance
    [0.299 r + 0.587 g + 0.114 b], computed in binary64, is less than the
    threshold, so a luminance equal to the threshold is not dark.  Black is
    dark and white is not at the default threshold; black at the threshold
    0 and white at the threshold 255, whose luminances 0.0 and 255.0 equal
    the threshold, are not dark. *)
Theorem is_dark_boundary :
  (forall (c : color) (t : Z), valid_color c ->
     exists r g b lum d,
       unpack c = Ok (r, g, b) /\ luminance r g b = Ok lum /\ Ffin lum
       /\ is_dark_color c t = Ok d
       /\ (d = true <-> (F2R lum < IZR t)%R))
  /\ is_dark_color (Rgb 0 0 0) default_threshold = Ok true
  /\ is_dark_color (Rgb 255 255 255) default_threshold = Ok false
  /\ luminance 0 0 0 = Ok 0%float
  /\ is_dark_color (Rgb 0 0 0) 0 = Ok false
  /\ luminance 255 255 255 = Ok 255%float
  /\ is_dark_color (Rgb 255 255 255) 255 = Ok false.
Proof.
  split; [|repeat split; vm_compute; reflexivity].
  intros c t Hc. destruct (unpack_valid c Hc) as (r & g & b & E & Hr & Hg & Hb).
  destruct (luminance_range r g b Hr Hg Hb) as (lum & El & Fl & _).
  exists r, g, b, lum, (float_lt_int lum t).
  split; [exact E|]. split; [exact El|]. split; [exact Fl|]. split.
  - unfold is_dark_color. rewrite E. cbn [bind]. rewrite El. reflexivity.
  - exact (float_lt_int_spec lum t Fl).
Qed.

(** X11. [is_dark_color] is monotone in the threshold: a colour that is
    dark for a threshold is dark for every larger one. *)
Theorem is_dark_monotone (c : color) (t t' : Z) :
  t <= t' -> is_dark_color c t = Ok true -> is_dark_color c t' = Ok true.
Proof.
  intros Ht. unfold is_dark_color.
  destruct (unpack c) as [[[r g] b]|]; [|discriminate]. cbn [bind].
  destruct (luminance r g b) as [lum|]; [|discriminate]. cbn [bind].
  intro H. injection H as H. now rewrite (float_lt_int_mono lum t t' Ht H).
Qed.

Lemma is_dark_monotone_witness :
  100 <= 200
  /\ is_dark_color (Rgb 90 90 90) 100 = Ok true
  /\ is_dark_color (Rgb 90 90 90) 200 = Ok true.
Proof.
  assert (H1 : 100 <= 200) by lia.
  assert (H2 : is_dark_color (Rgb 90 90 90) 100 = Ok true) by (vm_compute; reflexivity).
  split; [exact H1|]. split; [exact H2|].
  exact (is_dark_monotone (Rgb 90 90 90) 100 200 H1 H2).
Defined.

(** X12. On a valid colour [is_dark_color] raises no error, for every
    integer threshold; no colour is dark for a threshold of 0 or less, and
    every colour is dark for a threshold of 256 or more. *)
Theorem is_dark_extremes (c : color) (t : Z) :
  valid_color c ->
  exists d, is_dark_color c t = Ok d
            /\ (t <= 0 -> d = false) /\ (256 <= t -> d = true).
Proof.
  intro Hc. destruct (unpack_valid c Hc) as (r & g & b & E & Hr & Hg & Hb).
  destruct (luminance_range r g b Hr Hg Hb) as (lum & El & Fl & Rl).
  unfold is_dark_color. rewrite E. cbn [bind]. rewrite El. cbn [bind].
  eexists. split; [reflexivity|]. split.
  - intro Ht. destruct (float_lt_int lum t) eqn:D; [|reflexivity].
    apply (float_lt_int_spec lum t Fl) in D.
    apply (IZR_le t 0) in Ht. lra.
  - intro Ht. apply (float_lt_int_spec lum t Fl).
    apply (IZR_le 256 t) in Ht. lra.
Qed.

Lemma is_dark_extremes_witness :
  valid_color (Hex "#FFFFFF")
  /\ exists d, is_dark_color (Hex "#FFFFFF") 256 = Ok d
               /\ (256 <= 0 -> d = false) /\ (256 <= 256 -> d = true).
Proof.
  assert (V : valid_color (Hex "#FFFFFF")) by (split; reflexivity).
  split; [exact V|]. exact (is_dark_extremes (Hex "#FFFFFF") 256 V).
Defined.

(** * Darkening to black *)

Lemma black_table : forallb black_bounds percents = true.
Proof. vm_compute. reflexivity. Qed.

Lemma black_bounds_at (s : Z) :
  0 <= s <= 100 ->
  F2R (fst (bounds_of (percent 0) (percent s))) = 0%R
  /\ F2R (snd (bounds_of (percent 0) (percent s))) = 0%R.
Proof.
  intro Hs. pose proof black_table as T. rewrite forallb_forall in T.
  specialize (T s (range_In 101 s ltac:(lia))). unfold black_bounds in T.
  destruct (bounds_of (percent 0) (percent s)) as [m1 m2]. cbn [fst snd].
  unfold F2R.
  destruct (Prim2SF m1); try discriminate T.
  destruct (Prim2SF m2); try discriminate T.
  split; reflexivity.
Qed.

Lemma chan_near_zero (c : Z) (x : R) :
  in_byte c -> chan_near 0 0 c x -> c = 0.
Proof.
  intros [H0 _] (U & w & k & _ & _ & H).
  assert (H1 : (IZR c < 1)%R) by (unfold err in H; lra).
  apply lt_IZR in H1. lia.
Qed.

(** With lightness zero, [hsl_to_rgb] returns black. *)
Lemma hsl_to_rgb_black (h s : Z) :
  0 <= h <= 360 -> 0 <= s <= 100 -> hsl_to_rgb (PInt h) s 0 = Ok (0, 0, 0).
Proof.
  intros Hh Hs.
  destruct (hsl_to_rgb_value h s 0 Hh Hs ltac:(lia))
    as (r & g & b & E & Br & Bg & Bb & Nr & Ng & Nb).
  destruct (black_bounds_at s Hs) as [E1 E2]. rewrite E1, E2 in Nr, Ng, Nb.
  apply (chan_near_zero r _ Br) in Nr. apply (chan_near_zero g _ Bg) in Ng.
  apply (chan_near_zero b _ Bb) in Nb. subst. exact E.
Qed.

(** X7. [darken_color] returns black, in the representation of its input,
    as soon as the amount in percent, [int(amount * 100)], reaches the HSL
    lightness of the colour; and it does so for the amount 1.0, whatever
    the colour. *)
Theorem darken_to_black (c : color) (amount : float) (r g b h s l k : Z) :
  valid_color c -> unpack c = Ok (r, g, b) -> rgb_to_hsl r g b = Ok (h, s, l) ->
  py_int (amount * 100)%float = Ok k -> l <= k ->
  darken_color c amount = Ok (if is_str c then Hex "#000000" else Rgb 0 0 0)
  /\ darken_color c 1 = Ok (if is_str c then Hex "#000000" else Rgb 0 0 0).
Proof.
  intros Hc Eu Eh Ek Hk.
  destruct (unpack_valid c Hc) as (r0 & g0 & b0 & E & Hr & Hg & Hb).
  rewrite Eu in E. injection E as <- <- <-.
  destruct (rgb_to_hsl_ok r g b Hr Hg Hb) as (h0 & s0 & l0 & E2 & Hh & Hs & Hl).
  rewrite Eh in E2. injection E2 as <- <- <-.
  assert (E100 : py_int (1 * 100)%float = Ok 100) by (vm_compute; reflexivity).
  unfold darken_color. rewrite Eu. cbn [bind]. rewrite Eh. cbn [bind].
  rewrite Ek, E100. cbn [bind].
  replace (Z.max 0 (l - k)) with 0 by lia.
  replace (Z.max 0 (l - 100)) with 0 by lia.
  rewrite (hsl_to_rgb_black h s Hh Hs). cbn [bind].
  destruct c; split; reflexivity.
Qed.

Lemma darken_to_black_witness :
  valid_color (Hex "#336699")
  /\ unpack (Hex "#336699") = Ok (51, 102, 153)
  /\ rgb_to_hsl 51 102 153 = Ok (210, 49, 40)
  /\ py_int (0.5 * 100)%float = Ok 50
  /\ 40 <= 50
  /\ darken_color (Hex "#336699") 0.5 = Ok (Hex "#000000")
  /\ darken_color (Hex "#336699") 1 = Ok (Hex "#000000").
Proof.
  assert (V : valid_color (Hex "#336699")) by (split; reflexivity).
  assert (U : unpack (Hex "#336699") = Ok (51, 102, 153)) by reflexivity.
  assert (H : rgb_to_hsl 51 102 153 = Ok (210, 49, 40)) by (vm_compute; reflexivity).
  assert (K : py_int (0.5 * 100)%float = Ok 50) by (vm_compute; reflexivity).
  assert (L : 40 <= 50) by lia.
  split; [exact V|]. split; [exact U|]. split; [exact H|]. split; [exact K|].
  split; [exact L|].
  exact (darken_to_black (Hex "#336699") 0.5 51 102 153 210 49 40 50 V U H K L).
Defined.

(** * Palettes: the colours *)

Lemma appends_inj {A : Type} (body : A -> list color -> result (list color))
  (x : A) (c c' : color) :
  appends body x c -> appends body x c' -> c = c'.
Proof.
  intros H H'. specialize (H []). specialize (H' []). rewrite H in H'.
  now injection H'.
Qed.

Lemma for_each_Forall {A : Type} (Q : color -> Prop) (l : list A)
  (body : A -> list color -> result (list color)) :
  (forall x, In x l -> exists c, appends body x c /\ Q c) ->
  forall acc, Forall Q acc ->
    exists r, for_each l body acc = Ok r /\ Forall Q r.
Proof.
  induction l as [|x l IH]; intros H acc Hacc.
  - exists acc. now split.
  - destruct (H x (or_introl eq_refl)) as (c & Hc & Qc).
    cbn [for_each]. rewrite (Hc acc). cbn [bind].
    apply IH.
    + intros y Hy. apply H. now right.
    + apply Forall_app. split; [assumption|]. now constructor.
Qed.

Lemma colour_of_good (is_hex : bool) (new_h : num) (new_s new_l : Z) (c : color) :
  hue_ok new_h -> 0 <= new_s <= 100 -> 0 <= new_l <= 100 ->
  colour_of is_hex new_h new_s new_l = Ok c -> good is_hex c.
Proof.
  intros Hh Hs Hl E.
  destruct (colour_of_valid is_hex new_h new_s new_l Hh Hs Hl) as (c' & E' & R & V).
  rewrite E in E'. injection E' as <-. now split.
Qed.

Lemma clamp_int_range (lo hi base : Z) (delta : float) (k : Z) :
  0 <= lo <= hi -> Z.abs base < 2 ^ 53 ->
  clamp_int lo hi base delta = Ok k -> lo <= k <= hi.
Proof.
  intros Hb Hbase E.
  destruct (clamp_int_ok lo hi base delta Hb Hbase) as (k' & E' & R).
  rewrite E in E'. now injection E' as <-.
Qed.

Section Colours.

Variables (is_hex : bool) (h s l count : Z).
Hypothesis Hh : 0 <= h <= 360.
Hypothesis Hs : 0 <= s <= 100.
Hypothesis Hl : 0 <= l <= 100.
Hypothesis Hcount : count <= 2 ^ 53.

Lemma small_abs (v : Z) : 0 <= v <= 360 -> Z.abs v < 2 ^ 53.
Proof. intro Hv. change (2 ^ 53) with 9007199254740992. lia. Qed.

Lemma analogous_body_good (step : num) (i : Z) :
  (step = PInt 0 \/ exists q, step = PFloat q) -> 0 <= i < count ->
  exists c, appends (analogous_body is_hex h s l step) i c /\ good is_hex c.
Proof.
  intros Hstep Hi.
  destruct (analogous_body_appends is_hex h s l count Hh Hs Hl Hcount step i Hstep Hi)
    as (c & Happ & Ecol & _).
  exists c. split; [assumption|].
  destruct (analogous_hue_ok h step i Hh ltac:(lia) Hstep) as (new_h & E & Hn).
  rewrite E in Ecol. cbn [bind] in Ecol.
  exact (colour_of_good is_hex new_h s l c Hn Hs Hl Ecol).
Qed.

Lemma monochromatic_body_good (i : Z) :
  0 <= i < count ->
  exists c, appends (monochromatic_body is_hex h s l count) i c /\ good is_hex c.
Proof.
  intro Hi.
  destruct (monochromatic_body_appends is_hex h s l count Hh Hs Hl Hcount i Hi)
    as (c & Happ & _).
  exists c. split; [assumption|].
  specialize (Happ []). unfold monochromatic_body in Happ.
  destruct (if count >? 1 then _ else _) as [factor|]; [|discriminate Happ].
  cbn [bind] in Happ.
  destruct (to_float factor) as [f|]; [|discriminate Happ]. cbn [bind] in Happ.
  destruct (clamp_int 10 100 s _) as [new_s|] eqn:Es; [|discriminate Happ].
  cbn [bind] in Happ.
  destruct (clamp_int 10 90 l _) as [new_l|] eqn:El; [|discriminate Happ].
  cbn [bind] in Happ.
  apply clamp_int_range in Es; [|lia|apply small_abs; lia].
  apply clamp_int_range in El; [|lia|apply small_abs; lia].
  rewrite append_color_eq in Happ.
  destruct (colour_of is_hex (PInt h) new_s new_l) as [c'|] eqn:Ec; [|discriminate Happ].
  cbn [bind app] in Happ. injection Happ as ->.
  apply (colour_of_good is_hex (PInt h) new_s new_l c); [apply small_abs| | |]; lia || assumption.
Qed.

Lemma triadic_body_colour (i : Z) :
  0 <= i < 3 ->
  exists c, appends (triadic_body is_hex h s l) i c
            /\ triadic_colour is_hex h s l i = Ok c /\ good is_hex c.
Proof.
  intro Hi. destruct (angle_at_ok i Hi) as (a & Ea & _).
  destruct (colour_of_valid is_hex (PInt ((h + a) mod 360)) s l (triadic_hue_ok h a) Hs Hl)
    as (c & Ec & R & V).
  exists c. split; [|split; [|now split]].
  - intro palette. unfold triadic_body.
    rewrite Ea. cbn [bind]. rewrite append_color_eq, Ec. reflexivity.
  - unfold triadic_colour. rewrite (Z.mod_small i 3 Hi), Ea. cbn [bind].
    destruct (Z.ltb_spec i 3) as [_|]; [|lia]. cbn [bind]. exact Ec.
Qed.

Lemma triadic_inv_snoc (palette : list color) (c : color) :
  triadic_inv is_hex h s l palette ->
  triadic_colour is_hex h s l (Z.of_nat (List.length palette)) = Ok c ->
  good is_hex c ->
  triadic_inv is_hex h s l (palette ++ [c]).
Proof.
  intros Hp Hc Gc j d Hj.
  destruct (Nat.lt_ge_cases j (List.length palette)) as [Lt|Ge].
  - rewrite nth_error_app1 in Hj by assumption. now apply Hp.
  - rewrite nth_error_app2 in Hj by assumption.
    destruct (j - List.length palette)%nat as [|n] eqn:En.
    + cbn in Hj. injection Hj as <-.
      replace j with (List.length palette) by lia. now split.
    + cbn in Hj. destruct n; discriminate Hj.
Qed.

Lemma triadic_fill_colours (fuel : nat) :
  forall palette,
    count - Z.of_nat (List.length palette) <= Z.of_nat fuel ->
    Z.min count 3 <= Z.of_nat (List.length palette) ->
    triadic_inv is_hex h s l palette ->
    exists palette',
      triadic_fill is_hex h s l count fuel palette = Ok palette'
      /\ Z.of_nat (List.length palette') = Z.max count (Z.of_nat (List.length palette))
      /\ triadic_inv is_hex h s l palette'.
Proof.
  induction fuel as [|fuel IH]; intros palette Hf Hmin Hinv;
    rewrite triadic_fill_eq; cbv zeta;
    set (n := Z.of_nat (List.length palette)) in *;
    destruct (n <? count) eqn:E;
    try (exists palette; split; [reflexivity|];
         split; [apply Z.ltb_ge in E; lia|assumption]).
  - apply Z.ltb_lt in E. lia.
  - apply Z.ltb_lt in E.
    assert (H3 : 3 <= n) by lia.
    destruct (angle_at_ok (n mod 3)) as (a & Ea & _).
    { apply Z.mod_pos_bound. lia. }
    rewrite Ea. cbn [bind].
    destruct (float_of_int_small (n / 3 + 1)) as (k & Ek & _).
    { pose proof (Z.div_pos n 3 ltac:(lia) ltac:(lia)).
      pose proof (Z.mul_div_le n 3 ltac:(lia)).
      change (2 ^ 53) with 9007199254740992 in *. lia. }
    rewrite Ek. cbn [bind].
    destruct (clamp_int_ok 10 90 l (k * 0.2 * 40)%float ltac:(lia)) as (new_l & El & Hnl).
    { apply small_abs. lia. }
    rewrite El. cbn [bind].
    destruct (colour_of_valid is_hex (PInt ((h + a) mod 360)) s new_l
                (triadic_hue_ok h a) Hs ltac:(lia)) as (c & Ec & R & V).
    rewrite append_color_eq, Ec. cbn [bind].
    destruct (IH (palette ++ [c])%list) as (palette' & Ep & Hlen & Hinv').
    + rewrite length_app. cbn [List.length]. fold n. lia.
    + rewrite length_app. cbn [List.length]. fold n. lia.
    + apply triadic_inv_snoc; [assumption| |now split].
      fold n. unfold triadic_colour. rewrite Ea. cbn [bind].
      destruct (Z.ltb_spec n 3) as [|_]; [lia|].
      rewrite Ek. cbn [bind]. rewrite El. cbn [bind]. exact Ec.
    + exists palette'. split; [exact Ep|]. split; [|exact Hinv'].
      rewrite Hlen, length_app. cbn [List.length]. fold n. lia.
Qed.

(** The triadic palette: [max(count, 0)] colours, the one at index [j]
    being [triadic_colour] at [j]. *)
Lemma triadic_palette :
  exists palette,
    palette_of is_hex h s l count "triadic" = Ok palette
    /\ Z.of_nat (List.length palette) = Z.max 0 count
    /\ triadic_inv is_hex h s l palette.
Proof.
  unfold palette_of. cbn [String.eqb Ascii.eqb Bool.eqb].
  destruct (for_each_append (range (Z.min count 3)) (triadic_body is_hex h s l))
    as (cs & Hlen & Hrun & Hnth).
  { intros i Hi. apply range_bounds in Hi.
    destruct (triadic_body_colour i ltac:(lia)) as (c & Hc & _). now exists c. }
  rewrite Hrun. cbn [bind app].
  assert (L : Z.of_nat (List.length cs) = Z.max 0 (Z.min count 3)).
  { rewrite Hlen. apply range_length. }
  destruct (triadic_fill_colours (Z.to_nat count) cs) as (palette & Ep & Hp & Hinv).
  - lia.
  - lia.
  - intros j c Hj.
    assert (Lt : (j < List.length cs)%nat) by (apply nth_error_Some; congruence).
    assert (Hr : 0 <= Z.of_nat j < Z.min count 3) by lia.
    pose proof (range_nth (Z.min count 3) (Z.of_nat j) Hr) as Rn.
    rewrite Nat2Z.id in Rn.
    destruct (Hnth j (Z.of_nat j) Rn) as (c' & Ec' & Happ).
    rewrite Hj in Ec'. injection Ec' as <-.
    destruct (triadic_body_colour (Z.of_nat j) ltac:(lia)) as (c'' & Happ' & Ecol & G).
    rewrite (appends_inj _ _ _ _ Happ Happ'). now split.
  - exists palette. split; [exact Ep|]. split; [lia|exact Hinv].
Qed.

(** Every colour of a palette is valid and in the representation of the
    base colour, whatever the variation. *)
Lemma palette_of_good (variation : string) :
  exists palette,
    palette_of is_hex h s l count variation = Ok palette
    /\ Forall (good is_hex) palette.
Proof.
  unfold palette_of.
  destruct (String.eqb variation "analogous").
  - destruct (analogous_step_ok count Hcount) as (step & Es & Hstep).
    rewrite Es. cbn [bind].
    apply for_each_Forall; [|constructor].
    intros i Hi. apply range_bounds in Hi. now apply analogous_body_good.
  - destruct (String.eqb variation "monochromatic").
    + apply for_each_Forall; [|constructor].
      intros i Hi. apply range_bounds in Hi. now apply monochromatic_body_good.
    + destruct (String.eqb variation "triadic").
      * destruct triadic_palette as (palette & Ep & _ & Hinv).
        unfold palette_of in Ep. cbn [String.eqb Ascii.eqb Bool.eqb] in Ep.
        exists palette. split; [exact Ep|].
        apply Forall_forall. intros c Hc.
        destruct (In_nth_error _ _ Hc) as (j & Hj). exact (proj2 (Hinv j c Hj)).
      * exists []. split; [reflexivity|constructor].
Qed.

End Colours.

(** X9. For every valid base colour, every count up to [2^53] and every
    variation string, [generate_color_palette] raises no error, and every
    colour of the palette is a valid colour in the representation of the
    base colour. *)
Theorem palette_colours_valid (base : color) (count : Z) (variation : string) :
  valid_color base -> count <= 2 ^ 53 ->
  exists palette,
    generate_color_palette base count variation = Ok palette
    /\ Forall (fun c => valid_color c /\ is_str c = is_str base) palette.
Proof.
  intros Hc Hcount. unfold generate_color_palette.
  destruct (unpack_valid base Hc) as (r & g & b & E & Hr & Hg & Hb).
  rewrite E. cbn [bind].
  destruct (rgb_to_hsl_ok r g b Hr Hg Hb) as (h & s & l & E2 & Hh & Hs & Hl).
  rewrite E2. cbn [bind].
  exact (palette_of_good (is_str base) h s l count Hh Hs Hl Hcount variation).
Qed.

Lemma palette_colours_valid_witness :
  valid_color (Hex "#3366CC") /\ 7 <= 2 ^ 53
  /\ exists palette,
       generate_color_palette (Hex "#3366CC") 7 "monochromatic" = Ok palette
       /\ Forall (fun c => valid_color c /\ is_str c = is_str (Hex "#3366CC")) palette.
Proof.
  assert (V : valid_color (Hex "#3366CC")) by (split; reflexivity).
  assert (B : 7 <= 2 ^ 53) by (vm_compute; discriminate).
  split; [exact V|]. split; [exact B|].
  exact (palette_colours_valid (Hex "#3366CC") 7 "monochromatic" V B).
Defined.

(** X10. The colour at index [i] of a triadic palette does not depend on
    [count]: for every valid base colour, every count up to [2^53] and every
    [i] in [0, count), it is [triadic_colour_of base i], that is the hue
    [(h + angles[i mod 3]) mod 360] with the saturation of the base colour,
    and its lightness [l] below index 3 and
    [int(max(10, min(90, l + (i // 3 + 1) * 0.2 * 40)))] from index 3 on. *)
Theorem triadic_ith_colour (base : color) (count i : Z) :
  valid_color base -> count <= 2 ^ 53 -> 0 <= i < count ->
  exists palette c,
    generate_color_palette base count "triadic" = Ok palette
    /\ Z.of_nat (List.length palette) = count
    /\ nth_error palette (Z.to_nat i) = Some c
    /\ triadic_colour_of base i = Ok c.
Proof.
  intros Hc Hcount Hi. unfold generate_color_palette, triadic_colour_of.
  destruct (unpack_valid base Hc) as (r & g & b & E & Hr & Hg & Hb).
  rewrite E. cbn [bind].
  destruct (rgb_to_hsl_ok r g b Hr Hg Hb) as (h & s & l & E2 & Hh & Hs & Hl).
  rewrite E2. cbn [bind].
  destruct (triadic_palette (is_str base) h s l count Hs Hl Hcount)
    as (palette & Ep & Hlen & Hinv).
  assert (Lt : (Z.to_nat i < List.length palette)%nat) by lia.
  destruct (nth_error palette (Z.to_nat i)) as [c|] eqn:En.
  - exists palette, c. split; [exact Ep|]. split; [lia|]. split; [exact En|].
    destruct (Hinv _ _ En) as [Ecol _]. rewrite Z2Nat.id in Ecol by lia. exact Ecol.
  - apply nth_error_None in En. lia.
Qed.

Lemma triadic_ith_colour_witness :
  valid_color (Rgb 200 40 90) /\ 8 <= 2 ^ 53 /\ 0 <= 5 < 8
  /\ exists palette c,
       generate_color_palette (Rgb 200 40 90) 8 "triadic" = Ok palette
       /\ Z.of_nat (List.length palette) = 8
       /\ nth_error palette (Z.to_nat 5) = Some c
       /\ triadic_colour_of (Rgb 200 40 90) 5 = Ok c.
Proof.
  assert (V : valid_color (Rgb 200 40 90)) by (unfold valid_color, in_byte; lia).
  assert (B : 8 <= 2 ^ 53) by (vm_compute; discriminate).
  assert (I : 0 <= 5 < 8) by lia.
  split; [exact V|]. split; [exact B|]. split; [exact I|].
  exact (triadic_ith_colour (Rgb 200 40 90) 8 5 V B I).
Defined.

(** * Distance and random colours: properties *)

(** X13. [color_distance] is symmetric, and 0.0 between two colours with
    the same channels, whatever their representations, for every [pow] of
    the C library: the two calls agree on the value returned, and on the
    error if the library overflows.  It holds for every pair of colours
    that can be read, the RGB triples out of [0, 255] included, which
    [color_distance] does not reject. *)
Theorem color_distance_symmetric (c_pow : float -> float -> float)
  (c1 c2 : color) (t1 t2 : Z * Z * Z) :
  unpack c1 = Ok t1 -> unpack c2 = Ok t2 ->
  color_distance c_pow c1 c2 = color_distance c_pow c2 c1
  /\ (t1 = t2 -> color_distance c_pow c1 c2 = Ok 0%float).
Proof.
  intros E1 E2. unfold color_distance. rewrite E1, E2.
  destruct t1 as [[r1 g1] b1], t2 as [[r2 g2] b2]. cbn [bind]. split.
  - f_equal. ring.
  - intro E. injection E as -> -> ->.
    replace ((r2 - r2) ^ 2 + (g2 - g2) ^ 2 + (b2 - b2) ^ 2) with 0 by ring.
    reflexivity.
Qed.

Lemma color_distance_symmetric_witness :
  unpack (Hex "ff8000") = Ok (255, 128, 0)
  /\ unpack (Rgb 255 128 0) = Ok (255, 128, 0)
  /\ color_distance (fun x _ => PrimFloat.sqrt x) (Hex "ff8000") (Rgb 255 128 0)
     = color_distance (fun x _ => PrimFloat.sqrt x) (Rgb 255 128 0) (Hex "ff8000")
  /\ ((255, 128, 0) = (255, 128, 0) ->
      color_distance (fun x _ => PrimFloat.sqrt x) (Hex "ff8000") (Rgb 255 128 0) = Ok 0%float).
Proof.
  assert (U1 : unpack (Hex "ff8000") = Ok (255, 128, 0)) by reflexivity.
  assert (U2 : unpack (Rgb 255 128 0) = Ok (255, 128, 0)) by reflexivity.
  split; [exact U1|]. split; [exact U2|].
  exact (color_distance_symmetric (fun x _ => PrimFloat.sqrt x) (Hex "ff8000") (Rgb 255 128 0)
           (255, 128, 0) (255, 128, 0) U1 U2).
Defined.

Lemma lower_fixed (s : string) :
  s = "hex" \/ s = "rgb" \/ s = "hsl" -> lower s = s.
Proof. intros [ -> | [ -> | -> ] ]; reflexivity. Qed.

(** X14. [random_color] draws three numbers, whatever the format asked
    for, also when it raises.  When every draw of [randint(0, 255)] lies in
    [0, 255]: for the format ["hex"] it returns a valid hex colour of seven
    characters, for ["rgb"] a triple of channels in [0, 255], for ["hsl"] a
    triple with the hue in [0, 360] and saturation and lightness in
    [0, 100]; the format is read without regard to the case of its letters;
    any other format raises [ValueError] with the format as it was given. *)
Theorem random_color_formats (rng : Type) (randint : Z -> Z -> rng -> Z * rng)
  (format_type : string) (gen : rng) :
  (forall g, in_byte (fst (randint 0 255 g))) ->
  let res := random_color rng randint format_type gen in
  snd res = snd (randint 0 255 (snd (randint 0 255 (snd (randint 0 255 gen)))))
  /\ (lower format_type = "hex" ->
        exists s, fst res = Ok (Hex s)
                  /\ String.length s = 7%nat /\ valid_hex s)
  /\ (lower format_type = "rgb" ->
        exists r g b, fst res = Ok (Rgb r g b)
                      /\ in_byte r /\ in_byte g /\ in_byte b)
  /\ (lower format_type = "hsl" ->
        exists h s l, fst res = Ok (Rgb h s l)
                      /\ 0 <= h <= 360 /\ 0 <= s <= 100 /\ 0 <= l <= 100)
  /\ (lower format_type <> "hex" -> lower format_type <> "rgb" ->
      lower format_type <> "hsl" ->
        fst res = Raise (ValueError ("Unsupported format: " ++ format_type))).
Proof.
  intros Hdraw res. subst res. unfold random_color.
  pose proof (Hdraw gen) as Hr.
  destruct (randint 0 255 gen) as [r g1]. cbn [fst snd] in *.
  pose proof (Hdraw g1) as Hg.
  destruct (randint 0 255 g1) as [g g2]. cbn [fst snd] in *.
  pose proof (Hdraw g2) as Hb.
  destruct (randint 0 255 g2) as [b g3]. cbn [fst snd] in *.
  split; [reflexivity|]. split; [|split; [|split]].
  - intros ->. cbn [String.eqb Ascii.eqb Bool.eqb].
    destruct (rgb_to_hex_valid r g b Hr Hg Hb) as (s & E & L & V & _).
    rewrite E. cbn [bind]. now exists s.
  - intros ->. cbn [String.eqb Ascii.eqb Bool.eqb]. now exists r, g, b.
  - intros ->. cbn [String.eqb Ascii.eqb Bool.eqb].
    destruct (rgb_to_hsl_ok r g b Hr Hg Hb) as (h & s & l & E & Hh & Hs & Hl).
    rewrite E. cbn [bind]. now exists h, s, l.
  - intros N1 N2 N3.
    apply String.eqb_neq in N1, N2, N3. now rewrite N1, N2, N3.
Qed.

Lemma random_color_formats_witness :
  (forall g, in_byte (fst (counter_randint 0 255 g)))
  /\ let res := random_color Z counter_randint "HSL" 5 in
     snd res = snd (counter_randint 0 255 (snd (counter_randint 0 255
                      (snd (counter_randint 0 255 5)))))
     /\ (lower "HSL" = "hex" ->
           exists s, fst res = Ok (Hex s)
                     /\ String.length s = 7%nat /\ valid_hex s)
     /\ (lower "HSL" = "rgb" ->
           exists r g b, fst res = Ok (Rgb r g b)
                         /\ in_byte r /\ in_byte g /\ in_byte b)
     /\ (lower "HSL" = "hsl" ->
           exists h s l, fst res = Ok (Rgb h s l)
                         /\ 0 <= h <= 360 /\ 0 <= s <= 100 /\ 0 <= l <= 100)
     /\ (lower "HSL" <> "hex" -> lower "HSL" <> "rgb" -> lower "HSL" <> "hsl" ->
           fst res = Raise (ValueError ("Unsupported format: " ++ "HSL"))).
Proof.
  assert (D : forall g, in_byte (fst (counter_randint 0 255 g))).
  { intro g. unfold counter_randint, in_byte. cbn [fst].
    pose proof (Z.mod_pos_bound (37 * g) (255 - 0 + 1) ltac:(lia)). lia. }
  split; [exact D|].
  exact (random_color_formats Z counter_randint "HSL" 5 D).
Defined.

(** * The case of hexadecimal digits *)

Lemma case_table : forallb case_ok hex_chars = true.
Proof. vm_compute. reflexivity. Qed.

Section Case.

(** A change of case: [upper] or [lower]. *)
Variable m : ascii -> ascii.
Variable ms : string -> string.
Hypothesis ms_nil : ms EmptyString = EmptyString.
Hypothesis ms_cons : forall c s, ms (String c s) = String (m c) (ms s).
Hypothesis m_hash : m "#" = "#"%char.
Hypothesis m_digit : forall a, is_hex_digit a = true -> digit16 (m a) = digit16 a.

Lemma m_hex (a : ascii) : is_hex_digit a = true -> is_hex_digit (m a) = true.
Proof. intro H. unfold is_hex_digit in *. now rewrite (m_digit a H). Qed.

Lemma m_value (a : ascii) :
  is_hex_digit a = true -> digit_value (Some (m a)) = digit_value (Some a).
Proof. intro H. unfold digit_value. now rewrite (m_digit a H). Qed.

Lemma hex_to_rgb_case (s : string) :
  valid_hex s -> valid_hex (ms s) /\ hex_to_rgb (ms s) = hex_to_rgb s.
Proof.
  intro Hv. pose proof (lstrip_valid s Hv) as Hl. destruct Hv as [Hlen Hall].
  destruct (six_hex_inv _ Hlen Hall)
    as (a & b & c & d & e & f & Ht & Ha & Hb & Hc & Hd & He & Hf).
  rewrite (hex_to_rgb_six s _ Hl Hlen Hall).
  set (t' := String (m a) (String (m b) (String (m c)
               (String (m d) (String (m e) (String (m f) EmptyString)))))).
  assert (Et : ms (strip_one_hash s) = t').
  { rewrite Ht. now rewrite !ms_cons, ms_nil. }
  assert (Lt : String.length t' = 6%nat) by reflexivity.
  assert (At : all_hex t' = true).
  { unfold t'. cbn [all_hex].
    now rewrite (m_hex a Ha), (m_hex b Hb), (m_hex c Hc), (m_hex d Hd),
      (m_hex e He), (m_hex f Hf). }
  assert (St : strip_one_hash (ms s) = t' /\ lstrip "#" (ms s) = t').
  { destruct s as [|x s']; [discriminate Hlen|].
    assert (Hx : strip_one_hash (String x s') = String x s' \/
                 (x = "#"%char /\ strip_one_hash (String x s') = s')).
    { unfold strip_one_hash. destruct x as [[] [] [] [] [] [] [] []]; auto. }
    destruct Hx as [ Hx | [ -> Hx ] ]; rewrite Hx in Et.
    - rewrite Et. split.
      + unfold t', strip_one_hash.
        pose proof (m_hex a Ha) as Hma.
        destruct (m a) as [[] [] [] [] [] [] [] []]; try reflexivity; discriminate Hma.
      + apply lstrip_hash_hex. now apply m_hex.
    - rewrite ms_cons, m_hash, Et. split; [reflexivity|].
      change (lstrip "#" (String "#" t')) with (lstrip "#" t').
      apply lstrip_hash_hex. now apply m_hex. }
  destruct St as [S1 S2]. split.
  - unfold valid_hex. rewrite S1. now split.
  - rewrite (hex_to_rgb_six (ms s) t' S2 Lt At). rewrite Ht.
    unfold group_value, t'. cbn [String.get].
    now rewrite (m_value a Ha), (m_value b Hb), (m_value c Hc), (m_value d Hd),
      (m_value e He), (m_value f Hf).
Qed.

End Case.

Lemma case_ok_at (a : ascii) :
  is_hex_digit a = true ->
  digit16 (upper_char a) = digit16 a /\ digit16 (lower_char a) = digit16 a.
Proof.
  intro H. pose proof case_table as T. rewrite forallb_forall in T.
  specialize (T a (is_hex_digit_In a H)). unfold case_ok in T.
  destruct (digit16 a) as [d|]; [|discriminate T].
  destruct (digit16 (upper_char a)) as [u|]; [|discriminate T].
  destruct (digit16 (lower_char a)) as [l|]; [|discriminate T].
  apply andb_true_iff in T. destruct T as [T1 T2].
  apply Z.eqb_eq in T1, T2. now subst.
Qed.

(** X15. [hex_to_rgb] does not look at the case of the digits: for every
    valid hex colour, the string in upper case and the string in lower case
    are valid hex colours and give the same triple as the string itself. *)
Theorem hex_to_rgb_ignores_case (s : string) :
  valid_hex s ->
  valid_hex (upper s) /\ valid_hex (lower s)
  /\ hex_to_rgb (upper s) = hex_to_rgb s
  /\ hex_to_rgb (lower s) = hex_to_rgb s.
Proof.
  intro Hv.
  destruct (hex_to_rgb_case upper_char upper eq_refl (fun _ _ => eq_refl) eq_refl
              (fun a H => proj1 (case_ok_at a H)) s Hv) as [V1 E1].
  destruct (hex_to_rgb_case lower_char lower eq_refl (fun _ _ => eq_refl) eq_refl
              (fun a H => proj2 (case_ok_at a H)) s Hv) as [V2 E2].
  repeat split; assumption || apply V1 || apply V2.
Qed.

Lemma hex_to_rgb_ignores_case_witness :
  valid_hex "#Ff8a0C"
  /\ valid_hex (upper "#Ff8a0C") /\ valid_hex (lower "#Ff8a0C")
  /\ hex_to_rgb (upper "#Ff8a0C") = hex_to_rgb "#Ff8a0C"
  /\ hex_to_rgb (lower "#Ff8a0C") = hex_to_rgb "#Ff8a0C".
Proof.
  assert (V : valid_hex "#Ff8a0C") by (split; reflexivity).
  split; [exact V|]. exact (hex_to_rgb_ignores_case "#Ff8a0C" V).
Defined.

Local Open Scope R_scope.

(** * The hue of [rgb_to_hsl] stays below 360 *)

(** A finite float minus itself is [+0.0]. *)
Lemma Fsub_self (x : float) : Ffin x -> (x - x)%float = 0%float.
Proof.
  intro Fx. apply FloatAxioms.Prim2SF_inj.
  rewrite FloatAxioms.sub_spec, Prim2SF_zero. unfold Ffin in Fx.
  destruct (Prim2SF x) as [s|s| |s m e]; try discriminate Fx.
  - destruct s; reflexivity.
  - unfold SF64sub, SFsub. rewrite Z.sub_diag. reflexivity.
Qed.

(** With red the largest channel and green equal to blue, the hue that
    [rgb_to_hls] returns is [+0.0]. *)
Lemma hue_red (r g : Z) (h l s : float) :
  in_byte r -> in_byte g -> (g < r)%Z ->
  colorsys.rgb_to_hls (chan r) (chan g) (chan g) = Ok (h, l, s) -> h = 0%float.
Proof.
  intros Hr Hg Hlt E. unfold colorsys.rgb_to_hls in E.
  rewrite (max3_chan r g g Hr Hg Hg), (min3_chan r g g Hr Hg Hg) in E.
  replace (Z.max r (Z.max g g)) with r in E by lia.
  replace (Z.min r (Z.min g g)) with g in E by lia.
  cbv zeta in E.
  destruct (fdiv (chan r + chan g) 2) as [l0|]; [|discriminate E]. cbn [bind] in E.
  rewrite (chan_eqb g r Hg Hr) in E.
  replace (g =? r)%Z with false in E by (symmetry; apply Z.eqb_neq; lia).
  destruct (if (l0 <=? 0.5)%float then _ else _) as [s0|]; [|discriminate E].
  cbn [bind] in E.
  destruct (fdiv (chan r - chan r) (chan r - chan g)) as [rc|]; [|discriminate E].
  cbn [bind] in E.
  destruct (chan_quotient g r g Hg Hr Hg ltac:(lia) Hlt) as (Eq & Fq & _).
  rewrite Eq in E. cbn [bind] in E.
  rewrite (chan_eqb r r Hr Hr), Z.eqb_refl in E.
  rewrite (Fsub_self _ Fq) in E.
  change (fdiv 0 6) with (Ok 0%float) in E. cbn [bind] in E.
  change (fmod_py 0 1) with (Ok 0%float) in E. cbn [bind] in E.
  now injection E as <- _ _.
Qed.

(** The hue in sixths of the range is an integer: it is a multiple of six
    times the range only when red is the largest channel and green equals
    blue. *)
Lemma hue_whole (r g b k : Z) :
  in_byte r -> in_byte g -> in_byte b ->
  (Z.min r (Z.min g b) < Z.max r (Z.max g b))%Z ->
  Rabs (hue_sixth r g b - IZR k - 1) <= 2 * tau ->
  r = Z.max r (Z.max g b) /\ g = b.
Proof.
  intros Hr Hg Hb Hlt Hh. unfold hue_sixth in Hh. unfold in_byte in *.
  set (M := Z.max r (Z.max g b)) in *. set (m := Z.min r (Z.min g b)) in *.
  assert (Hd : 1 <= IZR (M - m) <= 255) by (split; apply IZR_le; lia).
  assert (Hd' : Rabs (6 * IZR (M - m)) <= 1530) by (apply Rabs_le; lra).
  assert (Whole : forall n : Z,
             IZR n = 6 * IZR (M - m) * (IZR n / IZR (M - m) / 6 - IZR k - 1)
                     + 6 * IZR (M - m) * (IZR k + 1)) by (intro n; field; lra).
  assert (Small : forall x, Rabs x <= 2 * tau -> Rabs (6 * IZR (M - m) * x) < 1).
  { intros x Hx. pose proof (mul_bound _ _ _ _ Hd' Hx) as B.
    apply Rabs_def1; unfold tau in *; lra. }
  assert (Int : forall n : Z,
             Rabs (IZR n / IZR (M - m) / 6 - IZR k - 1) <= 2 * tau ->
             (n = 6 * (M - m) * (k + 1))%Z).
  { intros n Hn. apply Small in Hn. apply Rabs_def2 in Hn.
    pose proof (Whole n) as W.
    assert (E : IZR (n - 6 * (M - m) * (k + 1))
                = 6 * IZR (M - m) * (IZR n / IZR (M - m) / 6 - IZR k - 1)).
    { rewrite minus_IZR, !mult_IZR, plus_IZR. lra. }
    assert (L1 : (n - 6 * (M - m) * (k + 1) < 1)%Z) by (apply lt_IZR; lra).
    assert (L2 : (-1 < n - 6 * (M - m) * (k + 1))%Z) by (apply lt_IZR; lra).
    lia. }
  assert (Bd : (m <= r <= M /\ m <= g <= M /\ m <= b <= M)%Z) by (unfold M, m; lia).
  assert (Far : forall n : Z, (M - m <= n <= 5 * (M - m))%Z ->
                  (n = 6 * (M - m) * (k + 1))%Z -> False).
  { intros n Hn En. destruct (Z_lt_le_dec (k + 1) 1); nia. }
  destruct (Z.eqb_spec r M) as [ErM|NrM]; [|destruct (Z.eqb_spec g M) as [EgM|NgM]].
  - apply Int in Hh. split; [assumption|].
    destruct (Z.eq_dec (k + 1) 0) as [E0|N0]; [rewrite E0 in Hh; lia|].
    destruct (Z_lt_le_dec (k + 1) 0); nia.
  - exfalso.
    replace ((2 + IZR (b - r) / IZR (M - m)) / 6)
      with (IZR (2 * (M - m) + (b - r)) / IZR (M - m) / 6) in Hh
      by (rewrite plus_IZR, mult_IZR; field; lra).
    apply Int in Hh. apply (Far (2 * (M - m) + (b - r))%Z); [lia|exact Hh].
  - exfalso.
    replace ((4 + IZR (r - g) / IZR (M - m)) / 6)
      with (IZR (4 * (M - m) + (r - g)) / IZR (M - m) / 6) in Hh
      by (rewrite plus_IZR, mult_IZR; field; lra).
    apply Int in Hh. apply (Far (4 * (M - m) + (r - g))%Z); [lia|exact Hh].
Qed.

Lemma rgb_to_hsl_hue (r g b : Z) :
  in_byte r -> in_byte g -> in_byte b ->
  exists H S L : Z,
    rgb_to_hsl r g b = Ok (H, S, L)
    /\ (0 <= H <= 359)%Z /\ (0 <= S <= 100)%Z /\ (0 <= L <= 100)%Z.
Proof.
  intros Hr Hg Hb.
  destruct (rgb_to_hsl_ok r g b Hr Hg Hb) as (H & S & L & E & RH & RS & RL).
  exists H, S, L. split; [exact E|]. split; [|now split].
  destruct (Z.eq_dec H 360) as [->|]; [exfalso|lia].
  destruct (Z_lt_le_dec (Z.min r (Z.min g b)) (Z.max r (Z.max g b))) as [Hlt|Hge].
  - destruct (rgb_to_hls_value r g b Hr Hg Hb Hlt) as (h & k & Eh & Fh & Rh & Vh).
    unfold rgb_to_hsl in E.
    destruct (chan_channel r Hr) as [Er _]. destruct (chan_channel g Hg) as [Eg _].
    destruct (chan_channel b Hb) as [Eb _].
    rewrite Er, Eg, Eb in E. cbn [bind] in E. rewrite Eh in E. cbn [bind] in E.
    destruct (py_int (h * 360)%float) as [H'|] eqn:EH; [|discriminate]. cbn [bind] in E.
    destruct (py_int (saturation _ _ * 100)%float) as [S'|]; [|discriminate].
    cbn [bind] in E.
    destruct (py_int (lightness _ _ * 100)%float) as [L'|]; [|discriminate].
    cbn [bind] in E. injection E as -> _ _.
    float_lit 360%float L360. destruct L360 as [F360 V360].
    assert (V360' : F2R 360 = 360) by lra.
    destruct (Fmul_err h 360 Fh F360) as [Fm Vm].
    { rewrite V360'. apply Rabs_le. unfold eps in *. lra. }
    destruct (Fmul_nonneg h 360 (1 + 3 * eps) 360 Fh F360) as [_ Vn];
      try (unfold eps in *; lra).
    destruct (py_int_spec (h * 360)%float Fm) as (H' & EH' & Hpos & _).
    rewrite EH in EH'. injection EH' as <-.
    specialize (Hpos (proj1 Vn)).
    rewrite V360' in Vm. apply Rabs_le_inv in Vm, Vh.
    assert (Hh : Rabs (hue_sixth r g b - IZR k - 1) <= 2 * tau).
    { apply Rabs_le. unfold tau, err, eps in *. lra. }
    destruct (hue_whole r g b k Hr Hg Hb Hlt Hh) as [EM Egb].
    subst b. unfold in_byte in *.
    assert (Hgr : (g < r)%Z) by lia.
    rewrite (hue_red r g h _ _ Hr Hg Hgr Eh) in Vm, Hpos.
    rewrite F2R_zero in Vm. unfold err in *. lra.
  - unfold in_byte in *.
    assert (g = r) by lia. assert (b = r) by lia. subst g b.
    destruct (grey_hsl r Hr) as (l & E' & _). rewrite E in E'. discriminate E'.
Qed.

(** X4. For every RGB triple with channels in [0, 255], [rgb_to_hsl]
    raises no error and returns a hue in [0, 359], the bound 360 never being
    reached, and a saturation and a lightness in [0, 100]. *)
Theorem rgb_to_hsl_in_range (r g b : Z) :
  in_byte r -> in_byte g -> in_byte b ->
  exists h s l : Z,
    rgb_to_hsl r g b = Ok (h, s, l)
    /\ (0 <= h <= 359)%Z /\ (0 <= s <= 100)%Z /\ (0 <= l <= 100)%Z.
Proof. exact (rgb_to_hsl_hue r g b). Qed.

Lemma rgb_to_hsl_in_range_witness :
  in_byte 255 /\ in_byte 0 /\ in_byte 1
  /\ exists h s l : Z,
       rgb_to_hsl 255 0 1 = Ok (h, s, l)
       /\ (0 <= h <= 359)%Z /\ (0 <= s <= 100)%Z /\ (0 <= l <= 100)%Z.
Proof.
  assert (B1 : in_byte 255) by (unfold in_byte; lia).
  assert (B2 : in_byte 0) by (unfold in_byte; lia).
  assert (B3 : in_byte 1) by (unfold in_byte; lia).
  split; [exact B1|]. split; [exact B2|]. split; [exact B3|].
  exact (rgb_to_hsl_in_range 255 0 1 B1 B2 B3).
Defined.

Local Close Scope R_scope.
